(** * MapReduce: a shallow embedding of [src/main.cpp]

    The program splits one text file into line-aligned byte ranges, maps
    every range on a worker thread, groups the mapped items in a
    [std::map], deals the groups round-robin to the reducers and lets every
    reducer write one output file.

    Conventions of the embedding.
    - [std::string] is [string]; the bytes of a file are a [list ascii].
    - [std::streampos], [std::streamoff] and [int] are [Z]; [pos_type(-1)]
      is [-1].  The two counts enter through [std::atoi], which gives
      values of [int] only: [atoi] wraps to 32 bits as the C library does.
      Resource exhaustion ([std::bad_alloc], a thread that cannot be
      created) is not modelled: the program is taken to get the vectors
      and the threads that its counts ask for.  That leaves out the
      largest counts, and with them [num_sections + 1] at [INT_MAX].
    - A C++ exception is a value of [exception]; a function that may throw
      returns a [result].
    - [std::ifstream] is a record with the get position and the two state
      bits the program can observe; [seekg], [getline] and [tellg] follow
      the C++ standard ([istream.unformatted], [string.io]): every input
      function first builds a sentry, which sets [failbit] when the stream
      is not [good()].
    - [std::map<std::string, std::list<std::string>>] is an association
      list kept in ascending key order, the order in which the program
      iterates it.
    - Worker threads are run one after the other by [main]: every mapper
      owns its slot of [map_results] and every reducer its output file.
      The mapping phase is modelled a second time with an explicit
      scheduler ([run_mappers]), and both models are proved to agree.
    - An exception that leaves the function of a [std::thread] calls
      [std::terminate]; the process then ends without returning from
      [main] ([Aborted]), and standard error holds what the terminate
      handler of the C++ runtime has written ([Terminate_report]).
    - A file is known by its path: two paths are two files.  Other names
      of one file (a [./] in front, a link) are not modelled. *)

From Stdlib Require Import ZArith String Ascii Lia.
From Stdlib Require OrderedTypeEx.
From stdpp Require Import base list gmap strings pretty sorting.

Local Open Scope Z_scope.
#[local] Set Warnings "-clear-no-such-hyp".

(** ** Exceptions *)

Inductive exception : Type :=
  | invalid_argument (msg : string)   (* std::invalid_argument *)
  | runtime_error (msg : string).     (* std::runtime_error *)

Definition what (e : exception) : string :=
  match e with
  | invalid_argument msg => msg
  | runtime_error msg => msg
  end.

(** The class of an exception: what a handler can select on, and what the
    terminate handler names. *)
Inductive exception_class : Type := std_invalid_argument | std_runtime_error.

Definition class_of (e : exception) : exception_class :=
  match e with
  | invalid_argument _ => std_invalid_argument
  | runtime_error _ => std_runtime_error
  end.

Inductive result (A : Type) : Type :=
  | Ok (a : A)
  | Throw (e : exception).
Arguments Ok {A} a.
Arguments Throw {A} e.

(** ** The file system

    [files] maps a path to the bytes stored under it; a path that is absent
    cannot be opened for reading.  [writable] tells whether a file of that
    name can be created or truncated.  A path stands for its file: two
    paths are two files, and a second name of a file (a [./] in front, a
    link) is not modelled. *)

Record FileSystem : Type := mkFS {
  files : gmap string (list ascii);
  writable : string → bool
}.

Definition newline : ascii := "010"%char.

(** ** [std::ifstream] *)

Record ifstream : Type := mkIfstream {
  buf : list ascii;      (* the bytes of the file *)
  gpos : Z;              (* get position of the file buffer *)
  eofbit : bool;
  failbit : bool
}.

Definition good (s : ifstream) : bool := negb (eofbit s) && negb (failbit s).

Definition setfail (s : ifstream) : ifstream :=
  mkIfstream (buf s) (gpos s) (eofbit s) true.

(** [std::ifstream input_file(path)]; [None] when [is_open()] is false. *)
Definition open_ifstream (fs : FileSystem) (path : string) : option ifstream :=
  match files fs !! path with
  | Some bytes => Some (mkIfstream bytes 0 false false)
  | None => None
  end.

(** [seekg(pos)]: clears [eofbit]; unless [fail()], repositions the buffer,
    and sets [failbit] when the buffer rejects the position. *)
Definition seekg (pos : Z) (s : ifstream) : ifstream :=
  if failbit s then mkIfstream (buf s) (gpos s) false true
  else if pos <? 0 then mkIfstream (buf s) (gpos s) false true
  else mkIfstream (buf s) pos false false.

(** [seekg(0, std::ios::end)] *)
Definition seekg_end (s : ifstream) : ifstream :=
  seekg (Z.of_nat (length (buf s))) s.

(** [tellg()]: [-1] when the stream is not good (the sentry then sets
    [failbit]), the get position otherwise. *)
Definition tellg (s : ifstream) : Z * ifstream :=
  if good s then (gpos s, s) else (-1, setfail s).

(** The characters before the first newline of [cs], and whether a newline
    was found. *)
Fixpoint extract_line (cs : list ascii) : list ascii * bool :=
  match cs with
  | [] => ([], false)
  | c :: cs' =>
      if Ascii.eqb c newline then ([], true)
      else let '(line, found) := extract_line cs' in (c :: line, found)
  end.

(** [std::getline(input_file, line)]: extracts characters up to and
    including the next newline, which is not stored.  Reaching the end of
    the file sets [eofbit]; extracting nothing at all sets [failbit]. *)
Definition getline (s : ifstream) : string * ifstream :=
  if good s then
    let '(line, found) := extract_line (drop (Z.to_nat (gpos s)) (buf s)) in
    let n := Z.of_nat (length line) in
    if found then
      (string_of_list_ascii line, mkIfstream (buf s) (gpos s + n + 1) false false)
    else
      (string_of_list_ascii line,
       mkIfstream (buf s) (gpos s + n) true (n =? 0))
  else (EmptyString, setfail s).

(** ** SplitFileIntoSections *)

(** The lambda [get_file_size]. *)
Definition get_file_size (file : ifstream) : Z * ifstream :=
  let file := seekg_end file in
  let '(file_size, file) := tellg file in
  let file := seekg 0 file in
  (file_size, file).

(** The loop [for (auto i{1}; i < num_sections; ++i)], by its trip count. *)
Fixpoint split_loop (section_size : Z) (trips : nat) (i : Z)
    (input_file : ifstream) (section_start_positions : list Z)
    : list Z * ifstream :=
  match trips with
  | O => (section_start_positions, input_file)
  | S trips' =>
      let input_file := seekg (section_size * i) input_file in
      let '(_, input_file) := getline input_file in
      let '(p, input_file) := tellg input_file in
      split_loop section_size trips' (i + 1) input_file
        (<[Z.to_nat i := p]> section_start_positions)
  end.

Definition SplitFileIntoSections (fs : FileSystem) (input_file_path : string)
    (num_sections : Z) : result (list Z) :=
  if String.eqb input_file_path EmptyString || (num_sections <=? 0) then
    Throw (invalid_argument "Invalid argument")
  else
    match open_ifstream fs input_file_path with
    | None => Throw (runtime_error "Can't open file")
    | Some input_file =>
        let '(file_size, input_file) := get_file_size input_file in
        if file_size <=? 0 then Throw (runtime_error "File is empty")
        else
          let section_size := file_size ÷ num_sections in
          let section_start_positions :=
            replicate (Z.to_nat (num_sections + 1)) 0 in
          let section_start_positions := <[0%nat := 0]> section_start_positions in
          let '(section_start_positions, input_file) :=
            split_loop section_size (Z.to_nat (num_sections - 1)) 1
              input_file section_start_positions in
          Ok (<[Z.to_nat num_sections := file_size]> section_start_positions)
    end.

(** ** MapSection *)

Definition MapFunction : Type := string → list string.
Definition ReduceFunction : Type := list string → list string.

(** The loop [while (input_file.tellg() < end_pos && std::getline(input_file, line))].
    [None] means that [fuel] iterations did not end the loop. *)
Fixpoint map_loop (fuel : nat) (map_func : MapFunction) (end_pos : Z)
    (input_file : ifstream) (output_list : list string) : option (list string) :=
  match fuel with
  | O => None
  | S fuel' =>
      let '(p, input_file) := tellg input_file in
      if p <? end_pos then
        let '(line, input_file) := getline input_file in
        if negb (failbit input_file) then
          map_loop fuel' map_func end_pos input_file (output_list ++ map_func line)
        else Some output_list
      else Some output_list
  end.

(** Iterations that always suffice: every iteration but the last two
    consumes a newline of the file. *)
Definition map_fuel (input_file : ifstream) : nat :=
  (length (buf input_file) + 2)%nat.

(** [MapSection] returns the new contents of [output_list]; the outer
    [option] is [None] only if the loop ran out of fuel, which
    [MapSection_terminates] excludes. *)
Definition MapSection (fs : FileSystem) (input_file_path : string)
    (start_pos end_pos : Z) (map_func : option MapFunction)
    (output_list : list string) : option (result (list string)) :=
  match map_func with
  | None => Some (Throw (invalid_argument "Invalid argument"))
  | Some f =>
      if String.eqb input_file_path EmptyString then
        Some (Throw (invalid_argument "Invalid argument"))
      else
        match open_ifstream fs input_file_path with
        | None => Some (Throw (runtime_error "Can't open file"))
        | Some input_file =>
            let input_file := seekg start_pos input_file in
            Ok <$> map_loop (map_fuel input_file) f end_pos input_file output_list
        end
  end.

(** ** Shuffle *)

(** [std::map<std::string, std::list<std::string>>], as the list of its
    entries in iteration order: ascending [std::string::compare], which
    compares bytes as unsigned values, here [String.compare]. *)
Definition StdMap : Type := list (string * list string).

(** [m[key].push_back(v)]: [operator[]] inserts an empty list under a key
    that is absent and keeps the entries ordered. *)
Fixpoint push_back_at (key v : string) (m : StdMap) : StdMap :=
  match m with
  | [] => [(key, [v])]
  | (k, l) :: m' =>
      match String.compare key k with
      | Lt => (key, [v]) :: (k, l) :: m'
      | Eq => (k, l ++ [v]) :: m'
      | Gt => (k, l) :: push_back_at key v m'
      end
  end.

(** The two nested loops that fill [grouped_results]. *)
Definition group_items (grouped_results : StdMap) (resultList : list string) : StdMap :=
  fold_left (λ grouped item, push_back_at item item grouped) resultList grouped_results.

Definition group_results (map_results : list (list string)) : StdMap :=
  fold_left group_items map_results [].

(** The loop over [grouped_results | std::views::values] with its counter [i]. *)
Fixpoint distribute (num_reducers : Z) (groups : list (list string)) (i : Z)
    (shuffle_results : list (list string)) : list (list string) :=
  match groups with
  | [] => shuffle_results
  | group :: groups' =>
      distribute num_reducers groups' (i + 1)
        (alter (λ bucket, bucket ++ group) (Z.to_nat (Z.rem i num_reducers))
           shuffle_results)
  end.

Definition Shuffle (map_results : list (list string)) (num_reducers : Z)
    : result (list (list string)) :=
  if bool_decide (map_results = []) || (num_reducers <=? 0) then
    Throw (invalid_argument "Invalid argument")
  else
    let grouped_results := group_results map_results in
    let shuffle_results := replicate (Z.to_nat num_reducers) [] in
    Ok (distribute num_reducers (grouped_results.*2) 0 shuffle_results).

(** ** ReduceContainer *)

(** What [output_file << item << std::endl] appends for every item. *)
Definition write_lines (items : list string) : list ascii :=
  flat_map (λ item, list_ascii_of_string item ++ [newline]) items.

(** The result is the exception thrown, if any, and the file system left
    behind. *)
Definition ReduceContainer (input_list : list string)
    (reduce_func : option ReduceFunction) (output_file_name : string)
    (fs : FileSystem) : result unit * FileSystem :=
  match reduce_func with
  | None => (Throw (invalid_argument "Invalid argument"), fs)
  | Some f =>
      if bool_decide (input_list = []) || String.eqb output_file_name EmptyString then
        (Throw (invalid_argument "Invalid argument"), fs)
      else
        let reduced := f input_list in
        if writable fs output_file_name then
          (Ok (), mkFS (<[output_file_name := write_lines reduced]> (files fs))
                       (writable fs))
        else (Throw (runtime_error "Can't open file"), fs)
  end.

(** ** main *)

(** [std::atoi] is [(int) strtol(s, nullptr, 10)] in the C library the
    program is built against (glibc).  [strtol] skips leading white space,
    reads an optional sign and then digits, and answers [LONG_MAX] or
    [LONG_MIN] for a number outside [long]; the conversion to [int] keeps
    the low 32 bits. *)
Definition isspace (c : ascii) : bool :=
  let n := N_of_ascii c in ((9 <=? n) && (n <=? 13) || (n =? 32))%N.

Definition digit_of (c : ascii) : option Z :=
  let n := Z.of_N (N_of_ascii c) in
  if (48 <=? n) && (n <=? 57) then Some (n - 48) else None.

Fixpoint atoi_digits (s : string) (acc : Z) : Z :=
  match s with
  | EmptyString => acc
  | String c s' =>
      match digit_of c with
      | Some d => atoi_digits s' (10 * acc + d)
      | None => acc
      end
  end.

(** The number written at the head of [s], whatever its size. *)
Fixpoint number_of (s : string) : Z :=
  match s with
  | EmptyString => 0
  | String c s' =>
      if isspace c then number_of s'
      else if Ascii.eqb c "-" then - atoi_digits s' 0
      else if Ascii.eqb c "+" then atoi_digits s' 0
      else atoi_digits s 0
  end.

Definition LONG_MAX : Z := 9223372036854775807.
Definition LONG_MIN : Z := -9223372036854775808.

Definition strtol (s : string) : Z :=
  Z.max LONG_MIN (Z.min LONG_MAX (number_of s)).

(** The conversion of a [long] to [int]: two's complement on 32 bits. *)
Definition to_int (z : Z) : Z :=
  (z + 2147483648) `mod` 4294967296 - 2147483648.

Definition atoi (s : string) : Z := to_int (strtol s).

(** The lambdas [map_func] and [reduce_func] of [main]. *)
Definition map_func : MapFunction := λ line, [line].
Definition reduce_func : ReduceFunction := λ list, list.

(** [std::to_string(i)] *)
Definition to_string (i : Z) : string := pretty i.

Definition output_file_name (i : Z) : string :=
  "output_" +:+ to_string i +:+ ".txt".

(** The stages of the driver, and where a run of the [try] block ends. *)
Inductive Stage : Type := Sectioning | Mapping | Shuffling | Reducing.

Inductive Final : Type :=
  | Done
  | Failed (stage : Stage) (e : exception)
  | OutOfFuel.

(** The first loop of [main]: worker [i] runs [MapSection] on section [i]
    and owns [map_results[i]].  The result lists what every worker did,
    in spawn order. *)
Fixpoint spawn_mappers (fs : FileSystem) (file_path : string)
    (section_start_positions : list Z) (trips : nat) (i : nat)
    (map_results : list (list string))
    : list (option (result (list string))) :=
  match trips with
  | O => []
  | S trips' =>
      MapSection fs file_path (section_start_positions !!! i)
        (section_start_positions !!! S i) (Some map_func) (map_results !!! i)
      :: spawn_mappers fs file_path section_start_positions trips' (S i) map_results
  end.

(** Joining the mappers: every worker that returned has filled its slot; a
    worker that threw takes the process down. *)
Fixpoint join_mappers (workers : list (option (result (list string))))
    : option (result (list (list string))) :=
  match workers with
  | [] => Some (Ok [])
  | None :: _ => None
  | Some (Throw e) :: _ => Some (Throw e)
  | Some (Ok slot) :: workers' =>
      match join_mappers workers' with
      | Some (Ok slots) => Some (Ok (slot :: slots))
      | other => other
      end
  end.

(** The second loop of [main]: reducer [i] runs [ReduceContainer] on bucket
    [i] and writes [output_<i>.txt]. *)
Fixpoint spawn_reducers (shuffle_results : list (list string)) (trips : nat)
    (i : Z) (fs : FileSystem) : list (string * result unit) * FileSystem :=
  match trips with
  | O => ([], fs)
  | S trips' =>
      let name := output_file_name i in
      let '(r, fs) :=
        ReduceContainer (shuffle_results !!! Z.to_nat i) (Some reduce_func) name fs in
      let '(rs, fs) := spawn_reducers shuffle_results trips' (i + 1) fs in
      ((name, r) :: rs, fs)
  end.

(** The exception of the first reducer that threw, if any. *)
Fixpoint first_thrown (rs : list (string * result unit)) : option exception :=
  match rs with
  | [] => None
  | (_, Throw e) :: _ => Some e
  | (_, Ok _) :: rs' => first_thrown rs'
  end.

(** The artifacts whose reducer returned normally. *)
Fixpoint written_by (rs : list (string * result unit)) : list string :=
  match rs with
  | [] => []
  | (name, Ok _) :: rs' => name :: written_by rs'
  | (_, Throw _) :: rs' => written_by rs'
  end.

(** What a run of the [try] block leaves behind.  When a reducer threw,
    [disk] and [written] hold what the reducers that returned have written;
    [std::terminate] may end the process before all of them have. *)
Record TryBlock : Type := mkTry {
  final : Final;
  disk : FileSystem;
  mappers_spawned : nat;
  reducers_spawned : nat;
  written : list string
}.

(** The body of the [try] block of [main]. *)
Definition pipeline (fs : FileSystem) (file_path : string) (mnum rnum : Z)
    : TryBlock :=
  match SplitFileIntoSections fs file_path mnum with
  | Throw e => mkTry (Failed Sectioning e) fs 0 0 []
  | Ok section_start_positions =>
      let map_results := replicate (Z.to_nat mnum) [] in
      let workers :=
        spawn_mappers fs file_path section_start_positions (Z.to_nat mnum) 0
          map_results in
      match join_mappers workers with
      | None => mkTry OutOfFuel fs (Z.to_nat mnum) 0 []
      | Some (Throw e) => mkTry (Failed Mapping e) fs (Z.to_nat mnum) 0 []
      | Some (Ok map_results) =>
          match Shuffle map_results rnum with
          | Throw e => mkTry (Failed Shuffling e) fs (Z.to_nat mnum) 0 []
          | Ok shuffle_results =>
              let '(rs, fs') :=
                spawn_reducers shuffle_results (Z.to_nat rnum) 0 fs in
              match first_thrown rs with
              | Some e =>
                  mkTry (Failed Reducing e) fs' (Z.to_nat mnum) (Z.to_nat rnum)
                    (written_by rs)
              | None =>
                  mkTry Done fs' (Z.to_nat mnum) (Z.to_nat rnum) (written_by rs)
              end
          end
      end
  end.

(** How the process ends: [main] returns a status, or [std::terminate]
    aborts it, or (in the model only) a loop runs out of fuel. *)
Inductive Outcome : Type :=
  | Exited (status : Z)
  | Aborted
  | Diverged.

(** What the process leaves on standard error: the text that [main] has
    printed, or, when [std::terminate] ended the process, the report of the
    terminate handler of the C++ runtime.  [thrown] is the exception of the
    first worker, in spawn order, that throws.  When that worker is the only
    one to throw, the handler of libstdc++ writes the two lines
    [terminate called after throwing an instance of '<class>'] and
    [  what():  <description>].  When several workers throw, each of them
    that gets there before [abort] ends the process writes its report, all
    but one of them the line [terminate called recursively], interleaved as
    the race has it: the text is then not determined by the program. *)
Inductive Stderr : Type :=
  | Printed (text : string)
  | Terminate_report (thrown : exception).

Record Process : Type := mkProcess {
  outcome : Outcome;
  cout : string;
  cerr : Stderr;
  try_block : option TryBlock       (* [None]: the block was not entered *)
}.

Definition endl : string := String newline EmptyString.

(** [main(argc, argv)], with [argc] the length of [argv].  An exception of
    sectioning or shuffling reaches the [catch] clause; one thrown by the
    function of a worker thread does not, and [std::terminate] is called. *)
Definition main (argv : list string) (fs : FileSystem) : Process :=
  if bool_decide (length argv ≠ 4%nat) then
    mkProcess (Exited (-1))
      ("Usage: " +:+ (argv !!! 0%nat) +:+ " <src> <mnum> <runm>" +:+ endl)
      (Printed EmptyString) None
  else
    let file_path := argv !!! 1%nat in
    let mnum := atoi (argv !!! 2%nat) in
    let rnum := atoi (argv !!! 3%nat) in
    let t := pipeline fs file_path mnum rnum in
    match final t with
    | Done => mkProcess (Exited 0) EmptyString (Printed EmptyString) (Some t)
    | Failed Sectioning e | Failed Shuffling e =>
        mkProcess (Exited 0) EmptyString (Printed (what e +:+ endl)) (Some t)
    | Failed Mapping e | Failed Reducing e =>
        mkProcess Aborted EmptyString (Terminate_report e) (Some t)
    | OutOfFuel =>
        mkProcess Diverged EmptyString (Printed EmptyString) (Some t)
    end.

(** ** The mapping phase with interleaved workers

    Between two iterations of its loop a mapper thread is in one of the
    states below.  A step of worker [i] reads and writes [map_results[i]]
    only, the slot it was handed by reference. *)

Inductive mapper : Type :=
  | Spawned                                          (* not yet in MapSection *)
  | Reading (f : MapFunction) (input_file : ifstream)  (* at the loop head *)
  | Returned
  | Thrown (e : exception).

Definition mapper_step (fs : FileSystem) (input_file_path : string)
    (start_pos end_pos : Z) (map_func : option MapFunction)
    (w : mapper) (output_list : list string) : mapper * list string :=
  match w with
  | Spawned =>
      match map_func with
      | None => (Thrown (invalid_argument "Invalid argument"), output_list)
      | Some f =>
          if String.eqb input_file_path EmptyString then
            (Thrown (invalid_argument "Invalid argument"), output_list)
          else
            match open_ifstream fs input_file_path with
            | None => (Thrown (runtime_error "Can't open file"), output_list)
            | Some input_file => (Reading f (seekg start_pos input_file), output_list)
            end
      end
  | Reading f input_file =>
      let '(p, input_file) := tellg input_file in
      if p <? end_pos then
        let '(line, input_file) := getline input_file in
        if negb (failbit input_file) then
          (Reading f input_file, output_list ++ f line)
        else (Returned, output_list)
      else (Returned, output_list)
  | Returned => (Returned, output_list)
  | Thrown e => (Thrown e, output_list)
  end.

(** The threads of the mapping phase and the vector they share. *)
Record MapPool : Type := mkPool {
  threads : list mapper;
  map_results : list (list string)
}.

(** The scheduler lets worker [i] take one step. *)
Definition pool_step (fs : FileSystem) (file_path : string)
    (section_start_positions : list Z) (pool : MapPool) (i : nat) : MapPool :=
  match threads pool !! i, map_results pool !! i with
  | Some w, Some output_list =>
      let '(w, output_list) :=
        mapper_step fs file_path (section_start_positions !!! i)
          (section_start_positions !!! S i) (Some map_func) w output_list in
      mkPool (<[i := w]> (threads pool)) (<[i := output_list]> (map_results pool))
  | _, _ => pool
  end.

(** A schedule names the worker that steps next. *)
Definition run_mappers (fs : FileSystem) (file_path : string)
    (section_start_positions : list Z) (mnum : Z) (schedule : list nat) : MapPool :=
  fold_left (pool_step fs file_path section_start_positions) schedule
    (mkPool (replicate (Z.to_nat mnum) Spawned) (replicate (Z.to_nat mnum) [])).

(** The barrier: the joins return once no thread is still running. *)
Definition finished (w : mapper) : bool :=
  match w with
  | Returned | Thrown _ => true
  | Spawned | Reading _ _ => false
  end.

Fixpoint thrown_by (ws : list mapper) : option exception :=
  match ws with
  | [] => None
  | Thrown e :: _ => Some e
  | _ :: ws' => thrown_by ws'
  end.

(** What a run shows of the first three stages. *)
Inductive Observed : Type :=
  | NoSections (e : exception)
  | MapperThrew (section_start_positions : list Z) (e : exception)
  | Shuffled (section_start_positions : list Z)
      (shuffle_results : result (list (list string))).

(** Sectioning, mapping under [schedule] and shuffling; [None] when the
    schedule ends while a mapper is still running, so that the barrier is
    not yet passed. *)
Definition run_stages (fs : FileSystem) (file_path : string) (mnum rnum : Z)
    (schedule : list nat) : option Observed :=
  match SplitFileIntoSections fs file_path mnum with
  | Throw e => Some (NoSections e)
  | Ok section_start_positions =>
      let pool := run_mappers fs file_path section_start_positions mnum schedule in
      if forallb finished (threads pool) then
        match thrown_by (threads pool) with
        | Some e => Some (MapperThrew section_start_positions e)
        | None =>
            Some (Shuffled section_start_positions (Shuffle (map_results pool) rnum))
        end
      else None
  end.

(** ** Vocabulary of the statements *)

(** The order of the keys of [grouped_results]. *)
Definition key_lt (a b : string) : Prop := String.compare a b = Lt.

(** The map built from the items [xs]: ascending keys, one per distinct
    item, each holding the occurrences of its key in emission order. *)
Definition groups_of (xs : list string) (m : StdMap) : Prop :=
  StronglySorted key_lt m.*1
  ∧ (∀ x, x ∈ m.*1 ↔ x ∈ xs)
  ∧ Forall (λ e, e.2 = filter (λ x, x = e.1) xs) m.

(** The occurrences of [key] among [items], in emission order. *)
Definition occurrences (key : string) (items : list string) : list string :=
  filter (λ x, x = key) items.

(** Bucket [j] as the round-robin rule describes it: going through [keys]
    with a counter that starts at [counter] and advances once per key, the
    bucket receives all occurrences of the keys met while the counter
    modulo [r] is [j]. *)
Fixpoint round_robin (r j counter : Z) (keys items : list string) : list string :=
  match keys with
  | [] => []
  | key :: keys' =>
      (if bool_decide (counter `mod` r = j) then occurrences key items else [])
      ++ round_robin r j (counter + 1) keys' items
  end.

(** The number of distinct values among [items]. *)
Definition distinct (items : list string) : nat := length (remove_dups items).

(** A line holds no newline. *)
Definition no_newline (line : string) : Prop :=
  newline ∉ list_ascii_of_string line.

(** The lines of a text: its maximal newline-free pieces, the newlines
    ending them left out; bytes after the last newline form a last line. *)
Fixpoint split_lines (cs : list ascii) : list (list ascii) :=
  match cs with
  | [] => []
  | c :: cs' =>
      if Ascii.eqb c newline then [] :: split_lines cs'
      else match split_lines cs' with
           | [] => [[c]]
           | line :: lines => (c :: line) :: lines
           end
  end.

Definition text_lines (cs : list ascii) : list string :=
  string_of_list_ascii <$> split_lines cs.

(** A newline-delimited file: every line, the last one too, ends with a
    newline. *)
Definition newline_delimited (cs : list ascii) : Prop :=
  cs = [] ∨ last cs = Some newline.

(** The byte offset at which line [k] of the file with the lines [ls]
    starts. *)
Definition line_start (ls : list string) (k : nat) : Z :=
  Z.of_nat (length (write_lines (take k ls))).

(** The index of the line that holds byte [t]. *)
Fixpoint line_at (ls : list string) (t : Z) : nat :=
  match ls with
  | [] => O
  | l :: ls' =>
      let n := Z.of_nat (String.length l) + 1 in
      if t <? n then O else S (line_at ls' (t - n))
  end.

(** The bytes not yet read. *)
Definition remaining (s : ifstream) : nat :=
  length (drop (Z.to_nat (gpos s)) (buf s)).

(** The number of the line at which section [j] of [n] starts, in the file
    with the lines [ls]. *)
Definition boundary_line (ls : list string) (n : Z) (j : nat) : nat :=
  if decide (j = 0%nat) then 0%nat
  else if decide (n ≤ Z.of_nat j) then length ls
  else S (line_at ls (Z.of_nat (length (write_lines ls)) ÷ n * Z.of_nat j)).

(** Where [getline], started at offset [t], stops behind a newline. *)
Definition after_newline (cs : list ascii) (t : Z) : Z :=
  t + Z.of_nat (length (extract_line (drop (Z.to_nat t) cs)).1) + 1.

(** Worker [i] on its own: one step on its state and its slot. *)
Definition solo (fs : FileSystem) (file_path : string) (positions : list Z)
    (i : nat) (x : mapper * list string) : mapper * list string :=
  mapper_step fs file_path (positions !!! i) (positions !!! S i)
    (Some map_func) x.1 x.2.

(** What worker [i] sees of a schedule: its own steps. *)
Definition view (fs : FileSystem) (file_path : string) (positions : list Z)
    (i : nat) (schedule : list nat) (x : mapper * list string)
    : mapper * list string :=
  fold_left (λ x j, if decide (j = i) then solo fs file_path positions i x else x)
    schedule x.

(** The end of a mapper, and its slot, as [MapSection] determines them. *)
Definition mapper_end (r : option (result (list string))) : mapper :=
  match r with
  | Some (Ok _) => Returned
  | Some (Throw e) => Thrown e
  | None => Spawned
  end.

Definition mapper_slot (r : option (result (list string))) : list string :=
  match r with
  | Some (Ok out) => out
  | _ => []
  end.

(** The boundary that one trip of the loop of [SplitFileIntoSections]
    records for target offset [t] on a stream that has not failed: behind
    the next newline, or -1 when there is none. *)
Definition boundary_of (cs : list ascii) (t : Z) : Z :=
  if decide (newline ∈ drop (Z.to_nat t) cs) then after_newline cs t else -1.

(** The keys in ascending order, equal keys allowed. *)
Definition key_le (a b : string) : Prop := String.compare a b ≠ Gt.

(** The offset [section_size * j] that the loop of [SplitFileIntoSections]
    seeks to in trip [j], for the file [cs] and [n] sections. *)
Definition target (cs : list ascii) (n : Z) (j : nat) : Z :=
  Z.of_nat (length cs) ÷ n * Z.of_nat j.

(** A newline is found at or after the target offset of boundary [j]. *)
Definition found (cs : list ascii) (n : Z) (j : nat) : Prop :=
  newline ∈ drop (Z.to_nat (target cs n j)) cs.

(** The offset at which section [j] of [n] starts when its boundary is an
    offset of the file: 0, behind the newline found, or the file size. *)
Definition section_start (cs : list ascii) (n : Z) (j : nat) : nat :=
  if decide (j = 0%nat) then 0%nat
  else if decide (n ≤ Z.of_nat j) then length cs
  else Z.to_nat (after_newline cs (target cs n j)).

(** ** Test runs *)

Definition bytes (s : string) : list ascii := list_ascii_of_string s.

Definition fs_with (path content : string) : FileSystem :=
  mkFS {[ path := bytes content ]} (λ _, true).

(** The lines a, b, a, c of the scenario of the specification. *)
Definition abac : string :=
  "a" +:+ endl +:+ "b" +:+ endl +:+ "a" +:+ endl +:+ "c" +:+ endl.

(** Two lines and a third that no newline ends. *)
Definition open_ended : string :=
  "a" +:+ endl +:+ "b" +:+ endl +:+ "cdefgh".

(** The same input on a read-only disk that holds another file too. *)
Definition fs_read_only : FileSystem :=
  mkFS (<["in" := bytes abac]> {["other" := bytes "x"]}) (λ _, false).

(** * Facts about the grouping map *)

Module KeyOrder.

Lemma refl a : String.compare a a = Eq.
Proof. by apply OrderedTypeEx.String_as_OT.cmp_eq. Qed.

Lemma irrefl a : ¬ key_lt a a.
Proof. unfold key_lt. by rewrite refl. Qed.

Lemma trans a b c : key_lt a b → key_lt b c → key_lt a c.
Proof.
  unfold key_lt. intros H1 H2.
  apply OrderedTypeEx.String_as_OT.cmp_lt.
  eapply OrderedTypeEx.String_as_OT.lt_trans;
    apply OrderedTypeEx.String_as_OT.cmp_lt; eassumption.
Qed.

Lemma gt_lt a b : String.compare a b = Gt → key_lt b a.
Proof.
  unfold key_lt. rewrite (String.compare_antisym a b).
  by destruct (String.compare b a).
Qed.

Lemma asym a b : key_lt a b → key_lt b a → a = b.
Proof. intros H1 H2. destruct (irrefl a). by eapply trans. Qed.

Lemma sorted_NoDup keys : StronglySorted key_lt keys → NoDup keys.
Proof.
  induction 1 as [|k keys _ IH Hk]; constructor; [|done].
  intros Hin. rewrite Forall_forall in Hk. by apply (irrefl k), Hk.
Qed.

(** An ascending list is determined by its elements. *)
Lemma sorted_unique keys1 keys2 :
  StronglySorted key_lt keys1 → StronglySorted key_lt keys2 →
  (∀ k, k ∈ keys1 ↔ k ∈ keys2) → keys1 = keys2.
Proof.
  intros H1 H2 Hiff.
  apply (StronglySorted_unique_strong key_lt); [|done..|].
  - intros ????. apply asym.
  - apply NoDup_Permutation; auto using sorted_NoDup.
Qed.

End KeyOrder.

Section Grouping.

Implicit Types (m : StdMap) (k v : string) (xs : list string).

Lemma push_back_at_keys k v m x :
  x ∈ (push_back_at k v m).*1 ↔ x = k ∨ x ∈ m.*1.
Proof.
  induction m as [|[k0 l] m IH]; simpl.
  - set_solver.
  - destruct (String.compare k k0) eqn:E; simpl.
    + apply String.compare_eq_iff in E as ->. set_solver.
    + set_solver.
    + rewrite !elem_of_cons, IH. tauto.
Qed.

Lemma push_back_at_sorted k v m :
  StronglySorted key_lt m.*1 → StronglySorted key_lt (push_back_at k v m).*1.
Proof.
  induction m as [|[k0 l] m IH]; simpl; intros Hs.
  - repeat constructor.
  - apply StronglySorted_inv in Hs as [Hs Hk0].
    destruct (String.compare k k0) eqn:E; simpl.
    + by constructor.
    + constructor; [by constructor|].
      constructor; [done|].
      eapply Forall_impl; [exact Hk0|].
      intros y Hy. by eapply KeyOrder.trans.
    + constructor; [auto|].
      apply Forall_forall. intros y [->|Hy]%push_back_at_keys.
      * by apply KeyOrder.gt_lt.
      * rewrite Forall_forall in Hk0. auto.
Qed.

(** [push_back_at] either extends the entry of [k] in place or puts a
    new entry where the order wants it. *)
Lemma push_back_at_split k v m :
  StronglySorted key_lt m.*1 →
  ((k ∉ m.*1) ∧ ∃ m1 m2, m = m1 ++ m2 ∧ push_back_at k v m = m1 ++ ((k, [v]) :: m2))
  ∨ (∃ m1 l m2, m = m1 ++ (k, l) :: m2 ∧
                push_back_at k v m = m1 ++ ((k, l ++ [v]) :: m2)).
Proof.
  induction m as [|[k0 l] m IH]; simpl; intros Hs.
  - left. split; [set_solver|]. by exists [], [].
  - apply StronglySorted_inv in Hs as [Hs Hk0]. rewrite Forall_forall in Hk0.
    destruct (String.compare k k0) eqn:E.
    + apply String.compare_eq_iff in E as ->. right. by exists [], l, m.
    + left. split; [|by exists [], ((k0, l) :: m)].
      intros [->|Hin]%elem_of_cons.
      * by apply (KeyOrder.irrefl k0).
      * apply (KeyOrder.irrefl k). eapply KeyOrder.trans; [exact E|auto].
    + assert (k ≠ k0) by (intros ->; by rewrite KeyOrder.refl in E).
      destruct (IH Hs) as [[Hnotin (m1 & m2 & -> & ->)]|(m1 & l' & m2 & -> & ->)].
      * left. split; [set_solver|]. by exists ((k0, l) :: m1), m2.
      * right. by exists ((k0, l) :: m1), l', m2.
Qed.

Lemma groups_of_nil : groups_of [] [].
Proof. split_and!; [constructor|set_solver|constructor]. Qed.

Lemma filter_other k x xs :
  x ≠ k → filter (λ y, y = x) (xs ++ [k]) = filter (λ y, y = x) xs.
Proof.
  intros. rewrite filter_app, filter_cons_False, filter_nil by done.
  apply app_nil_r.
Qed.

Lemma filter_same k xs :
  filter (λ y, y = k) (xs ++ [k]) = filter (λ y, y = k) xs ++ [k].
Proof. by rewrite filter_app, filter_cons_True, filter_nil. Qed.

Lemma filter_absent k xs : k ∉ xs → filter (λ y, y = k) xs = [].
Proof.
  induction xs as [|x xs IH]; [done|].
  intros Hk. rewrite filter_cons_False by set_solver. apply IH. set_solver.
Qed.

Lemma groups_of_push_back k xs m :
  groups_of xs m → groups_of (xs ++ [k]) (push_back_at k k m).
Proof.
  intros (Hs & Hdom & Hv). split_and!.
  - by apply push_back_at_sorted.
  - intros x. rewrite push_back_at_keys, elem_of_app, Hdom. set_solver.
  - pose proof (KeyOrder.sorted_NoDup _ Hs) as Hnd.
    assert (Hkeep : ∀ m', Forall (λ e, e.2 = filter (λ x, x = e.1) xs) m' →
              k ∉ m'.*1 →
              Forall (λ e, e.2 = filter (λ x, x = e.1) (xs ++ [k])) m').
    { intros m' Hm' Hk. apply Forall_forall. intros e He.
      rewrite filter_other.
      - rewrite Forall_forall in Hm'. by apply Hm'.
      - intros Heq. apply Hk. rewrite <- Heq. by apply list_elem_of_fmap_2. }
    destruct (push_back_at_split k k m Hs)
      as [[Hnotin (m1 & m2 & -> & ->)]|(m1 & l & m2 & -> & ->)].
    + rewrite fmap_app in Hnotin. apply Forall_app in Hv as [Hv1 Hv2].
      apply Forall_app. split; [apply Hkeep; set_solver|].
      constructor; [|apply Hkeep; set_solver].
      simpl. rewrite filter_same, filter_absent; [done|].
      intros Hin. apply Hdom in Hin. by rewrite fmap_app in Hin.
    + rewrite fmap_app, fmap_cons in Hnd. simpl in Hnd.
      apply NoDup_app in Hnd as (_ & Hdisj & [Hk2 _]%NoDup_cons).
      apply Forall_app in Hv as [Hv1 [Hl Hv2]%Forall_cons]. simpl in Hl.
      apply Forall_app. split.
      * apply Hkeep; [done|]. intros Hin. apply (Hdisj _ Hin). by left.
      * constructor; [|by apply Hkeep].
        simpl. by rewrite filter_same, Hl.
Qed.

Lemma group_items_foldl m xs ys :
  groups_of xs m → groups_of (xs ++ ys) (group_items m ys).
Proof.
  unfold group_items. revert m xs.
  induction ys as [|y ys IH]; intros m xs Hm; simpl.
  - by rewrite app_nil_r.
  - rewrite (assoc_L (++) xs [y] ys : xs ++ y :: ys = (xs ++ [y]) ++ ys).
    by apply IH, groups_of_push_back.
Qed.

Lemma group_results_foldl m xs mo :
  groups_of xs m → groups_of (xs ++ concat mo) (fold_left group_items mo m).
Proof.
  revert m xs. induction mo as [|l mo IH]; intros m xs Hm; simpl.
  - by rewrite app_nil_r.
  - rewrite (assoc_L (++)). by apply IH, group_items_foldl.
Qed.

Lemma group_results_spec mo : groups_of (concat mo) (group_results mo).
Proof. apply (group_results_foldl [] []), groups_of_nil. Qed.

(** The values of the map, in iteration order, in terms of its keys. *)
Lemma groups_of_values xs m :
  groups_of xs m → m.*2 = (λ k, filter (λ x, x = k) xs) <$> m.*1.
Proof.
  intros (_ & _ & Hv). induction Hv as [|[k l] m Hl _ IH]; [done|].
  rewrite !fmap_cons, IH. simpl in *. by rewrite Hl.
Qed.

End Grouping.

(** * Facts about the distribution to the reducers *)

Section Distribution.

Implicit Types (r i j : Z) (gs bs : list (list string)) (keys items : list string).

Lemma Shuffle_inv mo r bs :
  Shuffle mo r = Ok bs →
  mo ≠ [] ∧ 0 < r ∧
  bs = distribute r (group_results mo).*2 0 (replicate (Z.to_nat r) []).
Proof.
  unfold Shuffle. case_bool_decide as Hmo; simpl; [done|].
  destruct (Z.leb_spec r 0); [done|]. by intros [= <-].
Qed.

Lemma distribute_length r gs i bs : length (distribute r gs i bs) = length bs.
Proof.
  revert i bs. induction gs as [|g gs IH]; intros i bs; simpl; [done|].
  by rewrite IH, length_alter.
Qed.

Lemma counter_rem r i : 0 < r → 0 ≤ i → Z.rem i r = i `mod` r ∧ 0 ≤ i `mod` r < r.
Proof.
  intros. split; [apply Z.rem_mod_nonneg; lia|apply Z.mod_pos_bound; lia].
Qed.

(** The loop of [Shuffle] deals the groups as [round_robin] says. *)
Lemma distribute_round_robin r keys items i bs j :
  0 < r → 0 ≤ i → 0 ≤ j < r →
  distribute r ((λ k, occurrences k items) <$> keys) i bs !! Z.to_nat j
  = (λ b, b ++ round_robin r j i keys items) <$> bs !! Z.to_nat j.
Proof.
  intros Hr Hi Hj. revert i bs Hi.
  induction keys as [|k keys IH]; intros i bs Hi; simpl.
  - destruct (bs !! Z.to_nat j); simpl; [|done]. by rewrite app_nil_r.
  - rewrite IH by lia. destruct (counter_rem r i Hr Hi) as [-> Hb].
    case_bool_decide as Hij.
    + rewrite Hij, list_lookup_alter_eq.
      destruct (bs !! Z.to_nat j); simpl; [|done]. by rewrite (assoc_L (++)).
    + rewrite list_lookup_alter_ne by lia. done.
Qed.

Lemma alter_concat (g : list string) n bs :
  (n < length bs)%nat → concat (alter (λ b, b ++ g) n bs) ≡ₚ concat bs ++ g.
Proof.
  revert n. induction bs as [|b bs IH]; intros [|n] Hn; simpl in *; try lia.
  - rewrite <- !(assoc_L (++)). f_equiv. apply Permutation_app_comm.
  - change (list_alter ?f n bs) with (alter f n bs).
    rewrite IH by lia. by rewrite (assoc_L (++)).
Qed.

Lemma concat_replicate_nil (n : nat) : concat (replicate n ([] : list string)) = [].
Proof. induction n; simpl; auto. Qed.

Lemma length_concat_sum (ls : list (list string)) :
  length (concat ls) = sum_list (length <$> ls).
Proof. induction ls as [|l ls IH]; csimpl; [done|]. by rewrite length_app, IH. Qed.

Lemma distribute_concat r gs i bs :
  0 < r → 0 ≤ i → length bs = Z.to_nat r →
  concat (distribute r gs i bs) ≡ₚ concat bs ++ concat gs.
Proof.
  intros Hr. revert i bs. induction gs as [|g gs IH]; intros i bs Hi Hlen; simpl.
  - by rewrite app_nil_r.
  - destruct (counter_rem r i Hr Hi) as [Hrem Hb].
    rewrite IH by (rewrite ?length_alter; lia).
    rewrite alter_concat by (rewrite Hrem; lia).
    by rewrite (assoc_L (++)).
Qed.

Lemma push_back_at_concat k v (m : StdMap) :
  concat (push_back_at k v m).*2 ≡ₚ v :: concat m.*2.
Proof.
  induction m as [|[k0 l] m IH]; simpl; [done|].
  destruct (String.compare k k0); csimpl.
  - rewrite <- (assoc_L (++)). symmetry. apply Permutation_middle.
  - done.
  - rewrite IH. symmetry. apply Permutation_middle.
Qed.

Lemma group_items_concat (m : StdMap) items :
  concat (group_items m items).*2 ≡ₚ concat m.*2 ++ items.
Proof.
  unfold group_items. revert m.
  induction items as [|x items IH]; intros m; simpl.
  - by rewrite app_nil_r.
  - rewrite IH, push_back_at_concat. by rewrite <- Permutation_middle.
Qed.

Lemma group_results_concat mo : concat (group_results mo).*2 ≡ₚ concat mo.
Proof.
  unfold group_results.
  enough (∀ m : StdMap, concat (fold_left group_items mo m).*2
                        ≡ₚ concat m.*2 ++ concat mo) as H by apply (H []).
  induction mo as [|l mo IH]; intros m; simpl.
  - by rewrite app_nil_r.
  - rewrite IH, group_items_concat. by rewrite (assoc_L (++)).
Qed.

(** Only the concatenation of the mapper outputs matters to the grouping. *)
Lemma group_results_flat mo : group_results mo = group_items [] (concat mo).
Proof.
  unfold group_results.
  enough (∀ m, fold_left group_items mo m = group_items m (concat mo)) as H
    by apply H.
  induction mo as [|l mo IH]; intros m; simpl; [done|].
  rewrite IH. unfold group_items. by rewrite fold_left_app.
Qed.

(** An item of a bucket is a key met while the counter pointed there. *)
Lemma round_robin_elem r j i keys items x :
  x ∈ round_robin r j i keys items →
  ∃ n : nat, keys !! n = Some x ∧ (i + Z.of_nat n) `mod` r = j.
Proof.
  revert i. induction keys as [|k keys IH]; intros i; simpl; [set_solver|].
  intros [Hx|Hx]%elem_of_app.
  - case_bool_decide; [|set_solver].
    apply list_elem_of_filter in Hx as [-> _].
    exists 0%nat. split; [done|]. by rewrite Z.add_0_r.
  - apply IH in Hx as (n & Hn & Hmod). exists (S n). split; [done|].
    by replace (i + Z.of_nat (S n)) with (i + 1 + Z.of_nat n) by lia.
Qed.

End Distribution.

(** * Shuffle *)

(** The buckets of a successful [Shuffle], in terms of the keys of the
    grouping map. *)
Lemma Shuffle_buckets mo r bs :
  Shuffle mo r = Ok bs →
  length bs = Z.to_nat r ∧
  ∀ j, 0 ≤ j < r →
    bs !! Z.to_nat j = Some (round_robin r j 0 (group_results mo).*1 (concat mo)).
Proof.
  intros (Hmo & Hr & ->)%Shuffle_inv. split.
  - by rewrite distribute_length, length_replicate.
  - intros j Hj.
    rewrite (groups_of_values _ _ (group_results_spec mo)).
    change (λ k, filter (λ x, x = k) (concat mo))
      with (λ k, occurrences k (concat mo)).
    rewrite distribute_round_robin by lia.
    rewrite lookup_replicate_2 by lia. done.
Qed.

Lemma Shuffle_flat mo r : mo ≠ [] → Shuffle mo r = Shuffle [concat mo] r.
Proof.
  intros Hmo. unfold Shuffle.
  rewrite !bool_decide_eq_false_2 by done. simpl.
  destruct (r <=? 0); [done|].
  rewrite (group_results_flat mo), (group_results_flat [_]). simpl.
  by rewrite app_nil_r.
Qed.

(** C2.  A successful [Shuffle] returns [r] buckets, and bucket [j] is what
    the round-robin rule gives: with the distinct items taken as keys in
    ascending order ([keys] is any ascending list holding exactly the
    mapped items, and there is only one), a counter that starts at 0 and
    advances once per key sends all occurrences of a key, in emission
    order, to the bucket numbered counter mod r.  In particular the mapped
    items a, b, a, c, however they are spread over the mapper outputs, are
    dealt to two reducers as a, a, c and b. *)
Theorem Shuffle_round_robin :
  (∀ mo r bs,
     Shuffle mo r = Ok bs →
     length bs = Z.to_nat r ∧
     ∀ keys,
       StronglySorted key_lt keys →
       (∀ k, k ∈ keys ↔ k ∈ concat mo) →
       ∀ j, 0 ≤ j < r →
         bs !! Z.to_nat j = Some (round_robin r j 0 keys (concat mo)))
  ∧ (∀ mo,
       mo ≠ [] → concat mo = ["a"; "b"; "a"; "c"]%string →
       Shuffle mo 2 = Ok [["a"; "a"; "c"]; ["b"]]%string).
Proof.
  split.
  - intros mo r bs Hs. destruct (Shuffle_buckets _ _ _ Hs) as [Hlen Hb].
    split; [done|]. intros keys Hsorted Hdom j Hj.
    destruct (group_results_spec mo) as (Hs' & Hdom' & _).
    rewrite (KeyOrder.sorted_unique keys (group_results mo).*1); auto.
    intros k. by rewrite Hdom, Hdom'.
  - intros mo Hmo Hflat. rewrite Shuffle_flat, Hflat by done. reflexivity.
Qed.

(** The theorem at the scenario of the specification: two mappers with the
    outputs a, b and a, c, two reducers, keys a, b, c. *)
Lemma Shuffle_round_robin_witness :
  Shuffle [["a"; "b"]; ["a"; "c"]]%string 2 = Ok [["a"; "a"; "c"]; ["b"]]%string
  ∧ [["a"; "a"; "c"]; ["b"]]%string !! Z.to_nat 1
    = Some (round_robin 2 1 0 ["a"; "b"; "c"]%string ["a"; "b"; "a"; "c"]%string).
Proof.
  split; [reflexivity|].
  refine (proj2 (proj1 Shuffle_round_robin
                   [["a"; "b"]; ["a"; "c"]]%string 2 _ eq_refl)
            ["a"; "b"; "c"]%string _ _ 1 _).
  - repeat constructor.
  - intros k. simpl. rewrite !elem_of_cons, !elem_of_nil. tauto.
  - lia.
Defined.

(** The buckets hold the mapped items with their multiplicities. *)
Lemma Shuffle_concat mo r bs : Shuffle mo r = Ok bs → concat bs ≡ₚ concat mo.
Proof.
  intros (_ & Hr & ->)%Shuffle_inv.
  rewrite distribute_concat by (rewrite ?length_replicate; lia).
  rewrite group_results_concat.
  by rewrite (concat_replicate_nil (Z.to_nat r)).
Qed.

(** C1.  A successful [Shuffle] returns [r > 0] buckets that partition
    the mapped items: the buckets together hold the items of the mapper
    outputs with their multiplicities, so that every occurrence is in one
    bucket and in one only; no item value occurs in two different buckets,
    so that all occurrences of a key are in the same bucket; and the
    bucket sizes add up to the mapper output sizes. *)
Theorem Shuffle_partition mo r bs :
  Shuffle mo r = Ok bs →
  0 < r ∧ length bs = Z.to_nat r
  ∧ concat bs ≡ₚ concat mo
  ∧ (∀ (i j : nat) b1 b2 x,
       bs !! i = Some b1 → bs !! j = Some b2 → x ∈ b1 → x ∈ b2 → i = j)
  ∧ sum_list (length <$> bs) = sum_list (length <$> mo).
Proof.
  intros Hs.
  split; [by destruct (Shuffle_inv _ _ _ Hs) as (_ & ? & _)|].
  split; [by destruct (Shuffle_buckets _ _ _ Hs)|].
  pose proof (Shuffle_concat _ _ _ Hs) as Hperm.
  split_and!; [done| |].
  - destruct (Shuffle_inv _ _ _ Hs) as (_ & Hr & _).
    destruct (Shuffle_buckets _ _ _ Hs) as [Hlen Hb].
    destruct (group_results_spec mo) as (Hsorted%KeyOrder.sorted_NoDup & _ & _).
    intros i j b1 b2 x Hi Hj Hx1 Hx2.
    pose proof (lookup_lt_Some _ _ _ Hi). pose proof (lookup_lt_Some _ _ _ Hj).
    rewrite <- (Nat2Z.id i), Hb in Hi by lia.
    rewrite <- (Nat2Z.id j), Hb in Hj by lia.
    injection Hi as <-. injection Hj as <-.
    apply round_robin_elem in Hx1 as (n1 & Hn1 & Hm1).
    apply round_robin_elem in Hx2 as (n2 & Hn2 & Hm2).
    pose proof (NoDup_lookup _ _ _ _ Hsorted Hn1 Hn2). subst n2. lia.
  - rewrite <- !length_concat_sum. by apply Permutation_length.
Qed.

Lemma Shuffle_partition_witness :
  Shuffle [["a"; "b"]; ["a"; "c"]]%string 2 = Ok [["a"; "a"; "c"]; ["b"]]%string
  ∧ sum_list (length <$> [["a"; "a"; "c"]; ["b"]]%string)
    = sum_list (length <$> [["a"; "b"]; ["a"; "c"]]%string).
Proof.
  split; [reflexivity|].
  exact (proj2 (proj2 (proj2 (proj2 (Shuffle_partition
                         [["a"; "b"]; ["a"; "c"]]%string 2 _ eq_refl))))).
Defined.

(** * ReduceContainer *)

Lemma ReduceContainer_empty f name fs :
  ReduceContainer [] f name fs = (Throw (invalid_argument "Invalid argument"), fs).
Proof. unfold ReduceContainer. by destruct f. Qed.

(** C9.  [ReduceContainer] throws [std::invalid_argument] exactly when the
    bucket is empty, the reduce function is unset or the output name is
    empty, and whenever it does the file system is left as it was: no file
    is created or changed. *)
Theorem ReduceContainer_invalid_argument input_list f name fs :
  ((∃ msg, (ReduceContainer input_list f name fs).1 = Throw (invalid_argument msg))
   ↔ input_list = [] ∨ f = None ∨ name = EmptyString)
  ∧ (∀ msg, (ReduceContainer input_list f name fs).1 = Throw (invalid_argument msg) →
            (ReduceContainer input_list f name fs).2 = fs).
Proof.
  unfold ReduceContainer. destruct f as [f|]; simpl.
  - case_bool_decide as Hl; simpl.
    + split; [|done]. split; [auto|]. intros _. by eexists.
    + destruct (String.eqb_spec name EmptyString) as [->|Hname]; simpl.
      * split; [|done]. split; [auto|]. intros _. by eexists.
      * destruct (writable fs name); simpl.
        -- split; [|done]. split; [by intros [? ?]|]. by intros [?|[?|?]].
        -- split; [|done]. split; [by intros [? ?]|]. by intros [?|[?|?]].
  - split; [|done]. split; [auto|]. intros _. by eexists.
Qed.

(** * The reducing phase *)

Section Reducers.

Implicit Types (bs : list (list string)) (rs : list (string * result unit)).

Lemma spawn_reducers_length bs trips i fs :
  length (spawn_reducers bs trips i fs).1 = trips.
Proof.
  revert i fs. induction trips as [|trips IH]; intros i fs; [done|]. cbn [spawn_reducers].
  destruct (ReduceContainer _ _ _ _) as [r fs1].
  specialize (IH (i + 1) fs1).
  destruct (spawn_reducers _ _ _ _) as [rs fs2]. simpl in *. by rewrite IH.
Qed.

(** The reducer of an empty bucket throws, whatever the others did. *)
Lemma spawn_reducers_empty bs trips i fs (n : nat) :
  (n < trips)%nat → bs !!! Z.to_nat (i + Z.of_nat n) = [] →
  (spawn_reducers bs trips i fs).1 !! n
  = Some (output_file_name (i + Z.of_nat n),
          Throw (invalid_argument "Invalid argument")).
Proof.
  revert i fs n. induction trips as [|trips IH]; intros i fs n Hn Hb; [lia|].
  cbn [spawn_reducers]. destruct n as [|n].
  - rewrite Z.add_0_r in Hb |- *. rewrite Hb, ReduceContainer_empty.
    by destruct (spawn_reducers _ _ _ _).
  - destruct (ReduceContainer _ _ _ _) as [r fs1].
    specialize (IH (i + 1) fs1 n).
    destruct (spawn_reducers _ _ _ _) as [rs fs2]. cbn in IH |- *.
    replace (i + Z.of_nat (S n)) with (i + 1 + Z.of_nat n) in * by lia.
    apply IH; [lia|done].
Qed.

Lemma first_thrown_lookup rs (n : nat) name e :
  rs !! n = Some (name, Throw e) → is_Some (first_thrown rs).
Proof.
  revert n. induction rs as [|[name' [[]|e']] rs IH]; intros [|n] H;
    simplify_eq/=; eauto.
Qed.

Lemma written_by_le rs : (length (written_by rs) ≤ length rs)%nat.
Proof. induction rs as [|[name [[]|e]] rs IH]; simpl; lia. Qed.

Lemma written_by_lt rs (n : nat) name e :
  rs !! n = Some (name, Throw e) → (length (written_by rs) < length rs)%nat.
Proof.
  revert n. induction rs as [|[name' [[]|e']] rs IH]; intros [|n] H;
    simplify_eq/=.
  - apply IH in H. lia.
  - pose proof (written_by_le rs). lia.
  - apply IH in H. lia.
Qed.

End Reducers.

(** * Streams *)

Section Streams.

Implicit Types (s : ifstream) (cs line : list ascii).

Lemma extract_line_spec cs :
  (newline ∉ (extract_line cs).1)
  ∧ ((extract_line cs).2 = true →
       cs = (extract_line cs).1 ++ newline :: drop (S (length (extract_line cs).1)) cs)
  ∧ ((extract_line cs).2 = false → cs = (extract_line cs).1).
Proof.
  induction cs as [|c cs IH]; simpl.
  - split_and!; [set_solver|done|done].
  - destruct (Ascii.eqb_spec c newline) as [->|Hc]; simpl.
    + split_and!; [set_solver|done|done].
    + destruct (extract_line cs) as [line found]. simpl in *.
      destruct IH as (Hnl & Ht & Hf). split_and!.
      * set_solver.
      * intros Hfound. f_equal. auto.
      * intros Hfound. f_equal. auto.
Qed.

Lemma extract_line_app line cs :
  newline ∉ line → extract_line (line ++ newline :: cs) = (line, true).
Proof.
  induction line as [|c line IH]; simpl; intros Hnl.
  - done.
  - destruct (Ascii.eqb_spec c newline) as [->|Hc]; [set_solver|].
    rewrite IH by set_solver. done.
Qed.

Lemma extract_line_length cs :
  (length (extract_line cs).1 + (if (extract_line cs).2 then 1 else 0)
   ≤ length cs)%nat.
Proof.
  induction cs as [|c cs IH]; simpl; [lia|].
  destruct (Ascii.eqb c newline); simpl; [lia|].
  destruct (extract_line cs) as [line found]. simpl in *. lia.
Qed.

Lemma tellg_not_good s : good s = false → tellg s = (-1, setfail s).
Proof. unfold tellg. by intros ->. Qed.

Lemma tellg_good s : good s = true → tellg s = (gpos s, s).
Proof. unfold tellg. by intros ->. Qed.

Lemma getline_not_good s : good s = false → getline s = (EmptyString, setfail s).
Proof. unfold getline. by intros ->. Qed.

Lemma good_setfail s : good (setfail s) = false.
Proof. unfold good. simpl. by rewrite andb_false_r. Qed.

(** A stream that is not good ends the loop at once. *)
Lemma map_loop_not_good fuel f end_pos s out :
  good s = false → map_loop (S fuel) f end_pos s out = Some out.
Proof.
  intros Hs. simpl. rewrite (tellg_not_good s Hs).
  destruct (-1 <? end_pos); [|done].
  by rewrite (getline_not_good _ (good_setfail s)).
Qed.

(** The loop of [MapSection] ends: every iteration that goes round
    consumes a newline, or is the last but one. *)
Lemma map_loop_terminates fuel f end_pos s out :
  0 ≤ gpos s → (remaining s + 2 ≤ fuel)%nat →
  is_Some (map_loop fuel f end_pos s out).
Proof.
  revert s out. induction fuel as [|fuel IH]; intros s out Hpos Hfuel; [lia|].
  destruct (good s) eqn:Hgood; [|by rewrite map_loop_not_good].
  simpl. rewrite (tellg_good s Hgood).
  destruct (gpos s <? end_pos); [|done].
  unfold getline. rewrite Hgood.
  pose proof (extract_line_length (drop (Z.to_nat (gpos s)) (buf s))) as Hlen.
  destruct (extract_line _) as [line [|]]; simpl in *.
  - apply IH; simpl; [lia|].
    unfold remaining in *. simpl. rewrite length_drop in *. lia.
  - destruct (Z.eqb_spec (Z.of_nat (length line)) 0); simpl; [done|].
    destruct fuel as [|fuel]; [lia|].
    by rewrite map_loop_not_good.
Qed.

(** More fuel does not change the result. *)
Lemma map_loop_fuel_mono fuel fuel' f end_pos s out res :
  map_loop fuel f end_pos s out = Some res → (fuel ≤ fuel')%nat →
  map_loop fuel' f end_pos s out = Some res.
Proof.
  revert fuel' s out. induction fuel as [|fuel IH]; intros fuel' s out H Hle;
    [done|].
  destruct fuel' as [|fuel']; [lia|]. simpl in *.
  destruct (tellg s) as [p s1]. destruct (p <? end_pos); [|done].
  destruct (getline s1) as [line s2]. destruct (negb (failbit s2)); [|done].
  apply IH; [done|lia].
Qed.

Lemma seekg_gpos pos s : 0 ≤ gpos s → 0 ≤ gpos (seekg pos s).
Proof.
  unfold seekg. destruct (failbit s); [done|].
  destruct (Z.ltb_spec pos 0); simpl; lia.
Qed.

Lemma seekg_buf pos s : buf (seekg pos s) = buf s.
Proof. unfold seekg. by repeat case_match. Qed.

End Streams.

(** [MapSection] returns or throws; it never runs out of fuel. *)
Lemma MapSection_terminates fs input_file_path start_pos end_pos f output_list :
  is_Some (MapSection fs input_file_path start_pos end_pos f output_list).
Proof.
  unfold MapSection. destruct f as [f|]; [|done].
  destruct (String.eqb _ _); [done|].
  unfold open_ifstream. destruct (files fs !! input_file_path) as [bytes|]; [|done].
  apply fmap_is_Some, map_loop_terminates.
  - by apply seekg_gpos.
  - unfold map_fuel, remaining. rewrite length_drop. lia.
Qed.

(** * Newline-delimited files *)

Section TextFiles.

Implicit Types (ls : list string) (l : string) (k : nat) (cs : list ascii).

Lemma length_list_ascii_of_string l :
  length (list_ascii_of_string l) = String.length l.
Proof. induction l; simpl; auto. Qed.

Lemma write_lines_app ls1 ls2 :
  write_lines (ls1 ++ ls2) = write_lines ls1 ++ write_lines ls2.
Proof. unfold write_lines. apply flat_map_app. Qed.

Lemma write_lines_cons l ls :
  write_lines (l :: ls) = list_ascii_of_string l ++ newline :: write_lines ls.
Proof. unfold write_lines. simpl. by rewrite <- (assoc_L (++)). Qed.

Lemma length_write_lines_cons l ls :
  Z.of_nat (length (write_lines (l :: ls)))
  = Z.of_nat (String.length l) + 1 + Z.of_nat (length (write_lines ls)).
Proof.
  rewrite write_lines_cons, length_app, length_list_ascii_of_string. simpl. lia.
Qed.

Lemma line_start_0 ls : line_start ls 0 = 0.
Proof. done. Qed.

Lemma line_start_cons l ls k :
  line_start (l :: ls) (S k) = Z.of_nat (String.length l) + 1 + line_start ls k.
Proof. unfold line_start. simpl. apply length_write_lines_cons. Qed.

Lemma line_start_S ls k l :
  ls !! k = Some l →
  line_start ls (S k) = line_start ls k + Z.of_nat (String.length l) + 1.
Proof.
  intros Hl. unfold line_start. rewrite (take_S_r _ _ _ Hl), write_lines_app.
  rewrite length_app, write_lines_cons, length_app, length_list_ascii_of_string.
  simpl. lia.
Qed.

Lemma line_start_length ls :
  line_start ls (length ls) = Z.of_nat (length (write_lines ls)).
Proof. unfold line_start. by rewrite firstn_all. Qed.

Lemma line_start_le ls k k' : (k ≤ k')%nat → line_start ls k ≤ line_start ls k'.
Proof.
  intros Hk. unfold line_start.
  replace (take k ls) with (take k (take k' ls))
    by (rewrite take_take; f_equal; lia).
  rewrite <- (take_drop k (take k' ls)) at 2.
  rewrite write_lines_app, length_app. lia.
Qed.

Lemma line_start_lt ls k k' :
  (k < k')%nat → (k' ≤ length ls)%nat → line_start ls k < line_start ls k'.
Proof.
  intros Hk Hk'.
  destruct (lookup_lt_is_Some_2 ls k) as [l Hl]; [lia|].
  pose proof (line_start_S _ _ _ Hl).
  pose proof (line_start_le ls (S k) k'). lia.
Qed.

Lemma line_start_lt_inv ls k k' : line_start ls k < line_start ls k' → (k < k')%nat.
Proof.
  intros H. destruct (decide (k < k')%nat); [done|].
  pose proof (line_start_le ls k' k). lia.
Qed.

Lemma line_start_nonneg ls k : 0 ≤ line_start ls k.
Proof. unfold line_start. lia. Qed.

(** The bytes from the start of line [k] on are the lines from [k] on. *)
Lemma drop_line_start ls k :
  drop (Z.to_nat (line_start ls k)) (write_lines ls) = write_lines (drop k ls).
Proof.
  unfold line_start. rewrite Nat2Z.id.
  rewrite <- (take_drop k ls) at 2.
  by rewrite write_lines_app, drop_app_length.
Qed.

Lemma line_at_spec ls t :
  0 ≤ t < Z.of_nat (length (write_lines ls)) →
  (line_at ls t < length ls)%nat
  ∧ line_start ls (line_at ls t) ≤ t < line_start ls (S (line_at ls t)).
Proof.
  revert t. induction ls as [|l ls IH]; intros t Ht; [simpl in Ht; lia|].
  rewrite length_write_lines_cons in Ht. simpl.
  destruct (Z.ltb_spec t (Z.of_nat (String.length l) + 1)).
  - rewrite line_start_cons, !line_start_0. simpl. lia.
  - destruct (IH (t - (Z.of_nat (String.length l) + 1))) as [Hk Hb]; [lia|].
    rewrite !line_start_cons. simpl. lia.
Qed.

(** From inside line [k], not before its start and not after its newline,
    the rest of the file is the rest of the line, its newline and the
    lines after it. *)
Lemma drop_inside_line ls k l t :
  ls !! k = Some l →
  line_start ls k ≤ t < line_start ls (S k) →
  drop (Z.to_nat t) (write_lines ls)
  = drop (Z.to_nat (t - line_start ls k)) (list_ascii_of_string l)
    ++ newline :: write_lines (drop (S k) ls).
Proof.
  intros Hl Ht. rewrite (line_start_S _ _ _ Hl) in Ht.
  pose proof (line_start_nonneg ls k).
  replace (Z.to_nat t)
    with (Z.to_nat (line_start ls k) + Z.to_nat (t - line_start ls k))%nat by lia.
  rewrite <- drop_drop, drop_line_start.
  rewrite (drop_S _ _ _ Hl), write_lines_cons.
  rewrite drop_app_le; [done|].
  rewrite length_list_ascii_of_string. lia.
Qed.

End TextFiles.

(** * Reading a newline-delimited file *)

Lemma length_write_lines_ge (ls : list string) :
  (length ls ≤ length (write_lines ls))%nat.
Proof.
  induction ls as [|l ls' IH]; [done|].
  rewrite write_lines_cons, length_app. simpl. lia.
Qed.

Section Reading.

Variable ls : list string.
Hypothesis lines_ok : Forall no_newline ls.

Let size : Z := Z.of_nat (length (write_lines ls)).

Implicit Types (s : ifstream) (k : nat).

(** [getline] from anywhere in line [k] yields the rest of that line and
    stops at the start of the next one, with the stream still good. *)
Lemma getline_inside_line s k l :
  good s = true → buf s = write_lines ls → ls !! k = Some l →
  line_start ls k ≤ gpos s < line_start ls (S k) →
  getline s
  = (string_of_list_ascii
       (drop (Z.to_nat (gpos s - line_start ls k)) (list_ascii_of_string l)),
     mkIfstream (buf s) (line_start ls (S k)) false false).
Proof.
  intros Hgood Hbuf Hl Hpos. unfold getline. rewrite Hgood.
  rewrite Hbuf at 1. rewrite (drop_inside_line _ _ _ _ Hl Hpos).
  rewrite extract_line_app.
  - f_equal. f_equal.
    rewrite length_drop, length_list_ascii_of_string.
    rewrite (line_start_S _ _ _ Hl) in Hpos |- *. lia.
  - intros Hin%subseteq_drop.
    by apply (proj1 (Forall_forall _ _) lines_ok l (list_elem_of_lookup_2 _ _ _ Hl)).
Qed.

Lemma getline_line_start s k l :
  good s = true → buf s = write_lines ls → ls !! k = Some l →
  gpos s = line_start ls k →
  getline s = (l, mkIfstream (buf s) (line_start ls (S k)) false false).
Proof.
  intros Hgood Hbuf Hl Hpos.
  rewrite (getline_inside_line s k l) by
    (rewrite ?(line_start_S _ _ _ Hl); auto; lia).
  rewrite Hpos, Z.sub_diag. change (Z.to_nat 0) with 0%nat.
  by rewrite drop_0, string_of_list_ascii_of_string.
Qed.

(** One trip of the loop of [SplitFileIntoSections]: from target offset [t]
    the boundary recorded is the start of the line after the one that
    holds [t]. *)
Lemma split_step s t :
  failbit s = false → buf s = write_lines ls → 0 ≤ t < size →
  let s1 := seekg t s in
  let s2 := (getline s1).2 in
  tellg s2 = (line_start ls (S (line_at ls t)), s2)
  ∧ failbit s2 = false ∧ buf s2 = write_lines ls.
Proof.
  intros Hfail Hbuf Ht.
  destruct (line_at_spec ls t Ht) as [Hk Hb].
  destruct (lookup_lt_is_Some_2 ls (line_at ls t) Hk) as [l Hl].
  assert (Hs1 : seekg t s = mkIfstream (buf s) t false false).
  { unfold seekg. rewrite Hfail. destruct (Z.ltb_spec t 0); [lia|done]. }
  simpl. rewrite Hs1.
  rewrite (getline_inside_line _ _ l) by done. simpl. done.
Qed.

Lemma split_loop_lookup ss trips (i : nat) s ps (m : nat) :
  failbit s = false → buf s = write_lines ls →
  (∀ j : nat, (i ≤ j < i + trips)%nat → 0 ≤ ss * Z.of_nat j < size) →
  (split_loop ss trips (Z.of_nat i) s ps).1 !! m
  = if decide ((i ≤ m < i + trips)%nat ∧ (m < length ps)%nat)
    then Some (line_start ls (S (line_at ls (ss * Z.of_nat m))))
    else ps !! m.
Proof.
  revert i s ps. induction trips as [|trips IH]; intros i s ps Hfail Hbuf Hin.
  - simpl. case_decide; [lia|done].
  - cbn [split_loop].
    destruct (split_step s (ss * Z.of_nat i) Hfail Hbuf) as (Htell & Hfail' & Hbuf');
      [apply Hin; lia|].
    simpl in Htell, Hfail', Hbuf'.
    destruct (getline (seekg (ss * Z.of_nat i) s)) as [line s2].
    simpl in Htell, Hfail', Hbuf'. rewrite Htell.
    replace (Z.of_nat i + 1) with (Z.of_nat (S i)) by lia.
    rewrite IH by (try done; intros; apply Hin; lia).
    rewrite length_insert, Nat2Z.id.
    destruct (decide (m = i)) as [->|Hne].
    + case_decide; [lia|].
      case_decide.
      * by rewrite list_lookup_insert_eq by lia.
      * rewrite list_insert_ge by lia. done.
    + rewrite list_lookup_insert_ne by done.
      repeat case_decide; try done; lia.
Qed.

Lemma split_loop_length ss trips i s ps :
  length (split_loop ss trips i s ps).1 = length ps.
Proof.
  revert i s ps. induction trips as [|trips IH]; intros i s ps; [done|].
  cbn [split_loop]. destruct (getline _) as [line s2].
  destruct (tellg s2) as [p s3]. by rewrite IH, length_insert.
Qed.

End Reading.

Lemma get_file_size_open (bytes : list ascii) :
  get_file_size (mkIfstream bytes 0 false false)
  = (Z.of_nat (length bytes), mkIfstream bytes 0 false false).
Proof.
  unfold get_file_size, seekg_end, seekg, tellg, good. simpl.
  destruct (Z.ltb_spec (Z.of_nat (length bytes)) 0); [lia|]. done.
Qed.

Section Sectioning.

Variable ls : list string.
Hypothesis lines_ok : Forall no_newline ls.
Hypothesis lines_some : ls ≠ [].

Let size : Z := Z.of_nat (length (write_lines ls)).

Lemma size_pos : 0 < size.
Proof using lines_some.
  pose proof (length_write_lines_ge ls). subst size.
  destruct (decide (length ls = 0%nat)) as [?%nil_length_inv|]; [done|lia].
Qed.

(** The target offsets [i * (size / n)], [i < n], lie inside the file. *)
Lemma target_in_file n j : 0 < n → 0 ≤ j < n → 0 ≤ size ÷ n * j < size.
Proof using lines_some.
  intros Hn Hj. pose proof size_pos as Hs.
  pose proof (Z.quot_pos size n ltac:(lia) Hn).
  pose proof (Z.mul_quot_le size n ltac:(lia) ltac:(lia)). nia.
Qed.

Lemma boundary_line_le n (j : nat) :
  0 < n → (boundary_line ls n j ≤ length ls)%nat.
Proof using lines_some.
  intros Hn. unfold boundary_line. repeat case_decide; try lia.
  destruct (line_at_spec ls (size ÷ n * Z.of_nat j)) as [Hk _];
    [apply target_in_file; lia|].
  subst size. lia.
Qed.

Lemma boundary_line_mono n (j : nat) :
  0 < n → (boundary_line ls n j ≤ boundary_line ls n (S j))%nat.
Proof using lines_some.
  intros Hn. pose proof (boundary_line_le n (S j) Hn) as Hle.
  pose proof (boundary_line_le n j Hn) as Hle'.
  unfold boundary_line in Hle, Hle' |- *. repeat case_decide; try lia.
  destruct (line_at_spec ls (size ÷ n * Z.of_nat j)) as [_ Hb];
    [apply target_in_file; lia|].
  destruct (line_at_spec ls (size ÷ n * Z.of_nat (S j))) as [_ Hb'];
    [apply target_in_file; lia|].
  pose proof (Z.quot_pos size n ltac:(subst size; lia) Hn).
  subst size.
  enough (line_at ls (Z.of_nat (length (write_lines ls)) ÷ n * Z.of_nat j)
          < S (line_at ls (Z.of_nat (length (write_lines ls)) ÷ n * Z.of_nat (S j))))%nat
    by lia.
  apply (line_start_lt_inv ls). nia.
Qed.

(** On a file whose lines all end with a newline, sectioning succeeds and
    boundary [j] is the start of line [boundary_line ls n j]. *)
Lemma SplitFileIntoSections_lines fs path n :
  files fs !! path = Some (write_lines ls) → path ≠ EmptyString → 0 < n →
  ∃ positions,
    SplitFileIntoSections fs path n = Ok positions
    ∧ length positions = Z.to_nat (n + 1)
    ∧ ∀ j : nat, (j ≤ Z.to_nat n)%nat →
        positions !! j = Some (line_start ls (boundary_line ls n j)).
Proof.
  intros Hfile Hpath Hn. pose proof size_pos as Hsize.
  unfold SplitFileIntoSections.
  destruct (String.eqb_spec path EmptyString) as [|_]; [done|].
  destruct (Z.leb_spec n 0) as [|_]; [lia|]. simpl.
  unfold open_ifstream. rewrite Hfile, get_file_size_open.
  fold size. destruct (Z.leb_spec size 0) as [|_]; [lia|].
  pose proof (split_loop_lookup ls lines_ok (size ÷ n) (Z.to_nat (n - 1)) 1
                (mkIfstream (write_lines ls) 0 false false)
                (<[0%nat:=0]> (replicate (Z.to_nat (n + 1)) 0))) as Hlook.
  pose proof (split_loop_length (size ÷ n) (Z.to_nat (n - 1)) 1
                (mkIfstream (write_lines ls) 0 false false)
                (<[0%nat:=0]> (replicate (Z.to_nat (n + 1)) 0))) as Hlen.
  change (Z.of_nat 1) with 1 in Hlook.
  destruct (split_loop _ _ _ _ _) as [ps s']. simpl in Hlook, Hlen.
  rewrite length_insert, length_replicate in Hlen, Hlook.
  eexists. split; [done|]. split; [by rewrite length_insert|].
  intros j Hj. unfold boundary_line.
  destruct (decide (j = Z.to_nat n)) as [->|Hjn].
  - rewrite list_lookup_insert_eq by lia.
    case_decide; [lia|]. case_decide; [|lia].
    by rewrite line_start_length.
  - rewrite list_lookup_insert_ne by done.
    rewrite Hlook; [|done|done|intros; apply target_in_file; lia].
    repeat case_decide; try lia.
    + done.
    + subst j. rewrite list_lookup_insert_eq by (rewrite length_replicate; lia).
      done.
Qed.

(** The loop of [MapSection], started at a line start and bounded by a
    later one, maps exactly the lines in between. *)
Lemma map_loop_lines f (d : nat) : ∀ (k : nat) s out fuel,
  good s = true → buf s = write_lines ls → gpos s = line_start ls k →
  (k + d ≤ length ls)%nat → (d < fuel)%nat →
  map_loop fuel f (line_start ls (k + d)) s out
  = Some (out ++ flat_map f (take d (drop k ls))).
Proof.
  induction d as [|d IH]; intros k s out fuel Hgood Hbuf Hpos Hk Hfuel;
    (destruct fuel as [|fuel]; [lia|]); simpl.
  - rewrite (tellg_good s Hgood), Hpos, Nat.add_0_r, Z.ltb_irrefl.
    by rewrite app_nil_r.
  - rewrite (tellg_good s Hgood), Hpos.
    destruct (Z.ltb_spec (line_start ls k) (line_start ls (k + S d))) as [_|Hge].
    2: { pose proof (line_start_lt ls k (k + S d)). lia. }
    destruct (lookup_lt_is_Some_2 ls k) as [l Hl]; [lia|].
    rewrite (getline_line_start ls lines_ok s k l) by done. simpl.
    replace (k + S d)%nat with (S k + d)%nat by lia.
    rewrite IH by (try done; lia).
    rewrite (drop_S _ _ _ Hl). simpl. by rewrite (assoc_L (++)).
Qed.

Lemma MapSection_lines fs path f (k k' : nat) out :
  files fs !! path = Some (write_lines ls) → path ≠ EmptyString →
  (k ≤ k')%nat → (k' ≤ length ls)%nat →
  MapSection fs path (line_start ls k) (line_start ls k') (Some f) out
  = Some (Ok (out ++ flat_map f (take (k' - k) (drop k ls)))).
Proof.
  intros Hfile Hpath Hk Hk'. unfold MapSection.
  destruct (String.eqb_spec path EmptyString) as [|_]; [done|].
  unfold open_ifstream. rewrite Hfile.
  assert (Hseek : seekg (line_start ls k) (mkIfstream (write_lines ls) 0 false false)
                  = mkIfstream (write_lines ls) (line_start ls k) false false).
  { unfold seekg. simpl. pose proof (line_start_nonneg ls k).
    destruct (Z.ltb_spec (line_start ls k) 0); [lia|done]. }
  rewrite Hseek. replace k' with (k + (k' - k))%nat at 1 by lia.
  rewrite (map_loop_lines f (k' - k) k); try done; [lia|].
  unfold map_fuel. simpl. pose proof (length_write_lines_ge ls). lia.
Qed.

End Sectioning.

(** * The lines of a text *)

Section TextLines.

Implicit Types (cs line : list ascii) (ls : list string).

Lemma split_lines_app line cs :
  newline ∉ line → split_lines (line ++ newline :: cs) = line :: split_lines cs.
Proof.
  induction line as [|c line IH]; intros Hnl; [done|].
  cbn [app split_lines].
  destruct (Ascii.eqb_spec c newline) as [->|_]; [set_solver|].
  rewrite IH by set_solver. done.
Qed.

(** Reading back what [write_lines] wrote gives the same lines. *)
Lemma text_lines_write_lines ls :
  Forall no_newline ls → text_lines (write_lines ls) = ls.
Proof.
  unfold text_lines. induction 1 as [|l ls Hl _ IH]; [done|].
  rewrite write_lines_cons, split_lines_app by done.
  rewrite fmap_cons, IH. by rewrite string_of_list_ascii_of_string.
Qed.

Lemma split_lines_nil cs : split_lines cs = [] → cs = [].
Proof.
  destruct cs as [|c cs]; [done|]. simpl.
  destruct (Ascii.eqb c newline); [done|]. by destruct (split_lines cs).
Qed.

Lemma newline_delimited_tail c cs :
  newline_delimited (c :: cs) → newline_delimited cs ∧ (cs = [] → c = newline).
Proof.
  intros [?|Hlast]; [done|]. destruct cs as [|c' cs].
  - split; [by left|]. intros _. by injection Hlast.
  - split; [by right|done].
Qed.

(** A newline-delimited text is its lines, each followed by a newline. *)
Lemma newline_delimited_lines cs :
  newline_delimited cs →
  write_lines (text_lines cs) = cs ∧ Forall no_newline (text_lines cs).
Proof.
  unfold text_lines, no_newline.
  induction cs as [|c cs IH]; intros Hcs; [by split|].
  apply newline_delimited_tail in Hcs as [Hcs Hc].
  destruct (IH Hcs) as [Hw Hnl]. cbn [split_lines].
  destruct (Ascii.eqb_spec c newline) as [->|Hne].
  - rewrite fmap_cons, write_lines_cons, Hw. split; [done|].
    constructor; [|done]. simpl. set_solver.
  - destruct (split_lines cs) as [|line lines] eqn:Hsplit.
    { apply split_lines_nil in Hsplit. tauto. }
    rewrite !fmap_cons, write_lines_cons in Hw |- *.
    rewrite list_ascii_of_string_of_list_ascii in Hw |- *.
    apply Forall_cons in Hnl as [Hline Hlines].
    rewrite list_ascii_of_string_of_list_ascii in Hline.
    split; [simpl; by rewrite Hw|].
    constructor; [|done].
    rewrite list_ascii_of_string_of_list_ascii. set_solver.
Qed.

End TextLines.

(** * The mapping phase on a newline-delimited file *)

Section MappingLines.

Variable ls : list string.
Hypothesis lines_ok : Forall no_newline ls.
Hypothesis lines_some : ls ≠ [].
Variable n : Z.
Hypothesis n_pos : 0 < n.

Let B (j : nat) : nat := boundary_line ls n j.

Lemma boundary_line_mono_add (i d : nat) : (B i ≤ B (i + d))%nat.
Proof.
  induction d as [|d IH]; [by rewrite Nat.add_0_r|].
  replace (i + S d)%nat with (S (i + d)) by lia.
  pose proof (boundary_line_mono ls lines_some n (i + d) n_pos). subst B.
  simpl in *. lia.
Qed.

(** The lines of consecutive sections, put together. *)
Lemma concat_sections (trips i : nat) :
  concat ((λ j, take (B (S j) - B j) (drop (B j) ls)) <$> seq i trips)
  = take (B (i + trips) - B i) (drop (B i) ls).
Proof.
  revert i. induction trips as [|trips IH]; intros i.
  - by rewrite Nat.add_0_r, Nat.sub_diag.
  - cbn [seq fmap list_fmap concat]. rewrite IH.
    pose proof (boundary_line_mono_add i 1) as H1.
    pose proof (boundary_line_mono_add (S i) trips) as H2.
    replace (i + 1)%nat with (S i) in H1 by lia.
    replace (drop (B (S i)) ls) with (drop (B (S i) - B i) (drop (B i) ls))
      by (rewrite drop_drop; f_equal; lia).
    rewrite take_take_drop.
    replace (i + S trips)%nat with (S i + trips)%nat by lia. f_equal. lia.
Qed.

Lemma flat_map_map_func (xs : list string) : flat_map map_func xs = xs.
Proof. induction xs as [|x xs IH]; simpl; by rewrite ?IH. Qed.

(** Every mapper returns the lines of its section. *)
Lemma mappers_lines fs path positions (trips i : nat) :
  files fs !! path = Some (write_lines ls) → path ≠ EmptyString →
  (∀ j : nat, (j ≤ Z.to_nat n)%nat →
     positions !! j = Some (line_start ls (B j))) →
  (i + trips ≤ Z.to_nat n)%nat →
  join_mappers
    (spawn_mappers fs path positions trips i (replicate (Z.to_nat n) []))
  = Some (Ok ((λ j, take (B (S j) - B j) (drop (B j) ls)) <$> seq i trips)).
Proof.
  intros Hfile Hpath Hpos. revert i.
  induction trips as [|trips IH]; intros i Hi; [done|].
  cbn [spawn_mappers join_mappers].
  rewrite (list_lookup_total_correct positions i _ (Hpos i ltac:(lia))).
  rewrite (list_lookup_total_correct positions (S i) _ (Hpos (S i) ltac:(lia))).
  rewrite (lookup_total_replicate_2 (A:=list string)) by lia.
  pose proof (boundary_line_mono_add i 1) as H1.
  replace (i + 1)%nat with (S i) in H1 by lia.
  rewrite (MapSection_lines ls lines_ok); try done.
  - rewrite IH by lia. by rewrite flat_map_map_func.
  - apply (boundary_line_le ls lines_some n (S i) n_pos).
Qed.

End MappingLines.

(** * SplitFileIntoSections and MapSection together *)

Lemma SplitFileIntoSections_inv fs path n positions :
  SplitFileIntoSections fs path n = Ok positions →
  path ≠ EmptyString ∧ 0 < n ∧ ∃ bytes, files fs !! path = Some bytes ∧ bytes ≠ [].
Proof.
  unfold SplitFileIntoSections.
  destruct (String.eqb_spec path EmptyString) as [|Hpath]; [done|].
  destruct (Z.leb_spec n 0) as [|Hn]; [done|]. simpl.
  unfold open_ifstream. destruct (files fs !! path) as [bytes|]; [|done].
  rewrite get_file_size_open.
  destruct (Z.leb_spec (Z.of_nat (length bytes)) 0) as [|Hsize]; [done|].
  intros _. split_and!; [done..|]. exists bytes. split; [done|].
  intros ->. simpl in Hsize. lia.
Qed.

Lemma join_mappers_length workers mo :
  join_mappers workers = Some (Ok mo) → length mo = length workers.
Proof.
  revert mo. induction workers as [|[[slot|e]|] workers IH]; intros mo H;
    simplify_eq/=; [done|].
  destruct (join_mappers workers) as [[slots|]|]; simplify_eq/=.
  f_equal. by apply IH.
Qed.

Lemma spawn_mappers_length fs path positions trips i slots :
  length (spawn_mappers fs path positions trips i slots) = trips.
Proof.
  revert i. induction trips as [|trips IH]; intros i; simpl; [done|].
  by rewrite IH.
Qed.

(** The mapping phase of [main] on a newline-delimited file: the outputs of
    the mappers, in section order, are the lines of the file. *)
Lemma mapping_newline_delimited fs path mnum bytes positions :
  files fs !! path = Some bytes → newline_delimited bytes →
  SplitFileIntoSections fs path mnum = Ok positions →
  ∃ mo,
    join_mappers
      (spawn_mappers fs path positions (Z.to_nat mnum) 0
         (replicate (Z.to_nat mnum) []))
    = Some (Ok mo)
    ∧ length mo = Z.to_nat mnum
    ∧ concat mo = text_lines bytes.
Proof.
  intros Hfile Hnd Hsplit.
  destruct (SplitFileIntoSections_inv _ _ _ _ Hsplit)
    as (Hpath & Hn & bytes' & Hfile' & Hne).
  assert (bytes' = bytes) as -> by congruence.
  destruct (newline_delimited_lines bytes Hnd) as [Hw Hnl].
  set (ls := text_lines bytes) in *.
  assert (Hls : ls ≠ []) by (intros Hnil; rewrite Hnil in Hw; by subst bytes).
  rewrite <- Hw in Hfile.
  destruct (SplitFileIntoSections_lines ls Hnl Hls fs path mnum Hfile Hpath Hn)
    as (positions' & Hsplit' & Hlen & Hpos).
  assert (positions' = positions) as -> by congruence.
  pose proof (mappers_lines ls Hnl Hls mnum Hn fs path positions
                (Z.to_nat mnum) 0 Hfile Hpath Hpos ltac:(lia)) as Hmap.
  eexists. split; [exact Hmap|]. split.
  - by rewrite length_fmap, length_seq.
  - rewrite (concat_sections ls Hls mnum Hn).
    unfold boundary_line at 2. simpl.
    unfold boundary_line. case_decide; [lia|]. case_decide; [|lia].
    by rewrite Nat.sub_0_r, drop_0, firstn_all.
Qed.

(** X21.  For an input file whose last byte is a newline and that
    [SplitFileIntoSections] has split into [mnum] sections, the [mnum]
    mappers of [main], each running [MapSection] with the identity map on
    its section, return [mnum] outputs whose sizes add up to the number of
    lines of the file; put one after the other the outputs are the lines
    of the file in order, so that no line is dropped and none is
    duplicated. *)
Theorem mappers_cover_lines fs path mnum bytes positions :
  files fs !! path = Some bytes → newline_delimited bytes →
  SplitFileIntoSections fs path mnum = Ok positions →
  ∃ mo,
    join_mappers
      (spawn_mappers fs path positions (Z.to_nat mnum) 0
         (replicate (Z.to_nat mnum) []))
    = Some (Ok mo)
    ∧ length mo = Z.to_nat mnum
    ∧ sum_list (length <$> mo) = length (text_lines bytes)
    ∧ concat mo = text_lines bytes.
Proof.
  intros Hfile Hnd Hsplit.
  destruct (mapping_newline_delimited _ _ _ _ _ Hfile Hnd Hsplit)
    as (mo & Hmap & Hlen & Hcat).
  exists mo. split_and!; [done..| |done].
  by rewrite <- length_concat_sum, Hcat.
Qed.

Lemma mappers_cover_lines_witness :
  ∃ mo,
    join_mappers (spawn_mappers (fs_with "in" abac) "in" [0; 6; 8] 2 0 [[]; []])
    = Some (Ok mo)
    ∧ length mo = 2%nat
    ∧ sum_list (length <$> mo) = 4%nat
    ∧ concat mo = ["a"; "b"; "a"; "c"]%string.
Proof.
  apply (mappers_cover_lines (fs_with "in" abac) "in" 2 (bytes abac) [0; 6; 8]).
  - reflexivity.
  - right. reflexivity.
  - reflexivity.
Defined.

(** * The artifacts of the reducers *)

Section Artifacts.

Implicit Types (bs : list (list string)) (i j : Z).

Lemma string_length_append (a b : string) :
  String.length (a +:+ b) = (String.length a + String.length b)%nat.
Proof. induction a; simpl; auto. Qed.

Lemma append_cancel_r (a b c : string) : a +:+ c = b +:+ c → a = b.
Proof.
  revert b. induction a as [|x a IH]; intros [|y b] H.
  - done.
  - apply (f_equal String.length) in H.
    rewrite !string_length_append in H. simpl in H. lia.
  - apply (f_equal String.length) in H.
    rewrite !string_length_append in H. simpl in H. lia.
  - injection H as -> H. f_equal. by apply IH.
Qed.

(** Different reducers write different files. *)
Lemma output_file_name_inj i j : output_file_name i = output_file_name j → i = j.
Proof.
  unfold output_file_name, to_string. intros H.
  apply (inj (String.append "output_")) in H.
  apply append_cancel_r in H. by apply (inj pretty) in H.
Qed.

Lemma ReduceContainer_Ok b name fs fs' :
  ReduceContainer b (Some reduce_func) name fs = (Ok (), fs') →
  files fs' = <[name := write_lines b]> (files fs).
Proof.
  unfold ReduceContainer, reduce_func.
  destruct (_ || _); [done|]. destruct (writable fs name); [|done].
  by intros [= <-].
Qed.

(** The reducers touch no file but their own. *)
Lemma spawn_reducers_other bs trips i fs name :
  (∀ n : nat, (n < trips)%nat → name ≠ output_file_name (i + Z.of_nat n)) →
  files (spawn_reducers bs trips i fs).2 !! name = files fs !! name.
Proof.
  revert i fs. induction trips as [|trips IH]; intros i fs Hname; [done|].
  cbn [spawn_reducers].
  destruct (ReduceContainer _ _ _ _) as [r fs1] eqn:Hr.
  specialize (IH (i + 1) fs1).
  destruct (spawn_reducers _ _ _ _) as [rs fs2]. simpl in IH |- *.
  rewrite IH.
  - pose proof (Hname 0%nat ltac:(lia)) as H0. rewrite Z.add_0_r in H0.
    revert Hr. unfold ReduceContainer.
    destruct (_ || _); [by intros [= _ <-]|].
    destruct (writable fs _); intros [= _ <-]; [|done].
    simpl. by rewrite lookup_insert_ne.
  - intros n Hn. specialize (Hname (S n) ltac:(lia)).
    by replace (i + 1 + Z.of_nat n) with (i + Z.of_nat (S n)) by lia.
Qed.

(** When no reducer throws, artifact [i + n] holds the items of bucket
    [i + n], one per line. *)
Lemma spawn_reducers_files bs trips i fs (n : nat) :
  first_thrown (spawn_reducers bs trips i fs).1 = None →
  (n < trips)%nat →
  files (spawn_reducers bs trips i fs).2 !! output_file_name (i + Z.of_nat n)
  = Some (write_lines (bs !!! Z.to_nat (i + Z.of_nat n))).
Proof.
  revert i fs n. induction trips as [|trips IH]; intros i fs n Hok Hn; [lia|].
  revert Hok. cbn [spawn_reducers].
  destruct (ReduceContainer _ _ _ _) as [r fs1] eqn:Hr.
  pose proof (spawn_reducers_other bs trips (i + 1) fs1) as Hother.
  specialize (IH (i + 1) fs1).
  destruct (spawn_reducers _ _ _ _) as [rs fs2]. simpl in IH, Hother |- *.
  destruct r as [[]|e]; [|done]. intros Hok.
  destruct n as [|n].
  - rewrite Z.add_0_r. rewrite Hother.
    + rewrite (ReduceContainer_Ok _ _ _ _ Hr). by rewrite lookup_insert_eq.
    + intros n Hn' Heq%output_file_name_inj. lia.
  - replace (i + Z.of_nat (S n)) with (i + 1 + Z.of_nat n) by lia.
    apply IH; [done|lia].
Qed.

End Artifacts.

(** * The whole pipeline *)

(** X22.  On a non-empty input file whose last byte is a newline,
    whenever the [try] block of [main] runs to its end (no stage throws,
    which needs valid mapper and reducer counts), the lines of the
    artifacts
    [output_0.txt], ..., [output_<rnum-1>.txt] found on disk are, taken
    together and with their multiplicities, the lines of the input file.
    The map and reduce functions are the identity lambdas of [main]. *)
Theorem identity_round_trip fs path mnum rnum bytes :
  files fs !! path = Some bytes → bytes ≠ [] → newline_delimited bytes →
  final (pipeline fs path mnum rnum) = Done →
  concat ((λ j, text_lines
                  (files (disk (pipeline fs path mnum rnum)) !!! output_file_name j))
            <$> seqZ 0 rnum)
  ≡ₚ text_lines bytes.
Proof.
  intros Hfile Hne Hnd. unfold pipeline.
  destruct (SplitFileIntoSections fs path mnum) as [positions|e] eqn:Hsplit;
    [|done].
  destruct (mapping_newline_delimited _ _ _ _ _ Hfile Hnd Hsplit)
    as (mo & -> & Hlen & Hcat).
  destruct (Shuffle mo rnum) as [bs|e] eqn:Hshuffle; [|done].
  pose proof (spawn_reducers_files bs (Z.to_nat rnum) 0 fs) as Hfiles.
  destruct (spawn_reducers bs (Z.to_nat rnum) 0 fs) as [rs fs'].
  simpl in Hfiles.
  destruct (first_thrown rs) as [e|] eqn:Hthrown; [done|]. intros _. simpl.
  pose proof (Shuffle_concat _ _ _ Hshuffle) as Hperm.
  destruct (Shuffle_buckets _ _ _ Hshuffle) as [Hbs _].
  destruct (newline_delimited_lines bytes Hnd) as [_ Hnl].
  rewrite <- Hcat, <- Hperm in Hnl |- *.
  enough ((λ j, text_lines (files fs' !!! output_file_name j)) <$> seqZ 0 rnum
          = bs) as -> by done.
  apply list_eq. intros n. rewrite list_lookup_fmap.
  destruct (decide (n < Z.to_nat rnum)%nat) as [Hn|Hn].
  - rewrite lookup_seqZ_lt by lia. simpl.
    destruct (lookup_lt_is_Some_2 bs n) as [b Hb]; [lia|].
    rewrite Hb. f_equal.
    specialize (Hfiles n eq_refl Hn). rewrite Z.add_0_l in Hfiles.
    rewrite (lookup_total_correct _ _ _ Hfiles), Nat2Z.id.
    rewrite (list_lookup_total_correct _ _ _ Hb).
    apply text_lines_write_lines.
    apply Forall_forall. intros x Hx.
    rewrite Forall_forall in Hnl. apply Hnl.
    apply list_elem_of_In, in_concat. exists b.
    split; apply list_elem_of_In; [by eapply list_elem_of_lookup_2|done].
  - rewrite lookup_seqZ_ge by lia. simpl.
    symmetry. apply lookup_ge_None. lia.
Qed.

Lemma identity_round_trip_witness :
  concat ((λ j, text_lines
                  (files (disk (pipeline (fs_with "in" abac) "in" 2 2))
                     !!! output_file_name j))
            <$> seqZ 0 2)
  ≡ₚ ["a"; "b"; "a"; "c"]%string.
Proof.
  apply (identity_round_trip (fs_with "in" abac) "in" 2 2 (bytes abac)).
  - reflexivity.
  - discriminate.
  - right. reflexivity.
  - reflexivity.
Defined.

(** * Empty buckets *)

Lemma round_robin_beyond r j i keys items :
  0 ≤ i → i + Z.of_nat (length keys) ≤ j < r →
  round_robin r j i keys items = [].
Proof.
  revert i. induction keys as [|k keys IH]; intros i Hi Hj; simpl in *; [done|].
  rewrite IH by lia. rewrite Z.mod_small by lia.
  case_bool_decide; [lia|done].
Qed.

(** The grouping map has one key per distinct item. *)
Lemma group_results_distinct mo :
  length (group_results mo).*1 = distinct (concat mo).
Proof.
  destruct (group_results_spec mo) as (Hsorted & Hdom & _).
  unfold distinct. apply Permutation_length, NoDup_Permutation.
  - by apply KeyOrder.sorted_NoDup.
  - apply NoDup_remove_dups.
  - intros k. by rewrite Hdom, elem_of_remove_dups.
Qed.

(** With more reducers than distinct items, the bucket numbered by the
    count of distinct items is empty. *)
Lemma Shuffle_empty_bucket mo r :
  mo ≠ [] → Z.of_nat (distinct (concat mo)) < r →
  ∃ bs, Shuffle mo r = Ok bs
        ∧ length bs = Z.to_nat r
        ∧ bs !! distinct (concat mo) = Some [].
Proof.
  intros Hmo Hr.
  destruct (Shuffle mo r) as [bs|e] eqn:Hs.
  - destruct (Shuffle_buckets _ _ _ Hs) as [Hlen Hb].
    exists bs. split_and!; [done..|].
    rewrite <- (Nat2Z.id (distinct (concat mo))), Hb by lia.
    rewrite round_robin_beyond; [done|lia|].
    rewrite group_results_distinct. lia.
  - exfalso. revert Hs. unfold Shuffle.
    rewrite bool_decide_eq_false_2 by done.
    destruct (Z.leb_spec r 0); [lia|done].
Qed.

(** [atoi] gives values of [int]; a number outside [int] wraps, one
    outside [long] is cut to [LONG_MAX] or [LONG_MIN] first. *)
Lemma atoi_int s : -2147483648 ≤ atoi s < 2147483648.
Proof.
  unfold atoi, to_int.
  pose proof (Z.mod_pos_bound (strtol s + 2147483648) 4294967296 ltac:(lia)).
  lia.
Qed.

Lemma atoi_small s :
  -2147483648 ≤ number_of s < 2147483648 → atoi s = number_of s.
Proof.
  intros H. unfold atoi, to_int, strtol, LONG_MIN, LONG_MAX.
  rewrite Z.min_r, Z.max_r by lia.
  rewrite Z.mod_small by lia. lia.
Qed.

Example atoi_wraps :
  atoi "2" = 2 ∧ atoi " -17x" = -17 ∧ atoi "two" = 0
  ∧ atoi "4294967298" = 2 ∧ atoi "-4294967295" = 1
  ∧ atoi "2147483648" = -2147483648
  ∧ atoi "99999999999999999999999" = -1
  ∧ atoi "-99999999999999999999999" = 0.
Proof. repeat split; reflexivity. Qed.

(** How [main] ends, read off the [try] block. *)
Lemma main_reducing_aborts prog path m r fs e :
  final (pipeline fs path (atoi m) (atoi r)) = Failed Reducing e →
  outcome (main [prog; path; m; r] fs) = Aborted.
Proof. unfold main. simpl. by intros ->. Qed.

(** C7.  Whenever sectioning and mapping have succeeded and the reducer
    count exceeds the number of distinct mapped items, [Shuffle] leaves a
    bucket empty, [ReduceContainer] throws [std::invalid_argument] on that
    bucket without touching the file system, the run ends in the reducing
    stage with an exception instead of reaching its end, and fewer than
    [rnum] artifacts have been written. *)
Theorem empty_bucket_fails fs path mnum rnum positions mo :
  SplitFileIntoSections fs path mnum = Ok positions →
  join_mappers
    (spawn_mappers fs path positions (Z.to_nat mnum) 0
       (replicate (Z.to_nat mnum) []))
  = Some (Ok mo) →
  Z.of_nat (distinct (concat mo)) < rnum →
  ∃ bs j,
    Shuffle mo rnum = Ok bs
    ∧ 0 ≤ j < rnum
    ∧ bs !! Z.to_nat j = Some []
    ∧ (∀ fs', ReduceContainer [] (Some reduce_func) (output_file_name j) fs'
              = (Throw (invalid_argument "Invalid argument"), fs'))
    ∧ (∃ e, final (pipeline fs path mnum rnum) = Failed Reducing e)
    ∧ (length (written (pipeline fs path mnum rnum)) < Z.to_nat rnum)%nat.
Proof.
  intros Hsplit Hmap Hr.
  destruct (SplitFileIntoSections_inv _ _ _ _ Hsplit) as (_ & Hn & _).
  assert (Hmo : mo ≠ []).
  { apply join_mappers_length in Hmap.
    rewrite spawn_mappers_length in Hmap. intros ->. simpl in Hmap. lia. }
  destruct (Shuffle_empty_bucket mo rnum Hmo Hr) as (bs & Hs & Hlen & Hb).
  set (d := distinct (concat mo)) in *.
  assert (Hfinal : (∃ e, final (pipeline fs path mnum rnum) = Failed Reducing e)
            ∧ (length (written (pipeline fs path mnum rnum)) < Z.to_nat rnum)%nat).
  { unfold pipeline. rewrite Hsplit, Hmap, Hs.
    pose proof (spawn_reducers_empty bs (Z.to_nat rnum) 0 fs d ltac:(lia)) as He.
    pose proof (spawn_reducers_length bs (Z.to_nat rnum) 0 fs) as Hrs.
    destruct (spawn_reducers bs (Z.to_nat rnum) 0 fs) as [rs fs'].
    simpl in He, Hrs.
    rewrite Z.add_0_l, Nat2Z.id in He.
    specialize (He (list_lookup_total_correct _ _ _ Hb)).
    destruct (first_thrown_lookup _ _ _ _ He) as [e Hthrown].
    pose proof (written_by_lt _ _ _ _ He).
    rewrite Hthrown. simpl. split; [by eexists|lia]. }
  destruct Hfinal as [[e Hfinal] Hwritten].
  exists bs, (Z.of_nat d).
  split; [done|]. split; [lia|]. split; [by rewrite Nat2Z.id|].
  split; [intros fs'; apply ReduceContainer_empty|].
  split; [by exists e|]. done.
Qed.

Lemma empty_bucket_fails_witness :
  ∃ bs j,
    Shuffle [["a"]]%string 2 = Ok bs
    ∧ 0 ≤ j < 2
    ∧ bs !! Z.to_nat j = Some []
    ∧ (∀ fs', ReduceContainer [] (Some reduce_func) (output_file_name j) fs'
              = (Throw (invalid_argument "Invalid argument"), fs'))
    ∧ (∃ e, final (pipeline (fs_with "in" ("a" +:+ endl)) "in" 1 2)
            = Failed Reducing e)
    ∧ (length (written (pipeline (fs_with "in" ("a" +:+ endl)) "in" 1 2))
       < Z.to_nat 2)%nat.
Proof.
  apply (empty_bucket_fails (fs_with "in" ("a" +:+ endl)) "in" 1 2 [0; 2]
           [["a"]]%string).
  - reflexivity.
  - reflexivity.
  - vm_compute. reflexivity.
Defined.

(** * Section boundaries *)

Lemma first_newline_after (cs pre tl : list ascii) (t : nat) :
  drop t cs = pre ++ newline :: tl → newline ∉ pre →
  cs !! (t + length pre)%nat = Some newline
  ∧ ∀ i : nat, (i < length pre)%nat → cs !! (t + i)%nat ≠ Some newline.
Proof.
  intros Hdrop Hpre. split.
  - rewrite <- lookup_drop, Hdrop.
    by rewrite lookup_app_r, Nat.sub_diag by lia.
  - intros i Hi. rewrite <- lookup_drop, Hdrop, lookup_app_l by done.
    intros Hin%list_elem_of_lookup_2. done.
Qed.

Section Boundaries.

Implicit Types (cs : list ascii) (s : ifstream) (t : Z).

Lemma extract_line_found cs : newline ∈ cs → (extract_line cs).2 = true.
Proof.
  intros Hin. destruct (extract_line_spec cs) as (Hnl & _ & Hnone).
  destruct (extract_line cs).2; [done|]. rewrite <- Hnone in Hnl; done.
Qed.

Lemma after_newline_spec cs t :
  0 ≤ t → newline ∈ drop (Z.to_nat t) cs →
  ∃ e : nat,
    after_newline cs t = Z.of_nat e + 1
    ∧ t ≤ Z.of_nat e
    ∧ cs !! e = Some newline
    ∧ ∀ e' : nat, t ≤ Z.of_nat e' → (e' < e)%nat → cs !! e' ≠ Some newline.
Proof.
  intros Ht Hin. unfold after_newline.
  destruct (extract_line_spec (drop (Z.to_nat t) cs)) as (Hnl & Hsome & _).
  specialize (Hsome (extract_line_found _ Hin)).
  apply first_newline_after in Hsome as [Hnew Hbefore]; [|done].
  exists (Z.to_nat t + length (extract_line (drop (Z.to_nat t) cs)).1)%nat.
  split_and!; [lia|lia|done|].
  intros e' He' Hlt.
  replace e' with (Z.to_nat t + (e' - Z.to_nat t))%nat by lia.
  apply Hbefore. lia.
Qed.

Lemma newline_after_drop cs t (e : nat) :
  0 ≤ t ≤ Z.of_nat e → cs !! e = Some newline → newline ∈ drop (Z.to_nat t) cs.
Proof.
  intros Ht He. apply list_elem_of_lookup. exists (e - Z.to_nat t)%nat.
  rewrite lookup_drop. by replace (Z.to_nat t + (e - Z.to_nat t))%nat with e by lia.
Qed.

Lemma after_newline_mono cs t t' :
  0 ≤ t ≤ t' → newline ∈ drop (Z.to_nat t') cs →
  after_newline cs t ≤ after_newline cs t'.
Proof.
  intros Ht Hin'.
  destruct (after_newline_spec cs t' ltac:(lia) Hin') as (e' & -> & Hge' & Hnew' & _).
  assert (Hin : newline ∈ drop (Z.to_nat t) cs)
    by (apply (newline_after_drop cs t e'); [lia|done]).
  destruct (after_newline_spec cs t ltac:(lia) Hin) as (e & -> & Hge & Hnew & Hfirst).
  destruct (decide (e' < e)%nat) as [Hlt|]; [|lia].
  destruct (Hfirst e' ltac:(lia) Hlt Hnew').
Qed.

(** One trip of the loop, when a newline follows the target offset. *)
Lemma split_step_bytes s t :
  failbit s = false → 0 ≤ t → newline ∈ drop (Z.to_nat t) (buf s) →
  let s2 := (getline (seekg t s)).2 in
  tellg s2 = (after_newline (buf s) t, s2)
  ∧ failbit s2 = false ∧ buf s2 = buf s.
Proof.
  intros Hfail Ht Hin.
  assert (Hs1 : seekg t s = mkIfstream (buf s) t false false).
  { unfold seekg. rewrite Hfail. destruct (Z.ltb_spec t 0); [lia|done]. }
  simpl. rewrite Hs1. unfold getline, after_newline. simpl.
  pose proof (extract_line_found _ Hin) as Hfound.
  destruct (extract_line (drop (Z.to_nat t) (buf s))) as [line found].
  simpl in Hfound |- *. by rewrite Hfound.
Qed.

Lemma split_loop_lookup_bytes ss trips (i : nat) s ps (m : nat) :
  failbit s = false →
  (∀ j : nat, (i ≤ j < i + trips)%nat →
     0 ≤ ss * Z.of_nat j ∧ newline ∈ drop (Z.to_nat (ss * Z.of_nat j)) (buf s)) →
  (split_loop ss trips (Z.of_nat i) s ps).1 !! m
  = if decide ((i ≤ m < i + trips)%nat ∧ (m < length ps)%nat)
    then Some (after_newline (buf s) (ss * Z.of_nat m))
    else ps !! m.
Proof.
  revert i s ps. induction trips as [|trips IH]; intros i s ps Hfail Hin.
  - simpl. case_decide; [lia|done].
  - cbn [split_loop].
    destruct (Hin i ltac:(lia)) as [Hti Hnli].
    destruct (split_step_bytes s (ss * Z.of_nat i) Hfail Hti Hnli)
      as (Htell & Hfail' & Hbuf').
    simpl in Htell, Hfail', Hbuf'.
    destruct (getline (seekg (ss * Z.of_nat i) s)) as [line s2].
    simpl in Htell, Hfail', Hbuf'. rewrite Htell.
    replace (Z.of_nat i + 1) with (Z.of_nat (S i)) by lia.
    rewrite IH by (try done; rewrite Hbuf'; intros; apply Hin; lia).
    rewrite length_insert, Nat2Z.id, Hbuf'.
    destruct (decide (m = i)) as [->|Hne].
    + case_decide; [lia|].
      case_decide.
      * by rewrite list_lookup_insert_eq by lia.
      * rewrite list_insert_ge by lia. done.
    + rewrite list_lookup_insert_ne by done.
      repeat case_decide; try done; lia.
Qed.

End Boundaries.

(** X20.  For a non-empty file in which a newline occurs at or
    after every inner target offset [j * (size / n)], as it does in every
    file that ends with a newline, [SplitFileIntoSections] returns [n + 1]
    offsets that never decrease, the first 0 and the last the size of the
    file, and every inner boundary is the offset right behind the first
    newline at or after its target offset. *)
Theorem SplitFileIntoSections_aligned fs path n bytes :
  files fs !! path = Some bytes → bytes ≠ [] → path ≠ EmptyString → 0 < n →
  (∀ j : nat, 0 < Z.of_nat j < n →
     ∃ e : nat, Z.of_nat (length bytes) ÷ n * Z.of_nat j ≤ Z.of_nat e
                ∧ bytes !! e = Some newline) →
  ∃ positions,
    SplitFileIntoSections fs path n = Ok positions
    ∧ length positions = Z.to_nat (n + 1)
    ∧ positions !! 0%nat = Some 0
    ∧ positions !! Z.to_nat n = Some (Z.of_nat (length bytes))
    ∧ (∀ (j : nat) p q,
         positions !! j = Some p → positions !! S j = Some q → p ≤ q)
    ∧ (∀ j : nat, 0 < Z.of_nat j < n →
         ∃ e : nat,
           positions !! j = Some (Z.of_nat e + 1)
           ∧ Z.of_nat (length bytes) ÷ n * Z.of_nat j ≤ Z.of_nat e
           ∧ bytes !! e = Some newline
           ∧ ∀ e' : nat,
               Z.of_nat (length bytes) ÷ n * Z.of_nat j ≤ Z.of_nat e' →
               (e' < e)%nat → bytes !! e' ≠ Some newline).
Proof.
  intros Hfile Hne Hpath Hn Hnew.
  set (size := Z.of_nat (length bytes)) in *.
  assert (Hsize : 0 < size) by (subst size; destruct bytes; [done|simpl; lia]).
  pose proof (Z.quot_pos size n ltac:(lia) Hn) as Hss.
  assert (Hin : ∀ j : nat, 0 < Z.of_nat j < n →
            0 ≤ size ÷ n * Z.of_nat j
            ∧ newline ∈ drop (Z.to_nat (size ÷ n * Z.of_nat j)) bytes).
  { intros j Hj. split; [nia|]. destruct (Hnew j Hj) as (e & He & Hnl).
    apply (newline_after_drop bytes _ e); [nia|done]. }
  unfold SplitFileIntoSections.
  destruct (String.eqb_spec path EmptyString) as [|_]; [done|].
  destruct (Z.leb_spec n 0) as [|_]; [lia|]. simpl.
  unfold open_ifstream. rewrite Hfile, get_file_size_open. fold size.
  destruct (Z.leb_spec size 0) as [|_]; [lia|].
  pose proof (split_loop_lookup_bytes (size ÷ n) (Z.to_nat (n - 1)) 1
                (mkIfstream bytes 0 false false)
                (<[0%nat:=0]> (replicate (Z.to_nat (n + 1)) 0))) as Hlook.
  pose proof (split_loop_length (size ÷ n) (Z.to_nat (n - 1)) 1
                (mkIfstream bytes 0 false false)
                (<[0%nat:=0]> (replicate (Z.to_nat (n + 1)) 0))) as Hlen.
  change (Z.of_nat 1) with 1 in Hlook.
  destruct (split_loop _ _ _ _ _) as [ps s']. simpl in Hlook, Hlen.
  rewrite length_insert, length_replicate in Hlen, Hlook.
  assert (Hps : ∀ m : nat,
            ps !! m = if decide ((1 ≤ m < 1 + Z.to_nat (n - 1))%nat
                                 ∧ (m < Z.to_nat (n + 1))%nat)
                      then Some (after_newline bytes (size ÷ n * Z.of_nat m))
                      else <[0%nat:=0]> (replicate (Z.to_nat (n + 1)) 0) !! m).
  { intros m. apply Hlook; [done|]. intros j Hj. apply Hin. lia. }
  clear Hlook.
  assert (Hinner : ∀ j : nat, 0 < Z.of_nat j < n →
            <[Z.to_nat n:=size]> ps !! j
            = Some (after_newline bytes (size ÷ n * Z.of_nat j))).
  { intros j Hj. rewrite list_lookup_insert_ne by lia. rewrite Hps.
    case_decide; [done|lia]. }
  assert (Hfirst : <[Z.to_nat n:=size]> ps !! 0%nat = Some 0).
  { rewrite list_lookup_insert_ne by lia. rewrite Hps.
    case_decide; [lia|].
    by rewrite list_lookup_insert_eq by (rewrite length_replicate; lia). }
  assert (Hlast : <[Z.to_nat n:=size]> ps !! Z.to_nat n = Some size).
  { by rewrite list_lookup_insert_eq by lia. }
  eexists. split; [done|]. split; [by rewrite length_insert|].
  split; [done|]. split; [done|]. split.
  - intros j p q Hp Hq.
    pose proof (lookup_lt_Some _ _ _ Hq) as Hj. rewrite length_insert in Hj.
    assert (Hbound : ∀ i : nat, 0 < Z.of_nat i < n →
              0 < after_newline bytes (size ÷ n * Z.of_nat i) ≤ size).
    { intros i Hi. destruct (Hin i Hi) as [Ht Hnl].
      destruct (after_newline_spec bytes _ Ht Hnl) as (e & -> & _ & He & _).
      apply lookup_lt_Some in He. subst size. lia. }
    destruct (decide (j = 0%nat)) as [->|Hj0].
    + rewrite Hfirst in Hp. injection Hp as <-.
      destruct (decide (1 = Z.to_nat n)%nat) as [Heq|Hne1].
      * rewrite Heq, Hlast in Hq. injection Hq as <-. lia.
      * rewrite Hinner in Hq by lia. injection Hq as <-.
        pose proof (Hbound 1%nat ltac:(lia)). lia.
    + rewrite Hinner in Hp by lia. injection Hp as <-.
      destruct (decide (S j = Z.to_nat n)) as [Heq|Hne1].
      * rewrite Heq, Hlast in Hq. injection Hq as <-.
        pose proof (Hbound j ltac:(lia)). lia.
      * rewrite Hinner in Hq by lia. injection Hq as <-.
        apply after_newline_mono; [nia|]. apply Hin. lia.
  - intros j Hj. rewrite (Hinner j Hj).
    destruct (Hin j Hj) as [Ht Hnl].
    destruct (after_newline_spec bytes _ Ht Hnl) as (e & -> & Hge & He & Hmin).
    exists e. done.
Qed.

(** A file that ends with a newline has one at or after every inner target
    offset: its last byte. *)
Lemma newline_after_targets bytes n (j : nat) :
  bytes ≠ [] → newline_delimited bytes → 0 < n → 0 < Z.of_nat j < n →
  ∃ e : nat, Z.of_nat (length bytes) ÷ n * Z.of_nat j ≤ Z.of_nat e
             ∧ bytes !! e = Some newline.
Proof.
  intros Hne [?|Hlast] Hn Hj; [done|].
  exists (pred (length bytes)). split; [|by rewrite <- last_lookup].
  assert (0 < Z.of_nat (length bytes)) by (destruct bytes; [done|simpl; lia]).
  pose proof (Z.quot_pos (Z.of_nat (length bytes)) n ltac:(lia) Hn).
  pose proof (Z.mul_quot_le (Z.of_nat (length bytes)) n ltac:(lia) ltac:(lia)).
  nia.
Qed.

(** The theorem at the scenario of the specification: the lines a, b, a, c,
    two sections, target offset 4, boundaries 0, 6, 8. *)
Lemma SplitFileIntoSections_aligned_witness :
  ∃ positions,
    SplitFileIntoSections (fs_with "in" abac) "in" 2 = Ok positions
    ∧ length positions = 3%nat
    ∧ positions !! 0%nat = Some 0
    ∧ positions !! 2%nat = Some 8
    ∧ (∀ (j : nat) p q,
         positions !! j = Some p → positions !! S j = Some q → p ≤ q)
    ∧ (∀ j : nat, 0 < Z.of_nat j < 2 →
         ∃ e : nat,
           positions !! j = Some (Z.of_nat e + 1)
           ∧ 8 ÷ 2 * Z.of_nat j ≤ Z.of_nat e
           ∧ bytes abac !! e = Some newline
           ∧ ∀ e' : nat,
               8 ÷ 2 * Z.of_nat j ≤ Z.of_nat e' →
               (e' < e)%nat → bytes abac !! e' ≠ Some newline).
Proof.
  apply (SplitFileIntoSections_aligned (fs_with "in" abac) "in" 2 (bytes abac)).
  - reflexivity.
  - discriminate.
  - discriminate.
  - lia.
  - intros j Hj. exists 5%nat. split; [|reflexivity].
    change (Z.of_nat (length (bytes abac)) ÷ 2) with 4. lia.
Defined.

(** C5.  The code breaks the claim on a file whose last line has no
    newline: "a", newline, "bcd", split in two.  The target offset 2 lies
    in the last line, [getline] runs into the end of the file and [tellg]
    then answers -1, which is stored as boundary 1 without a look at the
    state of the stream.  The boundaries 0, -1, 5 decrease, and the inner
    one is no offset of the file, let alone one behind a newline. *)
Lemma SplitFileIntoSections_unterminated :
  let content := bytes ("a" +:+ endl +:+ "bcd") in
  let positions := [0; -1; 5] in
  SplitFileIntoSections (fs_with "in" ("a" +:+ endl +:+ "bcd")) "in" 2
  = Ok positions
  ∧ ¬ (∀ (j : nat) p q,
         positions !! j = Some p → positions !! S j = Some q → p ≤ q)
  ∧ ¬ (∃ e : nat, positions !! 1%nat = Some (Z.of_nat e + 1)
                  ∧ content !! e = Some newline).
Proof.
  split; [reflexivity|]. split.
  - intros H. specialize (H 0%nat 0 (-1) eq_refl eq_refl). lia.
  - intros (e & He & _). simpl in He. injection He. lia.
Qed.

(** With such boundaries the mappers read nothing, and a run with enough
    lines before the damaged boundary loses the lines after it without
    any error. *)
Example unterminated_lines_lost :
  let fs := fs_with "in" ("a" +:+ endl +:+ "b" +:+ endl +:+ "cdefgh") in
  SplitFileIntoSections fs "in" 3 = Ok [0; 4; -1; 10]
  ∧ join_mappers (spawn_mappers fs "in" [0; 4; -1; 10] 3 0 [[]; []; []])
    = Some (Ok [["a"; "b"]; []; []]%string)
  ∧ final (pipeline fs "in" 3 1) = Done
  ∧ files (disk (pipeline fs "in" 3 1)) !! output_file_name 0
    = Some (bytes ("a" +:+ endl +:+ "b" +:+ endl)).
Proof. repeat split; reflexivity. Qed.

(** C4.  The code breaks the claim on a file whose last line has no
    newline: the lines a, b and cdefgh, three sections.  Boundary 2 is the
    -1 that [tellg] answers behind the end of the file, stored by
    [SplitFileIntoSections] as it comes, so mapper 0 returns a and b
    and the mappers 1 and 2 return nothing: the outputs hold two of the
    three lines, the line cdefgh is dropped, and no mapper fails. *)
Theorem mappers_drop_last_line :
  SplitFileIntoSections (fs_with "in" open_ended) "in" 3 = Ok [0; 4; -1; 10]
  ∧ text_lines (bytes open_ended) = ["a"; "b"; "cdefgh"]%string
  ∧ join_mappers
      (spawn_mappers (fs_with "in" open_ended) "in" [0; 4; -1; 10] (Z.to_nat 3) 0
         (replicate (Z.to_nat 3) []))
    = Some (Ok [["a"; "b"]; []; []]%string)
  ∧ sum_list (length <$> [["a"; "b"]; []; []]%string)
    ≠ length (text_lines (bytes open_ended)).
Proof. split_and!; [reflexivity..|]. vm_compute. lia. Qed.

(** C3.  The code breaks the claim on the same file: with three mappers
    and one reducer the [try] block runs to its end, and the one artifact
    holds the lines a and b.  The line cdefgh of the input is in no
    artifact: the lines written are not the lines read.  The defect is the
    boundary of -1 that [SplitFileIntoSections] stores when [getline] has
    run into the end of the file. *)
Theorem round_trip_drops_last_line :
  final (pipeline (fs_with "in" open_ended) "in" 3 1) = Done
  ∧ written (pipeline (fs_with "in" open_ended) "in" 3 1) = [output_file_name 0]
  ∧ concat ((λ j, text_lines
                    (files (disk (pipeline (fs_with "in" open_ended) "in" 3 1))
                       !!! output_file_name j))
              <$> seqZ 0 1)
    = ["a"; "b"]%string
  ∧ ¬ (concat ((λ j, text_lines
                       (files (disk (pipeline (fs_with "in" open_ended) "in" 3 1))
                          !!! output_file_name j))
                 <$> seqZ 0 1)
       ≡ₚ text_lines (bytes open_ended)).
Proof.
  assert (Hlines :
            concat ((λ j, text_lines
                            (files (disk (pipeline (fs_with "in" open_ended)
                                            "in" 3 1))
                               !!! output_file_name j))
                      <$> seqZ 0 1)
            = ["a"; "b"]%string) by (vm_compute; reflexivity).
  split_and!; [reflexivity|reflexivity|exact Hlines|].
  rewrite Hlines. intros Hperm. apply Permutation_length in Hperm.
  revert Hperm. vm_compute. lia.
Qed.

(** * How a run ends *)

Lemma MapSection_returns fs path start_pos end_pos f out :
  path ≠ EmptyString → is_Some (files fs !! path) →
  ∃ out', MapSection fs path start_pos end_pos (Some f) out = Some (Ok out').
Proof.
  intros Hpath [content Hfile].
  pose proof (MapSection_terminates fs path start_pos end_pos (Some f) out) as Hterm.
  revert Hterm. unfold MapSection.
  destruct (String.eqb_spec path EmptyString) as [|_]; [done|].
  unfold open_ifstream. rewrite Hfile.
  intros [res Hres]%fmap_is_Some. rewrite Hres. by eexists.
Qed.

(** Once the file has been sectioned, no mapper throws or hangs. *)
Lemma mappers_return fs path positions trips i slots :
  path ≠ EmptyString → is_Some (files fs !! path) →
  ∃ mo, join_mappers (spawn_mappers fs path positions trips i slots) = Some (Ok mo).
Proof.
  intros Hpath Hfile. revert i.
  induction trips as [|trips IH]; intros i; [by eexists|].
  cbn [spawn_mappers join_mappers].
  destruct (MapSection_returns fs path (positions !!! i) (positions !!! S i)
              map_func (slots !!! i) Hpath Hfile) as [out ->].
  destruct (IH (S i)) as [mo ->]. by eexists.
Qed.

(** The [try] block ends in one of four ways. *)
Lemma pipeline_final fs path mnum rnum :
  final (pipeline fs path mnum rnum) = Done
  ∨ (∃ e, final (pipeline fs path mnum rnum) = Failed Sectioning e)
  ∨ (∃ e, final (pipeline fs path mnum rnum) = Failed Shuffling e)
  ∨ (∃ e, final (pipeline fs path mnum rnum) = Failed Reducing e).
Proof.
  unfold pipeline.
  destruct (SplitFileIntoSections fs path mnum) as [positions|e] eqn:Hsplit;
    [|right; left; by eexists].
  destruct (SplitFileIntoSections_inv _ _ _ _ Hsplit)
    as (Hpath & _ & content & Hfile & _).
  destruct (mappers_return fs path positions (Z.to_nat mnum) 0
              (replicate (Z.to_nat mnum) []) Hpath) as [mo ->]; [by eexists|].
  destruct (Shuffle mo rnum) as [bs|e]; [|right; right; left; by eexists].
  destruct (spawn_reducers bs (Z.to_nat rnum) 0 fs) as [rs fs'].
  destruct (first_thrown rs) as [e|]; [|by left].
  right; right; right. by eexists.
Qed.

(** C8 as stated fails on the code: the zero-byte file and the file that
    cannot be opened make [SplitFileIntoSections] throw exceptions of one
    and the same class, [std::runtime_error].  The code has no error kind
    of its own for empty input; the two failures differ in their
    descriptions only. *)
Lemma empty_file_same_class :
  SplitFileIntoSections (fs_with "in" "") "in" 1
  = Throw (runtime_error "File is empty")
  ∧ SplitFileIntoSections (fs_with "in" "") "absent" 1
    = Throw (runtime_error "Can't open file")
  ∧ ¬ (class_of (runtime_error "File is empty")
       ≠ class_of (runtime_error "Can't open file")).
Proof. split_and!; [reflexivity|reflexivity|]. intros H. by apply H. Qed.

(** C8, amended.  A run with a usable path and a mapper count that
    [atoi] reads as positive.  On a zero-byte file [SplitFileIntoSections]
    throws the [std::runtime_error] described as "File is empty"; the run
    ends in the sectioning stage with no mapper and no reducer spawned and
    the disk untouched, and [main] prints that description and returns 0.
    On a file that cannot be opened it throws the [std::runtime_error]
    described as "Can't open file".  Whatever exception sectioning throws
    here has the class [std::runtime_error]: the two failures are told
    apart by their descriptions, not by their kind. *)
Theorem empty_file_fails fs prog path m r :
  path ≠ EmptyString → 0 < atoi m →
  (files fs !! path = Some [] →
     SplitFileIntoSections fs path (atoi m) = Throw (runtime_error "File is empty")
     ∧ main [prog; path; m; r] fs
       = mkProcess (Exited 0) EmptyString (Printed ("File is empty" +:+ endl))
           (Some (mkTry (Failed Sectioning (runtime_error "File is empty"))
                    fs 0 0 [])))
  ∧ (files fs !! path = None →
     SplitFileIntoSections fs path (atoi m) = Throw (runtime_error "Can't open file")
     ∧ cerr (main [prog; path; m; r] fs) = Printed ("Can't open file" +:+ endl))
  ∧ (∀ e, SplitFileIntoSections fs path (atoi m) = Throw e →
       class_of e = std_runtime_error)
  ∧ what (runtime_error "File is empty") ≠ what (runtime_error "Can't open file").
Proof.
  intros Hpath Hm.
  assert (Hsplit : ∀ e, SplitFileIntoSections fs path (atoi m) = Throw e →
            main [prog; path; m; r] fs
            = mkProcess (Exited 0) EmptyString (Printed (what e +:+ endl))
                (Some (mkTry (Failed Sectioning e) fs 0 0 []))).
  { intros e He. unfold main. simpl. unfold pipeline. rewrite He. done. }
  assert (Hargs : String.eqb path EmptyString || (atoi m <=? 0) = false).
  { destruct (String.eqb_spec path EmptyString); [done|].
    destruct (Z.leb_spec (atoi m) 0); [lia|done]. }
  split_and!; [| | |done].
  - intros Hfile.
    assert (He : SplitFileIntoSections fs path (atoi m)
                 = Throw (runtime_error "File is empty")).
    { unfold SplitFileIntoSections, open_ifstream. by rewrite Hargs, Hfile. }
    split; [done|]. by rewrite (Hsplit _ He).
  - intros Hfile.
    assert (He : SplitFileIntoSections fs path (atoi m)
                 = Throw (runtime_error "Can't open file")).
    { unfold SplitFileIntoSections, open_ifstream. by rewrite Hargs, Hfile. }
    split; [done|]. by rewrite (Hsplit _ He).
  - intros e. unfold SplitFileIntoSections, open_ifstream. rewrite Hargs.
    destruct (files fs !! path) as [content|]; [|by intros [= <-]].
    rewrite get_file_size_open.
    destruct (Z.of_nat (length content) <=? 0); [by intros [= <-]|].
    by destruct (split_loop _ _ _ _ _).
Qed.

Lemma empty_file_fails_witness :
  main ["prog"; "in"; "2"; "2"]%string (fs_with "in" "")
  = mkProcess (Exited 0) EmptyString (Printed ("File is empty" +:+ endl))
      (Some (mkTry (Failed Sectioning (runtime_error "File is empty"))
               (fs_with "in" "") 0 0 [])).
Proof.
  refine (proj2 (proj1 (empty_file_fails (fs_with "in" "") "prog" "in" "2" "2"
                          _ _) _)).
  - discriminate.
  - reflexivity.
  - reflexivity.
Defined.

(** C10 as stated fails when a reducer throws: one line, one mapper, two
    reducers.  The argument count is right, the second bucket is empty,
    its reducer throws on its own thread, and the process is aborted
    instead of returning 0; what standard error shows is the report of the
    terminate handler, not a line printed by [main]. *)
Lemma main_worker_failure_aborts :
  let p := main ["prog"; "in"; "1"; "2"]%string (fs_with "in" ("a" +:+ endl)) in
  final <$> try_block p
  = Some (Failed Reducing (invalid_argument "Invalid argument"))
  ∧ outcome p = Aborted
  ∧ outcome p ≠ Exited 0
  ∧ cerr p = Terminate_report (invalid_argument "Invalid argument").
Proof. repeat split; try reflexivity. discriminate. Qed.

(** C10, amended.  [main] returns a non-zero status, -1, exactly when the
    argument count is wrong, and then prints the usage text to standard
    output and does nothing else.  With four arguments the [try] block
    runs: when it reaches its end, [main] returns 0; when sectioning or
    shuffling throws, [main] prints the description of the exception to
    standard error and returns 0; when a reducer throws, [main] does not
    return at all: the process is aborted, and standard error holds the
    report of the terminate handler instead.  No other ending exists.
    The two counts are what [std::atoi] makes of the arguments. *)
Theorem main_exit_status argv fs :
  (length argv ≠ 4%nat →
     main argv fs
     = mkProcess (Exited (-1))
         ("Usage: " +:+ (argv !!! 0%nat) +:+ " <src> <mnum> <runm>" +:+ endl)
         (Printed EmptyString) None)
  ∧ (length argv = 4%nat →
     let t := pipeline fs (argv !!! 1%nat) (atoi (argv !!! 2%nat))
                (atoi (argv !!! 3%nat)) in
     try_block (main argv fs) = Some t
     ∧ cout (main argv fs) = EmptyString
     ∧ ((final t = Done
         ∧ outcome (main argv fs) = Exited 0
         ∧ cerr (main argv fs) = Printed EmptyString)
        ∨ (∃ e, (final t = Failed Sectioning e ∨ final t = Failed Shuffling e)
                ∧ outcome (main argv fs) = Exited 0
                ∧ cerr (main argv fs) = Printed (what e +:+ endl))
        ∨ (∃ e, final t = Failed Reducing e
                ∧ outcome (main argv fs) = Aborted
                ∧ cerr (main argv fs) = Terminate_report e))).
Proof.
  split.
  - intros Hargc. unfold main. by rewrite bool_decide_eq_true_2.
  - intros Hargc. unfold main. rewrite bool_decide_eq_false_2 by lia.
    cbv zeta.
    destruct (pipeline_final fs (argv !!! 1%nat) (atoi (argv !!! 2%nat))
                (atoi (argv !!! 3%nat)))
      as [Hf|[[e Hf]|[[e Hf]|[e Hf]]]]; rewrite Hf; simpl.
    + split_and!; [done..|]. by left.
    + split_and!; [done..|]. right; left. exists e. auto.
    + split_and!; [done..|]. right; left. exists e. auto.
    + split_and!; [done..|]. right; right. exists e. auto.
Qed.

Lemma main_exit_status_witness :
  main ["prog"; "in"]%string (fs_with "in" abac)
  = mkProcess (Exited (-1)) ("Usage: prog <src> <mnum> <runm>" +:+ endl)
      (Printed EmptyString) None
  ∧ outcome (main ["prog"; "in"; "2"; "2"]%string (fs_with "in" abac)) = Exited 0.
Proof.
  split.
  - apply (proj1 (main_exit_status ["prog"; "in"]%string (fs_with "in" abac))).
    simpl. lia.
  - destruct (proj2 (main_exit_status ["prog"; "in"; "2"; "2"]%string
                       (fs_with "in" abac)) eq_refl)
      as (_ & _ & [(_ & H & _)|[(e & _ & H & _)|(e & H & _)]]);
      [exact H|exact H|discriminate H].
Defined.

(** * The mapping phase under any schedule *)

Section Interleaving.

Variable fs : FileSystem.
Variable file_path : string.
Variable positions : list Z.

Implicit Types (w : mapper) (out : list string) (pool : MapPool)
  (schedule : list nat) (i j : nat).

Lemma pool_step_length pool j :
  length (threads (pool_step fs file_path positions pool j)) = length (threads pool)
  ∧ length (map_results (pool_step fs file_path positions pool j))
    = length (map_results pool).
Proof.
  unfold pool_step.
  destruct (threads pool !! j) as [w|]; [|done].
  destruct (map_results pool !! j) as [out|]; [|done].
  destruct (mapper_step _ _ _ _ _ _ _) as [w' out']. simpl.
  by rewrite !length_insert.
Qed.

(** A step of worker [j] changes the state and the slot of worker [j]
    only, and changes them as the worker alone would. *)
Lemma pool_step_lookup pool j i w out :
  threads pool !! i = Some w → map_results pool !! i = Some out →
  threads (pool_step fs file_path positions pool j) !! i
  = Some (if decide (j = i) then solo fs file_path positions i (w, out) else (w, out)).1
  ∧ map_results (pool_step fs file_path positions pool j) !! i
    = Some (if decide (j = i) then solo fs file_path positions i (w, out) else (w, out)).2.
Proof.
  intros Hw Hout. unfold pool_step.
  destruct (decide (j = i)) as [->|Hne].
  - rewrite Hw, Hout. unfold solo. simpl.
    destruct (mapper_step _ _ _ _ _ _ _) as [w' out']. simpl.
    rewrite !list_lookup_insert_eq; [done|..]; by eapply lookup_lt_Some.
  - destruct (threads pool !! j) as [wj|]; [|done].
    destruct (map_results pool !! j) as [outj|]; [|done].
    destruct (mapper_step _ _ _ _ _ _ _) as [w' out']. simpl.
    by rewrite !list_lookup_insert_ne.
Qed.

Lemma run_view schedule : ∀ pool i w out,
  threads pool !! i = Some w → map_results pool !! i = Some out →
  threads (fold_left (pool_step fs file_path positions) schedule pool) !! i
  = Some (view fs file_path positions i schedule (w, out)).1
  ∧ map_results (fold_left (pool_step fs file_path positions) schedule pool) !! i
    = Some (view fs file_path positions i schedule (w, out)).2.
Proof.
  induction schedule as [|j schedule IH]; intros pool i w out Hw Hout; [done|].
  simpl. destruct (pool_step_lookup pool j i w out Hw Hout) as [Hw' Hout'].
  destruct (IH _ i _ _ Hw' Hout') as [H1 H2].
  by destruct (if decide (j = i) then solo fs file_path positions i (w, out) else (w, out)).
Qed.

Lemma run_length schedule pool :
  length (threads (fold_left (pool_step fs file_path positions) schedule pool))
  = length (threads pool)
  ∧ length (map_results (fold_left (pool_step fs file_path positions) schedule pool))
    = length (map_results pool).
Proof.
  revert pool. induction schedule as [|j schedule IH]; intros pool; [done|].
  simpl. destruct (IH (pool_step fs file_path positions pool j)) as [-> ->].
  apply pool_step_length.
Qed.

Lemma view_finished i schedule w out :
  finished w = true → view fs file_path positions i schedule (w, out) = (w, out).
Proof.
  intros Hw. induction schedule as [|j schedule IH]; [done|].
  simpl. case_decide; [|done].
  replace (solo fs file_path positions i (w, out)) with (w, out); [done|].
  unfold solo. by destruct w.
Qed.

(** A worker seen to finish from the head of its loop has run the loop of
    [MapSection] to its end. *)
Lemma view_reading i schedule : ∀ f s out w out',
  view fs file_path positions i schedule (Reading f s, out) = (w, out') → finished w = true →
  w = Returned ∧ ∃ fuel, map_loop fuel f (positions !!! S i) s out = Some out'.
Proof.
  induction schedule as [|j schedule IH]; intros f s out w out' Hview Hw.
  { simpl in Hview. by injection Hview as <- <-. }
  simpl in Hview. destruct (decide (j = i)) as [->|_]; [|by eapply IH].
  revert Hview. unfold solo. simpl.
  destruct (tellg s) as [p s1] eqn:Htell.
  destruct (p <? positions !!! S i) eqn:Hp.
  - destruct (getline s1) as [line s2] eqn:Hget.
    destruct (negb (failbit s2)) eqn:Hfail.
    + intros Hview. destruct (IH _ _ _ _ _ Hview Hw) as [-> [fuel Hloop]].
      split; [done|]. exists (S fuel). simpl.
      by rewrite Htell, Hp, Hget, Hfail.
    + rewrite view_finished by done. intros [= <- <-].
      split; [done|]. exists 1%nat. simpl. by rewrite Htell, Hp, Hget, Hfail.
  - rewrite view_finished by done. intros [= <- <-].
    split; [done|]. exists 1%nat. simpl. by rewrite Htell, Hp.
Qed.

Lemma map_loop_fuel_agree fuel1 fuel2 f end_pos s out res1 res2 :
  map_loop fuel1 f end_pos s out = Some res1 →
  map_loop fuel2 f end_pos s out = Some res2 → res1 = res2.
Proof.
  intros H1 H2.
  apply (map_loop_fuel_mono _ (fuel1 `max` fuel2)) in H1; [|lia].
  apply (map_loop_fuel_mono _ (fuel1 `max` fuel2)) in H2; [|lia].
  congruence.
Qed.

Lemma view_spawned i schedule w out :
  view fs file_path positions i schedule (Spawned, []) = (w, out) → finished w = true →
  let r := MapSection fs file_path (positions !!! i) (positions !!! S i)
             (Some map_func) [] in
  w = mapper_end r ∧ out = mapper_slot r.
Proof.
  induction schedule as [|j schedule IH]; intros Hview Hw.
  { simpl in Hview. by injection Hview as <- <-. }
  simpl in Hview. destruct (decide (j = i)) as [->|_]; [|by apply IH].
  revert Hview. unfold solo, MapSection. simpl.
  destruct (String.eqb file_path EmptyString).
  { rewrite view_finished by done. by intros [= <- <-]. }
  unfold open_ifstream. destruct (files fs !! file_path) as [content|].
  2: { rewrite view_finished by done. by intros [= <- <-]. }
  set (input_file := mkIfstream content 0 false false).
  intros Hview. destruct (view_reading _ _ _ _ _ _ _ Hview Hw) as [-> [fuel Hloop]].
  destruct (map_loop_terminates (map_fuel (seekg (positions !!! i) input_file))
              map_func (positions !!! S i) (seekg (positions !!! i) input_file) [])
    as [res Hres].
  { by apply seekg_gpos. }
  { unfold map_fuel, remaining. rewrite length_drop. lia. }
  rewrite Hres. simpl. split; [done|].
  by eapply map_loop_fuel_agree.
Qed.

End Interleaving.

(** Once every mapper has finished, the threads and the slots are what
    [MapSection] says, whatever the schedule was. *)
Lemma run_mappers_finished fs path positions mnum schedule :
  let pool := run_mappers fs path positions mnum schedule in
  let r i := MapSection fs path (positions !!! i) (positions !!! S i)
               (Some map_func) [] in
  forallb finished (threads pool) = true →
  threads pool = (λ i, mapper_end (r i)) <$> seq 0 (Z.to_nat mnum)
  ∧ map_results pool = (λ i, mapper_slot (r i)) <$> seq 0 (Z.to_nat mnum).
Proof.
  intros pool r Hfin. subst pool. unfold run_mappers in *.
  set (pool0 := mkPool (replicate (Z.to_nat mnum) Spawned)
                  (replicate (Z.to_nat mnum) [])) in *.
  destruct (run_length fs path positions schedule pool0) as [Hlen1 Hlen2].
  unfold pool0 in Hlen1 at 2. unfold pool0 in Hlen2 at 2.
  cbn [threads map_results] in Hlen1, Hlen2.
  rewrite length_replicate in Hlen1. rewrite length_replicate in Hlen2.
  assert (Hi : ∀ i, (i < Z.to_nat mnum)%nat →
            threads (fold_left (pool_step fs path positions) schedule pool0) !! i
            = Some (mapper_end (r i))
            ∧ map_results (fold_left (pool_step fs path positions) schedule pool0) !! i
              = Some (mapper_slot (r i))).
  { intros i Hlt.
    destruct (run_view fs path positions schedule pool0 i Spawned [])
      as [Hw Hout]; [by apply lookup_replicate_2..|].
    destruct (view fs path positions i schedule (Spawned, [])) as [w out] eqn:Hview.
    simpl in Hw, Hout.
    assert (Hfw : finished w = true).
    { apply (proj1 (forallb_forall _ _) Hfin), list_elem_of_In.
      by eapply list_elem_of_lookup_2. }
    destruct (view_spawned fs path positions i schedule w out Hview Hfw) as [-> ->].
    done. }
  split; apply list_eq; intros i; rewrite list_lookup_fmap;
    (destruct (decide (i < Z.to_nat mnum)%nat) as [Hlt|Hge];
     [rewrite lookup_seq_lt by done; by destruct (Hi i Hlt)
     |rewrite lookup_seq_ge by lia; apply lookup_ge_None; lia]).
Qed.

(** Sectioning and mapping read the input file and nothing else. *)
Lemma SplitFileIntoSections_ext fs1 fs2 path n :
  files fs1 !! path = files fs2 !! path →
  SplitFileIntoSections fs1 path n = SplitFileIntoSections fs2 path n.
Proof. intros H. unfold SplitFileIntoSections, open_ifstream. by rewrite H. Qed.

Lemma MapSection_ext fs1 fs2 path start_pos end_pos f out :
  files fs1 !! path = files fs2 !! path →
  MapSection fs1 path start_pos end_pos f out
  = MapSection fs2 path start_pos end_pos f out.
Proof. intros H. unfold MapSection, open_ifstream. by rewrite H. Qed.

(** C6.  Two runs on the same file content with the same mapper and
    reducer counts, whatever else the two file systems hold and in
    whatever order the scheduler lets the mapper threads step, show the
    same section boundaries and the same buckets (or the same failure)
    once the mapping barrier is passed. *)
Theorem pipeline_deterministic fs1 fs2 path mnum rnum schedule1 schedule2 o1 o2 :
  files fs1 !! path = files fs2 !! path →
  run_stages fs1 path mnum rnum schedule1 = Some o1 →
  run_stages fs2 path mnum rnum schedule2 = Some o2 →
  o1 = o2.
Proof.
  intros Hfile. unfold run_stages.
  rewrite (SplitFileIntoSections_ext fs1 fs2 path mnum Hfile).
  destruct (SplitFileIntoSections fs2 path mnum) as [positions|e]; [|congruence].
  destruct (forallb finished (threads (run_mappers fs1 _ _ _ schedule1))) eqn:H1;
    [|done].
  destruct (forallb finished (threads (run_mappers fs2 _ _ _ schedule2))) eqn:H2;
    [|done].
  destruct (run_mappers_finished _ _ _ _ _ H1) as [-> ->].
  destruct (run_mappers_finished _ _ _ _ _ H2) as [-> ->].
  assert (Hext : ∀ i,
            MapSection fs1 path (positions !!! i) (positions !!! S i)
              (Some map_func) []
            = MapSection fs2 path (positions !!! i) (positions !!! S i)
                (Some map_func) [])
    by (intros; by apply MapSection_ext).
  rewrite (list_fmap_ext _ _ _ (λ _ i _, f_equal mapper_end (Hext i))).
  rewrite (list_fmap_ext _ _ _ (λ _ i _, f_equal mapper_slot (Hext i))).
  congruence.
Qed.

Lemma pipeline_deterministic_witness :
  run_stages (fs_with "in" abac) "in" 2 2 [0; 1; 0; 1; 0; 1; 0; 0; 0; 1; 1]%nat
  = Some (Shuffled [0; 6; 8] (Ok [["a"; "a"; "c"]; ["b"]]%string))
  ∧ run_stages fs_read_only
      "in" 2 2 [1; 1; 1; 1; 1; 0; 0; 0; 0; 0; 0]%nat
    = Some (Shuffled [0; 6; 8] (Ok [["a"; "a"; "c"]; ["b"]]%string)).
Proof.
  assert (H1 : run_stages (fs_with "in" abac) "in" 2 2
                 [0; 1; 0; 1; 0; 1; 0; 0; 0; 1; 1]%nat
               = Some (Shuffled [0; 6; 8] (Ok [["a"; "a"; "c"]; ["b"]]%string)))
    by (vm_compute; reflexivity).
  split; [exact H1|].
  destruct (run_stages fs_read_only "in" 2 2
              [1; 1; 1; 1; 1; 0; 0; 0; 0; 0; 0]%nat) as [o2|] eqn:H2.
  - f_equal. symmetry.
    apply (pipeline_deterministic (fs_with "in" abac)
             fs_read_only
             "in" 2 2 _ _ _ _ ltac:(vm_compute; reflexivity) H1 H2).
  - vm_compute in H2. discriminate H2.
Defined.

(** * The interleaved mapping phase and the sequential one agree *)

Lemma spawn_mappers_fmap fs path positions (n trips i : nat) :
  (i + trips ≤ n)%nat →
  spawn_mappers fs path positions trips i (replicate n [])
  = (λ j, MapSection fs path (positions !!! j) (positions !!! S j)
            (Some map_func) []) <$> seq i trips.
Proof.
  revert i. induction trips as [|trips IH]; intros i Hi; [done|].
  cbn [spawn_mappers seq fmap list_fmap].
  rewrite (lookup_total_replicate_2 (A:=list string)) by lia.
  f_equal. apply IH. lia.
Qed.

Lemma join_mappers_threads (rs : list (option (result (list string)))) :
  match join_mappers rs with
  | Some (Ok mo) => thrown_by (mapper_end <$> rs) = None ∧ mapper_slot <$> rs = mo
  | Some (Throw e) => thrown_by (mapper_end <$> rs) = Some e
  | None => True
  end.
Proof.
  induction rs as [|[[slot|e]|] rs IH]; [done| |done|done].
  cbn [join_mappers].
  destruct (join_mappers rs) as [[mo|e]|]; rewrite ?fmap_cons;
    cbn [mapper_end mapper_slot thrown_by]; [|done|done].
  destruct IH as [-> <-]. done.
Qed.

(** Every finished interleaved run shows what the sequential mapping phase
    of [main] computes. *)
Lemma run_stages_sequential fs path mnum rnum schedule o :
  run_stages fs path mnum rnum schedule = Some o →
  match SplitFileIntoSections fs path mnum with
  | Throw e => o = NoSections e
  | Ok positions =>
      match join_mappers
              (spawn_mappers fs path positions (Z.to_nat mnum) 0
                 (replicate (Z.to_nat mnum) [])) with
      | Some (Ok mo) => o = Shuffled positions (Shuffle mo rnum)
      | Some (Throw e) => o = MapperThrew positions e
      | None => False
      end
  end.
Proof.
  unfold run_stages.
  destruct (SplitFileIntoSections fs path mnum) as [positions|e] eqn:Hsplit;
    [|congruence].
  destruct (forallb finished (threads (run_mappers _ _ _ _ _))) eqn:Hfin; [|done].
  destruct (run_mappers_finished _ _ _ _ _ Hfin) as [-> ->].
  rewrite spawn_mappers_fmap by lia.
  destruct (SplitFileIntoSections_inv _ _ _ _ Hsplit)
    as (Hpath & _ & content & Hfile & _).
  destruct (mappers_return fs path positions (Z.to_nat mnum) 0
              (replicate (Z.to_nat mnum) []) Hpath) as [mo Hmo]; [by eexists|].
  rewrite spawn_mappers_fmap in Hmo by lia.
  pose proof (join_mappers_threads
                ((λ j, MapSection fs path (positions !!! j) (positions !!! S j)
                         (Some map_func) []) <$> seq 0 (Z.to_nat mnum))) as Hjoin.
  rewrite Hmo in Hjoin |- *. rewrite <- !list_fmap_compose in Hjoin.
  destruct Hjoin as [Hnone Hslots].
  unfold compose in Hnone, Hslots. rewrite Hnone, Hslots. congruence.
Qed.

(** * Some schedule lets every mapper finish *)

Section Finishing.

Variable fs : FileSystem.
Variable file_path : string.
Variable positions : list Z.

Implicit Types (i j k : nat) (schedule : list nat).

Lemma view_app i schedule1 schedule2 x :
  view fs file_path positions i (schedule1 ++ schedule2) x
  = view fs file_path positions i schedule2
      (view fs file_path positions i schedule1 x).
Proof. unfold view. apply fold_left_app. Qed.

Lemma view_other i schedule x :
  i ∉ schedule → view fs file_path positions i schedule x = x.
Proof.
  induction schedule as [|j schedule IH]; intros Hi; [done|].
  simpl. case_decide; [set_solver|]. apply IH. set_solver.
Qed.

(** A worker at the head of its loop returns within as many steps as the
    loop needs fuel. *)
Lemma reading_steps i f fuel : ∀ s out res k,
  map_loop fuel f (positions !!! S i) s out = Some res → (fuel ≤ k)%nat →
  view fs file_path positions i (replicate k i) (Reading f s, out)
  = (Returned, res).
Proof.
  induction fuel as [|fuel IH]; intros s out res k Hloop Hk; [done|].
  destruct k as [|k]; [lia|].
  simpl. rewrite decide_True by done.
  revert Hloop. unfold solo. simpl.
  destruct (tellg s) as [p s1].
  destruct (p <? positions !!! S i).
  - destruct (getline s1) as [line s2].
    destruct (negb (failbit s2)).
    + intros Hloop. apply (IH _ _ _ _ Hloop). lia.
    + intros [= <-]. by apply view_finished.
  - intros [= <-]. by apply view_finished.
Qed.

Lemma spawned_steps i k :
  (length (default [] (files fs !! file_path)) + 3 ≤ k)%nat →
  finished (view fs file_path positions i (replicate k i) (Spawned, [])).1 = true.
Proof.
  intros Hk. destruct k as [|k]; [lia|].
  simpl. rewrite decide_True by done. unfold solo. simpl.
  destruct (String.eqb file_path EmptyString); [by rewrite view_finished|].
  unfold open_ifstream.
  destruct (files fs !! file_path) as [content|]; [|by rewrite view_finished].
  simpl in Hk.
  set (s := seekg (positions !!! i) (mkIfstream content 0 false false)).
  destruct (map_loop_terminates (length content + 2) map_func
              (positions !!! S i) s []) as [res Hres].
  { by apply seekg_gpos. }
  { unfold remaining. rewrite length_drop. unfold s. rewrite seekg_buf. simpl. lia. }
  rewrite (reading_steps i map_func _ _ _ res k Hres) by lia. done.
Qed.

End Finishing.

(** For every input some schedule passes the mapping barrier, so that
    runs to compare exist. *)
Lemma some_schedule_finishes fs path mnum rnum :
  ∃ schedule, is_Some (run_stages fs path mnum rnum schedule).
Proof.
  set (k := (length (default [] (files fs !! path)) + 3)%nat).
  exists (flat_map (λ i, replicate k i) (seq 0 (Z.to_nat mnum))).
  unfold run_stages.
  destruct (SplitFileIntoSections fs path mnum) as [positions|e]; [|by eexists].
  set (schedule := flat_map _ _).
  enough (forallb finished (threads (run_mappers fs path positions mnum schedule))
          = true) as -> by (destruct (thrown_by _); by eexists).
  apply forallb_forall. intros w [i Hw]%list_elem_of_In%list_elem_of_lookup.
  unfold run_mappers in Hw.
  pose proof (lookup_lt_Some _ _ _ Hw) as Hi.
  rewrite (proj1 (run_length _ _ _ _ _)) in Hi. simpl in Hi.
  rewrite length_replicate in Hi.
  destruct (run_view fs path positions schedule
              (mkPool (replicate (Z.to_nat mnum) Spawned)
                 (replicate (Z.to_nat mnum) [])) i Spawned [])
    as [Hw' _]; [by apply lookup_replicate_2..|].
  rewrite Hw' in Hw. injection Hw as <-.
  assert (Hsched : schedule
                   = flat_map (λ i, replicate k i) (seq 0 i)
                     ++ replicate k i
                     ++ flat_map (λ i, replicate k i) (seq (S i) (Z.to_nat mnum - S i))).
  { unfold schedule.
    replace (Z.to_nat mnum) with (i + S (Z.to_nat mnum - S i))%nat at 1 by lia.
    rewrite seq_app, flat_map_app. simpl. done. }
  rewrite Hsched, !view_app.
  rewrite (view_other _ _ _ i (flat_map _ (seq 0 i))).
  2: { intros (j & Hj & Hin)%list_elem_of_In%in_flat_map.
       apply in_seq in Hj. apply list_elem_of_In, elem_of_replicate in Hin. lia. }
  pose proof (spawned_steps fs path positions i k ltac:(lia)) as Hfin.
  destruct (view fs path positions i (replicate k i) (Spawned, [])) as [w out].
  simpl in Hfin. by rewrite view_finished.
Qed.

(** * SplitFileIntoSections on any file *)

Section AnyFile.

Implicit Types (cs : list ascii) (s : ifstream) (t : Z) (ps : list Z).

(** The loop writes the entries [i], ..., [i + trips - 1] only. *)
Lemma split_loop_outside ss trips (i : nat) s ps (m : nat) :
  (m < i ∨ i + trips ≤ m)%nat →
  (split_loop ss trips (Z.of_nat i) s ps).1 !! m = ps !! m.
Proof.
  revert i s ps. induction trips as [|trips IH]; intros i s ps Hm; [done|].
  cbn [split_loop]. destruct (getline _) as [line s2].
  destruct (tellg s2) as [p s3].
  replace (Z.of_nat i + 1) with (Z.of_nat (S i)) by lia.
  rewrite IH by lia. rewrite Nat2Z.id. apply list_lookup_insert_ne. lia.
Qed.

(** Once [failbit] is set it stays set, and every boundary is -1. *)
Lemma split_loop_failed ss trips (i : nat) s ps (m : nat) :
  failbit s = true →
  (split_loop ss trips (Z.of_nat i) s ps).1 !! m
  = if decide ((i ≤ m < i + trips)%nat ∧ (m < length ps)%nat)
    then Some (-1) else ps !! m.
Proof.
  revert i s ps. induction trips as [|trips IH]; intros i s ps Hfail.
  - simpl. case_decide; [lia|done].
  - cbn [split_loop].
    assert (Hseek : failbit (seekg (ss * Z.of_nat i) s) = true
                    ∧ good (seekg (ss * Z.of_nat i) s) = false).
    { unfold seekg, good. rewrite Hfail. by simpl. }
    destruct Hseek as [Hf1 Hg1].
    rewrite (getline_not_good _ Hg1).
    rewrite (tellg_not_good _ (good_setfail _)).
    replace (Z.of_nat i + 1) with (Z.of_nat (S i)) by lia.
    rewrite IH by done. rewrite length_insert, Nat2Z.id.
    destruct (decide (m = i)) as [->|Hne].
    + case_decide; [lia|]. case_decide.
      * by rewrite list_lookup_insert_eq by lia.
      * rewrite list_insert_ge by lia. done.
    + rewrite list_lookup_insert_ne by done.
      repeat case_decide; try done; lia.
Qed.

Lemma no_newline_later cs t t' :
  0 ≤ t ≤ t' → newline ∉ drop (Z.to_nat t) cs → newline ∉ drop (Z.to_nat t') cs.
Proof.
  intros Ht Hnot Hin. apply Hnot.
  replace (Z.to_nat t') with (Z.to_nat t + (Z.to_nat t' - Z.to_nat t))%nat in Hin
    by lia.
  rewrite <- drop_drop in Hin. by apply subseteq_drop in Hin.
Qed.

(** One trip from a target offset with no newline at or after it:
    [getline] runs into the end of the file, [tellg] answers -1 and leaves
    [failbit] set. *)
Lemma split_step_eof s t :
  failbit s = false → 0 ≤ t → newline ∉ drop (Z.to_nat t) (buf s) →
  let s2 := (getline (seekg t s)).2 in
  (tellg s2).1 = -1 ∧ failbit (tellg s2).2 = true ∧ buf (tellg s2).2 = buf s.
Proof.
  intros Hfail Ht Hnot.
  assert (Hs1 : seekg t s = mkIfstream (buf s) t false false).
  { unfold seekg. rewrite Hfail. destruct (Z.ltb_spec t 0); [lia|done]. }
  simpl. rewrite Hs1. unfold getline. simpl.
  destruct (extract_line_spec (drop (Z.to_nat t) (buf s))) as (_ & Hsome & _).
  destruct (extract_line (drop (Z.to_nat t) (buf s))) as [line [|]]; simpl in *.
  - destruct Hnot. rewrite (Hsome eq_refl). set_solver.
  - unfold tellg, good. simpl. done.
Qed.

(** The loop on any file: every boundary is [boundary_of] its target. *)
Lemma split_loop_lookup_any ss trips (i : nat) s ps (m : nat) :
  failbit s = false → 0 ≤ ss →
  (split_loop ss trips (Z.of_nat i) s ps).1 !! m
  = if decide ((i ≤ m < i + trips)%nat ∧ (m < length ps)%nat)
    then Some (boundary_of (buf s) (ss * Z.of_nat m))
    else ps !! m.
Proof.
  intros Hfail Hss. revert i s ps Hfail.
  induction trips as [|trips IH]; intros i s ps Hfail.
  - simpl. case_decide; [lia|done].
  - destruct (decide (newline ∈ drop (Z.to_nat (ss * Z.of_nat i)) (buf s)))
      as [Hin|Hnot].
    + cbn [split_loop].
      destruct (split_step_bytes s (ss * Z.of_nat i) Hfail ltac:(nia) Hin)
        as (Htell & Hfail' & Hbuf').
      simpl in Htell, Hfail', Hbuf'.
      destruct (getline (seekg (ss * Z.of_nat i) s)) as [line s2].
      simpl in Htell, Hfail', Hbuf'. rewrite Htell.
      replace (Z.of_nat i + 1) with (Z.of_nat (S i)) by lia.
      rewrite IH by done. rewrite length_insert, Nat2Z.id, Hbuf'.
      destruct (decide (m = i)) as [->|Hne].
      * case_decide; [lia|]. case_decide.
        -- rewrite list_lookup_insert_eq by lia.
           unfold boundary_of. by rewrite decide_True.
        -- rewrite list_insert_ge by lia. done.
      * rewrite list_lookup_insert_ne by done.
        repeat case_decide; try done; lia.
    + cbn [split_loop].
      destruct (split_step_eof s (ss * Z.of_nat i) Hfail ltac:(nia) Hnot)
        as (Htell & Hfail' & Hbuf').
      simpl in Htell, Hfail', Hbuf'.
      destruct (getline (seekg (ss * Z.of_nat i) s)) as [line s2].
      simpl in Htell, Hfail', Hbuf'.
      destruct (tellg s2) as [p s3]. simpl in Htell, Hfail', Hbuf'. subst p.
      replace (Z.of_nat i + 1) with (Z.of_nat (S i)) by lia.
      rewrite split_loop_failed by done. rewrite length_insert, Nat2Z.id.
      assert (Hlater : ∀ k : nat, (i ≤ k)%nat →
                boundary_of (buf s) (ss * Z.of_nat k) = -1).
      { intros k Hk. unfold boundary_of. rewrite decide_False; [done|].
        apply (no_newline_later _ (ss * Z.of_nat i)); [nia|done]. }
      destruct (decide (m = i)) as [->|Hne].
      * case_decide; [lia|]. case_decide.
        -- rewrite list_lookup_insert_eq by lia. by rewrite Hlater.
        -- rewrite list_insert_ge by lia. done.
      * rewrite list_lookup_insert_ne by done.
        repeat case_decide; try done; try lia.
        by rewrite Hlater by lia.
Qed.

End AnyFile.

(** The result of [SplitFileIntoSections] on any non-empty file. *)
Lemma SplitFileIntoSections_any fs path n bytes :
  files fs !! path = Some bytes → bytes ≠ [] → path ≠ EmptyString → 0 < n →
  ∃ positions,
    SplitFileIntoSections fs path n = Ok positions
    ∧ length positions = Z.to_nat (n + 1)
    ∧ positions !! 0%nat = Some 0
    ∧ positions !! Z.to_nat n = Some (Z.of_nat (length bytes))
    ∧ ∀ j : nat, 0 < Z.of_nat j < n →
        positions !! j
        = Some (boundary_of bytes (Z.of_nat (length bytes) ÷ n * Z.of_nat j)).
Proof.
  intros Hfile Hne Hpath Hn.
  set (size := Z.of_nat (length bytes)) in *.
  assert (Hsize : 0 < size) by (subst size; destruct bytes; [done|simpl; lia]).
  pose proof (Z.quot_pos size n ltac:(lia) Hn) as Hss.
  unfold SplitFileIntoSections.
  destruct (String.eqb_spec path EmptyString) as [|_]; [done|].
  destruct (Z.leb_spec n 0) as [|_]; [lia|]. simpl.
  unfold open_ifstream. rewrite Hfile, get_file_size_open. fold size.
  destruct (Z.leb_spec size 0) as [|_]; [lia|].
  pose proof (split_loop_lookup_any (size ÷ n) (Z.to_nat (n - 1)) 1
                (mkIfstream bytes 0 false false)
                (<[0%nat:=0]> (replicate (Z.to_nat (n + 1)) 0))) as Hlook.
  pose proof (split_loop_length (size ÷ n) (Z.to_nat (n - 1)) 1
                (mkIfstream bytes 0 false false)
                (<[0%nat:=0]> (replicate (Z.to_nat (n + 1)) 0))) as Hlen.
  change (Z.of_nat 1) with 1 in Hlook.
  destruct (split_loop _ _ _ _ _) as [ps s']. simpl in Hlook, Hlen.
  rewrite length_insert, length_replicate in Hlen, Hlook.
  eexists. split; [done|]. split; [by rewrite length_insert|]. split_and!.
  - rewrite list_lookup_insert_ne by lia. rewrite Hlook by done.
    case_decide; [lia|].
    by rewrite list_lookup_insert_eq by (rewrite length_replicate; lia).
  - by rewrite list_lookup_insert_eq by lia.
  - intros j Hj. rewrite list_lookup_insert_ne by lia. rewrite Hlook by done.
    case_decide; [done|lia].
Qed.

(** X1.  How [SplitFileIntoSections] ends.  The arguments are checked
    first: an empty path or a count that is not positive gives
    [std::invalid_argument], whatever the file.  Then a file that cannot be
    opened gives the runtime error "Can't open file" and a file of zero
    bytes the runtime error "File is empty".  In every other case, whatever
    the bytes of the file, the call returns [n + 1] offsets, the first 0
    and the last the size of the file. *)
Theorem SplitFileIntoSections_result fs path n :
  match SplitFileIntoSections fs path n with
  | Throw e =>
      (e = invalid_argument "Invalid argument" ∧ (path = EmptyString ∨ n ≤ 0))
      ∨ (e = runtime_error "Can't open file"
         ∧ path ≠ EmptyString ∧ 0 < n ∧ files fs !! path = None)
      ∨ (e = runtime_error "File is empty"
         ∧ path ≠ EmptyString ∧ 0 < n ∧ files fs !! path = Some [])
  | Ok positions =>
      path ≠ EmptyString ∧ 0 < n
      ∧ ∃ bytes, files fs !! path = Some bytes ∧ bytes ≠ []
                 ∧ length positions = Z.to_nat (n + 1)
                 ∧ positions !! 0%nat = Some 0
                 ∧ positions !! Z.to_nat n = Some (Z.of_nat (length bytes))
  end.
Proof.
  destruct (String.eqb_spec path EmptyString) as [Hpath|Hpath].
  { unfold SplitFileIntoSections. rewrite (proj2 (String.eqb_eq _ _) Hpath).
    simpl. left. auto. }
  destruct (Z.leb_spec n 0) as [Hn|Hn].
  { unfold SplitFileIntoSections. rewrite (proj2 (Z.leb_le _ _) Hn).
    rewrite orb_true_r. left. auto. }
  destruct (files fs !! path) as [bytes|] eqn:Hfile.
  - destruct (decide (bytes = [])) as [->|Hne].
    + unfold SplitFileIntoSections, open_ifstream.
      rewrite (proj2 (String.eqb_neq _ _) Hpath), (proj2 (Z.leb_gt _ _) Hn), Hfile.
      simpl. right. right. auto.
    + destruct (SplitFileIntoSections_any fs path n bytes Hfile Hne Hpath Hn)
        as (positions & -> & Hlen & H0 & Hlast & _).
      split_and!; [done..|]. exists bytes. auto.
  - unfold SplitFileIntoSections, open_ifstream.
    rewrite (proj2 (String.eqb_neq _ _) Hpath), (proj2 (Z.leb_gt _ _) Hn), Hfile.
    simpl. right. left. auto.
Qed.

(** X2.  The inner boundaries of [SplitFileIntoSections] on any file.
    When a newline occurs at or after the target offset
    [j * (size / n)], boundary [j] is the offset behind the first such
    newline.  When none does, boundary [j] is -1, and so is every inner
    boundary after it: the stream has failed and stays failed. *)
Theorem SplitFileIntoSections_inner fs path n bytes positions (j : nat) :
  files fs !! path = Some bytes →
  SplitFileIntoSections fs path n = Ok positions →
  0 < Z.of_nat j < n →
  let t := Z.of_nat (length bytes) ÷ n * Z.of_nat j in
  (∀ e : nat,
     t ≤ Z.of_nat e → bytes !! e = Some newline →
     (∀ e' : nat, t ≤ Z.of_nat e' → (e' < e)%nat → bytes !! e' ≠ Some newline) →
     positions !! j = Some (Z.of_nat e + 1))
  ∧ ((∀ e : nat, t ≤ Z.of_nat e → bytes !! e ≠ Some newline) →
     ∀ j' : nat, (j ≤ j')%nat → Z.of_nat j' < n → positions !! j' = Some (-1)).
Proof.
  intros Hfile Hsplit Hj t.
  destruct (SplitFileIntoSections_inv _ _ _ _ Hsplit)
    as (Hpath & Hn & bytes' & Hfile' & Hne).
  assert (bytes' = bytes) as -> by congruence.
  destruct (SplitFileIntoSections_any fs path n bytes Hfile Hne Hpath Hn)
    as (positions' & Hsplit' & _ & _ & _ & Hinner).
  assert (positions' = positions) as -> by congruence.
  pose proof (Z.quot_pos (Z.of_nat (length bytes)) n ltac:(lia) Hn) as Hss.
  split.
  - intros e He Hnew Hfirst. rewrite (Hinner j Hj). fold t. f_equal.
    unfold boundary_of.
    assert (Hin : newline ∈ drop (Z.to_nat t) bytes)
      by (apply (newline_after_drop bytes t e); [subst t; nia|done]).
    rewrite decide_True by done.
    destruct (after_newline_spec bytes t ltac:(subst t; nia) Hin)
      as (e0 & -> & Hge0 & Hnew0 & Hfirst0).
    destruct (decide (e0 < e)%nat) as [Hlt|].
    { destruct (Hfirst e0 Hge0 Hlt Hnew0). }
    destruct (decide (e < e0)%nat) as [Hlt|]; [|lia].
    destruct (Hfirst0 e He Hlt Hnew).
  - intros Hnone j' Hjj' Hj'. rewrite (Hinner j' ltac:(lia)).
    f_equal. unfold boundary_of. rewrite decide_False; [done|].
    intros [i Hi]%list_elem_of_lookup. rewrite lookup_drop in Hi.
    eapply Hnone; [|exact Hi]. subst t. nia.
Qed.

Lemma SplitFileIntoSections_inner_witness :
  [0; 4; -1; 10] !! 1%nat = Some (Z.of_nat 3 + 1)
  ∧ [0; 4; -1; 10] !! 2%nat = Some (-1).
Proof.
  pose proof (λ j, SplitFileIntoSections_inner
                (fs_with "in" ("a" +:+ endl +:+ "b" +:+ endl +:+ "cdefgh")) "in" 3
                (bytes ("a" +:+ endl +:+ "b" +:+ endl +:+ "cdefgh"))
                [0; 4; -1; 10] j eq_refl eq_refl) as H.
  cbv zeta in H.
  change (Z.of_nat (length (bytes ("a" +:+ endl +:+ "b" +:+ endl +:+ "cdefgh"))) ÷ 3)
    with 3 in H.
  split.
  - apply (proj1 (H 1%nat ltac:(lia)) 3%nat); [lia|reflexivity|].
    intros e' Hge Hlt. lia.
  - apply (proj2 (H 2%nat ltac:(lia))); [|lia|lia].
    intros e He.
    do 10 (destruct e as [|e]; [first [lia|discriminate]|]). discriminate.
Defined.

(** * MapSection on any file *)

Section AnyMap.

Implicit Types (cs : list ascii) (s : ifstream) (out : list string).

(** The loop only appends to [output_list]. *)
Lemma map_loop_prefix fuel f end_pos : ∀ s out res,
  map_loop fuel f end_pos s out = Some res → out `prefix_of` res.
Proof.
  induction fuel as [|fuel IH]; intros s out res; [done|]. simpl.
  destruct (tellg s) as [p s1]. destruct (p <? end_pos); [|by intros [= <-]].
  destruct (getline s1) as [line s2].
  destruct (negb (failbit s2)); [|by intros [= <-]].
  intros Hres%IH. etrans; [|done]. by apply prefix_app_r.
Qed.

Lemma split_lines_no_newline cs :
  newline ∉ cs → cs ≠ [] → split_lines cs = [cs].
Proof.
  induction cs as [|c cs IH]; intros Hnl Hne; [done|]. simpl.
  destruct (Ascii.eqb_spec c newline) as [->|_]; [set_solver|].
  destruct cs as [|c' cs]; [done|].
  rewrite IH by set_solver. done.
Qed.

(** No line of a text holds a newline. *)
Lemma text_lines_no_newline cs : Forall no_newline (text_lines cs).
Proof.
  unfold text_lines, no_newline.
  induction cs as [|c cs IH]; [constructor|]. simpl.
  destruct (Ascii.eqb_spec c newline) as [->|Hc].
  - rewrite fmap_cons. constructor; [simpl; set_solver|done].
  - destruct (split_lines cs) as [|line lines].
    + repeat constructor. simpl. set_solver.
    + rewrite !fmap_cons in IH |- *. apply Forall_cons in IH as [Hl Hls].
      constructor; [|done].
      rewrite list_ascii_of_string_of_list_ascii in Hl |- *. set_solver.
Qed.

(** The loop of [MapSection] with a bound at or behind the end of the
    file maps every line from the get position on, a last line without
    newline included. *)
Lemma map_loop_to_end f end_pos (n : nat) : ∀ s out fuel,
  good s = true → 0 ≤ gpos s → Z.of_nat (length (buf s)) ≤ end_pos →
  (remaining s ≤ n)%nat → (n + 2 ≤ fuel)%nat →
  map_loop fuel f end_pos s out
  = Some (out ++ flat_map f (text_lines (drop (Z.to_nat (gpos s)) (buf s)))).
Proof.
  induction n as [|n IH]; intros s out fuel Hgood Hpos Hend Hrem Hfuel;
    (destruct fuel as [|fuel]; [lia|]); cbn [map_loop];
    rewrite (tellg_good s Hgood); unfold remaining in Hrem.
  - apply Nat.le_0_r, nil_length_inv in Hrem. rewrite Hrem.
    cbn. rewrite app_nil_r.
    destruct (gpos s <? end_pos); [|done].
    unfold getline. rewrite Hgood, Hrem. simpl. done.
  - destruct (drop (Z.to_nat (gpos s)) (buf s)) as [|c cs] eqn:Hdrop.
    { cbn. rewrite app_nil_r.
      destruct (gpos s <? end_pos); [|done].
      unfold getline. rewrite Hgood, Hdrop. simpl. done. }
    assert (Hlt : gpos s < end_pos).
    { apply (f_equal length) in Hdrop. rewrite length_drop in Hdrop.
      simpl in Hdrop. lia. }
    rewrite (proj2 (Z.ltb_lt _ _) Hlt).
    unfold getline. rewrite Hgood, Hdrop.
    destruct (extract_line_spec (c :: cs)) as (Hnl & Hsome & Hnone).
    pose proof (extract_line_length (c :: cs)) as Hlen.
    destruct (extract_line (c :: cs)) as [line [|]]; simpl in Hnl, Hsome, Hnone, Hlen.
    + cbn [negb failbit].
      specialize (Hsome eq_refl).
      assert (Hdrop' : drop (Z.to_nat (gpos s + Z.of_nat (length line) + 1)) (buf s)
                       = drop (S (length line)) (c :: cs)).
      { rewrite <- Hdrop, drop_drop. f_equal. lia. }
      rewrite IH; simpl; try done; try lia.
      * rewrite Hdrop'. rewrite Hsome at 2.
        unfold text_lines. rewrite split_lines_app by done.
        rewrite fmap_cons. simpl. by rewrite (assoc_L (++)).
      * unfold remaining. simpl. rewrite Hdrop', length_drop. simpl in *. lia.
    + specialize (Hnone eq_refl). subst line.
      destruct (Z.eqb_spec (Z.of_nat (length (c :: cs))) 0) as [Hz|_];
        [simpl in Hz; lia|].
      cbn [negb failbit].
      destruct fuel as [|fuel]; [lia|].
      rewrite map_loop_not_good by done.
      unfold text_lines. rewrite split_lines_no_newline by done.
      simpl. by rewrite app_nil_r.
Qed.

End AnyMap.

Lemma MapSection_from fs path bytes start_pos end_pos f out :
  files fs !! path = Some bytes → path ≠ EmptyString →
  0 ≤ start_pos → Z.of_nat (length bytes) ≤ end_pos →
  MapSection fs path start_pos end_pos (Some f) out
  = Some (Ok (out ++ flat_map f (text_lines (drop (Z.to_nat start_pos) bytes)))).
Proof.
  intros Hfile Hpath Hstart Hend. unfold MapSection, open_ifstream.
  destruct (String.eqb_spec path EmptyString) as [|_]; [done|].
  rewrite Hfile.
  assert (Hseek : seekg start_pos (mkIfstream bytes 0 false false)
                  = mkIfstream bytes start_pos false false).
  { unfold seekg. simpl. destruct (Z.ltb_spec start_pos 0); [lia|done]. }
  rewrite Hseek.
  rewrite (map_loop_to_end f end_pos (length bytes));
    [done|done|simpl; lia|simpl; lia
    |unfold remaining; simpl; rewrite length_drop; lia
    |unfold map_fuel; simpl; lia].
Qed.

(** X3.  How [MapSection] ends.  An empty path or an unset map function
    gives [std::invalid_argument]; otherwise a file that cannot be opened
    gives the runtime error "Can't open file"; otherwise the call returns,
    and the list it leaves in [output_list] starts with what the list held
    before: [MapSection] only appends. *)
Theorem MapSection_result fs path start_pos end_pos f out :
  match MapSection fs path start_pos end_pos f out with
  | Some (Throw e) =>
      (e = invalid_argument "Invalid argument" ∧ (path = EmptyString ∨ f = None))
      ∨ (e = runtime_error "Can't open file"
         ∧ path ≠ EmptyString ∧ is_Some f ∧ files fs !! path = None)
  | Some (Ok out') =>
      path ≠ EmptyString ∧ is_Some f ∧ is_Some (files fs !! path)
      ∧ out `prefix_of` out'
  | None => False
  end.
Proof.
  pose proof (MapSection_terminates fs path start_pos end_pos f out) as [r Hr].
  rewrite Hr. revert Hr. unfold MapSection, open_ifstream.
  destruct f as [f|]; [|intros [= <-]; left; auto].
  destruct (String.eqb_spec path EmptyString) as [Hpath|Hpath];
    [intros [= <-]; left; auto|].
  destruct (files fs !! path) as [bytes|];
    [|intros [= <-]; right; split_and!; [done|done|by eexists|done]].
  destruct (map_loop _ _ _ _ _) as [res|] eqn:Hloop; [|done].
  intros [= <-]. split_and!; [done|by eexists|by eexists|].
  by eapply map_loop_prefix.
Qed.

(** X4.  [MapSection] from an offset that is not negative up to the end of
    the file, or beyond it, applies the map function to every line of the
    bytes from that offset on, in order, and appends the results; bytes
    after the last newline count as a last line. *)
Theorem MapSection_to_end fs path bytes start_pos end_pos f out :
  files fs !! path = Some bytes → path ≠ EmptyString →
  0 ≤ start_pos → Z.of_nat (length bytes) ≤ end_pos →
  MapSection fs path start_pos end_pos (Some f) out
  = Some (Ok (out ++ flat_map f (text_lines (drop (Z.to_nat start_pos) bytes)))).
Proof. apply MapSection_from. Qed.

Lemma MapSection_to_end_witness :
  MapSection (fs_with "in" ("a" +:+ endl +:+ "bcd")) "in" 2 5 (Some map_func) ["x"]
  = Some (Ok ["x"; "bcd"]).
Proof.
  apply (MapSection_to_end (fs_with "in" ("a" +:+ endl +:+ "bcd")) "in"
           (bytes ("a" +:+ endl +:+ "bcd")) 2 5 map_func ["x"]).
  - reflexivity.
  - discriminate.
  - lia.
  - simpl. lia.
Defined.

(** X5.  [MapSection] on a section that starts at a negative offset, as
    after a boundary of -1, or that ends at or before its start reads no
    line: [output_list] is returned as it was. *)
Theorem MapSection_empty_section fs path start_pos end_pos f out :
  is_Some (files fs !! path) → path ≠ EmptyString →
  start_pos < 0 ∨ end_pos ≤ start_pos →
  MapSection fs path start_pos end_pos (Some f) out = Some (Ok out).
Proof.
  intros [bytes Hfile] Hpath Hrange. unfold MapSection, open_ifstream.
  destruct (String.eqb_spec path EmptyString) as [|_]; [done|].
  rewrite Hfile. unfold map_fuel. rewrite seekg_buf. simpl.
  replace (length bytes + 2)%nat with (S (length bytes + 1)) by lia.
  destruct (Z.ltb_spec start_pos 0) as [Hneg|Hpos].
  - rewrite map_loop_not_good; [done|].
    unfold seekg, good. simpl. by rewrite (proj2 (Z.ltb_lt _ _) Hneg).
  - assert (Hseek : seekg start_pos (mkIfstream bytes 0 false false)
                    = mkIfstream bytes start_pos false false).
    { unfold seekg. simpl. by rewrite (proj2 (Z.ltb_ge _ _) Hpos). }
    rewrite Hseek. cbn [map_loop]. unfold tellg, good. simpl.
    destruct (Z.ltb_spec start_pos end_pos); [lia|done].
Qed.

Lemma MapSection_empty_section_witness :
  MapSection (fs_with "in" abac) "in" (-1) 8 (Some map_func) ["x"] = Some (Ok ["x"])
  ∧ MapSection (fs_with "in" abac) "in" 6 6 (Some map_func) ["x"] = Some (Ok ["x"]).
Proof.
  split.
  - apply (MapSection_empty_section (fs_with "in" abac) "in" (-1) 8 map_func ["x"]).
    + by eexists.
    + discriminate.
    + left. lia.
  - apply (MapSection_empty_section (fs_with "in" abac) "in" 6 6 map_func ["x"]).
    + by eexists.
    + discriminate.
    + right. lia.
Defined.

(** * More on Shuffle *)

Section Buckets.

Implicit Types (r j c : Z) (k x : string) (keys items : list string).

Lemma occurrences_replicate k items :
  occurrences k items = replicate (length (occurrences k items)) k.
Proof.
  unfold occurrences. induction items as [|x items IH]; [done|].
  destruct (decide (x = k)) as [->|Hne].
  - rewrite filter_cons_True by done. simpl. by rewrite <- IH.
  - by rewrite filter_cons_False.
Qed.

(** The occurrences of a key do not depend on the order of emission. *)
Lemma occurrences_perm k items items' :
  items ≡ₚ items' → occurrences k items = occurrences k items'.
Proof.
  intros Hperm.
  rewrite (occurrences_replicate k items), (occurrences_replicate k items').
  f_equal. unfold occurrences. by rewrite Hperm.
Qed.

Lemma round_robin_perm r j c keys items items' :
  items ≡ₚ items' → round_robin r j c keys items = round_robin r j c keys items'.
Proof.
  intros Hperm. revert c. induction keys as [|k keys IH]; intros c; [done|].
  simpl. by rewrite IH, (occurrences_perm k items items').
Qed.

Lemma key_le_refl k : key_le k k.
Proof. unfold key_le. by rewrite KeyOrder.refl. Qed.

Lemma key_lt_le k x : key_lt k x → key_le k x.
Proof. unfold key_lt, key_le. by intros ->. Qed.

Lemma replicate_sorted (n : nat) k : StronglySorted key_le (replicate n k).
Proof.
  induction n as [|n IH]; simpl; constructor; [done|].
  apply Forall_forall. intros x [-> _]%elem_of_replicate. apply key_le_refl.
Qed.

Lemma round_robin_sorted r j c keys items :
  StronglySorted key_lt keys →
  StronglySorted key_le (round_robin r j c keys items).
Proof.
  intros Hs. revert c. induction Hs as [|k keys Hs IH Hk]; intros c; simpl.
  - constructor.
  - apply StronglySorted_app_2; [| |apply IH].
    + intros x1 x2 Hx1 Hx2.
      assert (x1 = k) as ->.
      { case_bool_decide; [|set_solver].
        by apply list_elem_of_filter in Hx1 as [-> _]. }
      apply round_robin_elem in Hx2 as (n & Hn%list_elem_of_lookup_2 & _).
      rewrite Forall_forall in Hk. by apply key_lt_le, Hk.
    + case_bool_decide; [|constructor].
      rewrite occurrences_replicate. apply replicate_sorted.
Qed.

(** The key at position [n] of the iteration goes, with its occurrences,
    to the bucket that the counter names then. *)
Lemma round_robin_holds r j c keys items (n : nat) k :
  keys !! n = Some k → k ∈ items → (c + Z.of_nat n) `mod` r = j →
  k ∈ round_robin r j c keys items.
Proof.
  revert c n. induction keys as [|k0 keys IH]; intros c n Hn Hk Hmod; [done|].
  simpl. apply elem_of_app. destruct n as [|n].
  - left. injection Hn as ->. rewrite Z.add_0_r in Hmod.
    rewrite bool_decide_eq_true_2 by done.
    apply list_elem_of_filter. done.
  - right. apply (IH (c + 1) n); [done|done|].
    by replace (c + 1 + Z.of_nat n) with (c + Z.of_nat (S n)) by lia.
Qed.

End Buckets.

(** X6.  [Shuffle] looks at the mapped items as a multiset: two
    collections of mapper outputs that hold the same items with the same
    multiplicities, however they are spread over the mappers and in
    whatever order they were emitted, give the same buckets (or the same
    exception). *)
Theorem Shuffle_multiset mo mo' r :
  mo ≠ [] → mo' ≠ [] → concat mo ≡ₚ concat mo' → Shuffle mo r = Shuffle mo' r.
Proof.
  intros Hmo Hmo' Hperm.
  destruct (Shuffle mo r) as [bs|e] eqn:Hs; destruct (Shuffle mo' r) as [bs'|e'] eqn:Hs'.
  - f_equal.
    destruct (Shuffle_buckets _ _ _ Hs) as [Hlen Hb].
    destruct (Shuffle_buckets _ _ _ Hs') as [Hlen' Hb'].
    destruct (group_results_spec mo) as (Hsorted & Hdom & _).
    destruct (group_results_spec mo') as (Hsorted' & Hdom' & _).
    assert (Hkeys : (group_results mo).*1 = (group_results mo').*1).
    { apply KeyOrder.sorted_unique; [done..|].
      intros k. by rewrite Hdom, Hdom', Hperm. }
    apply list_eq. intros n.
    destruct (decide (n < Z.to_nat r)%nat) as [Hn|Hn].
    + rewrite <- (Nat2Z.id n), Hb, Hb' by lia.
      by rewrite Hkeys, (round_robin_perm _ _ _ _ _ _ Hperm).
    + rewrite !(proj2 (lookup_ge_None _ _)) by lia. done.
  - exfalso. revert Hs Hs'. unfold Shuffle.
    rewrite !bool_decide_eq_false_2 by done. simpl. by destruct (r <=? 0).
  - exfalso. revert Hs Hs'. unfold Shuffle.
    rewrite !bool_decide_eq_false_2 by done. simpl. by destruct (r <=? 0).
  - revert Hs Hs'. unfold Shuffle.
    rewrite !bool_decide_eq_false_2 by done. simpl.
    destruct (r <=? 0); [congruence|done].
Qed.

Lemma Shuffle_multiset_witness :
  Shuffle [["a"; "b"]; ["a"; "c"]]%string 2 = Shuffle [["b"; "a"; "c"; "a"]]%string 2.
Proof.
  apply Shuffle_multiset; [discriminate|discriminate|].
  simpl. etrans; [apply perm_swap|]. do 2 apply perm_skip. apply perm_swap.
Defined.

Lemma bucket_sorted mo r bs (j : nat) b :
  Shuffle mo r = Ok bs → bs !! j = Some b → StronglySorted key_le b.
Proof.
  intros Hs Hb. destruct (Shuffle_buckets _ _ _ Hs) as [Hlen Hbs].
  pose proof (lookup_lt_Some _ _ _ Hb) as Hj.
  rewrite <- (Nat2Z.id j), Hbs in Hb by lia. injection Hb as <-.
  apply round_robin_sorted. by destruct (group_results_spec mo).
Qed.

Lemma bucket_empty_iff mo r bs j :
  Shuffle mo r = Ok bs → 0 ≤ j < r →
  bs !! Z.to_nat j = Some [] ↔ Z.of_nat (distinct (concat mo)) ≤ j.
Proof.
  intros Hs Hj. destruct (Shuffle_buckets _ _ _ Hs) as [Hlen Hbs].
  rewrite Hbs by done. rewrite <- group_results_distinct. split.
  - intros [= Hnil].
    destruct (decide (Z.of_nat (length (group_results mo).*1) ≤ j)) as [|Hlt];
      [done|exfalso].
    destruct (lookup_lt_is_Some_2 (group_results mo).*1 (Z.to_nat j)) as [k Hk];
      [lia|].
    destruct (group_results_spec mo) as (_ & Hdom & _).
    pose proof (round_robin_holds r j 0 _ (concat mo) _ k Hk
                  (proj1 (Hdom k) (list_elem_of_lookup_2 _ _ _ Hk))) as Hin.
    rewrite Hnil in Hin. apply (not_elem_of_nil k), Hin.
    rewrite Z.add_0_l, Z2Nat.id by lia. apply Z.mod_small. lia.
  - intros Hge. f_equal. apply round_robin_beyond; lia.
Qed.

(** X7.  Every bucket that [Shuffle] returns lists its items in ascending
    order, equal items next to each other. *)
Theorem Shuffle_buckets_sorted mo r bs (j : nat) b :
  Shuffle mo r = Ok bs → bs !! j = Some b → StronglySorted key_le b.
Proof. apply bucket_sorted. Qed.

Lemma Shuffle_buckets_sorted_witness :
  StronglySorted key_le ["a"; "a"; "c"]%string.
Proof.
  apply (Shuffle_buckets_sorted [["a"; "b"]; ["a"; "c"]]%string 2
           [["a"; "a"; "c"]; ["b"]]%string 0); reflexivity.
Defined.

(** X8.  Among the buckets of a successful [Shuffle] the empty ones are
    those numbered from the count of distinct mapped items on: bucket [j]
    is empty exactly when that count is at most [j]. *)
Theorem Shuffle_empty_iff mo r bs j :
  Shuffle mo r = Ok bs → 0 ≤ j < r →
  bs !! Z.to_nat j = Some [] ↔ Z.of_nat (distinct (concat mo)) ≤ j.
Proof. apply bucket_empty_iff. Qed.

Lemma Shuffle_empty_iff_witness :
  [["a"; "a"]; ["b"]; []]%string !! Z.to_nat 2 = Some []
  ↔ Z.of_nat (distinct (concat [["a"; "b"; "a"]]%string)) ≤ 2.
Proof.
  apply (Shuffle_empty_iff [["a"; "b"; "a"]]%string 3
           [["a"; "a"]; ["b"]; []]%string 2); [reflexivity|lia].
Defined.

(** * More on the reducing phase *)

Section MoreReducers.

Implicit Types (bs : list (list string)) (rs : list (string * result unit))
  (i : Z) (b : list string).

Lemma output_file_name_nonempty i : output_file_name i ≠ EmptyString.
Proof. done. Qed.

Lemma ReduceContainer_writable b f name fs :
  writable (ReduceContainer b f name fs).2 = writable fs.
Proof.
  unfold ReduceContainer. destruct f as [f|]; [|done].
  destruct (_ || _); [done|]. by destruct (writable fs name).
Qed.

(** With a reduce function, [ReduceContainer] returns exactly when the
    bucket and the name are not empty and the file can be opened. *)
Lemma ReduceContainer_returns b f name fs :
  (ReduceContainer b (Some f) name fs).1 = Ok ()
  ↔ b ≠ [] ∧ name ≠ EmptyString ∧ writable fs name = true.
Proof.
  unfold ReduceContainer. case_bool_decide as Hb; simpl.
  { split; [done|]. by intros (? & _). }
  destruct (String.eqb_spec name EmptyString) as [Hn|Hn]; simpl.
  { split; [done|]. by intros (_ & ? & _). }
  destruct (writable fs name); simpl; [done|].
  split; [done|]. by intros (_ & _ & ?).
Qed.

Lemma spawn_reducers_writable bs trips i fs :
  writable (spawn_reducers bs trips i fs).2 = writable fs.
Proof.
  revert i fs. induction trips as [|trips IH]; intros i fs; [done|].
  cbn [spawn_reducers].
  pose proof (ReduceContainer_writable (bs !!! Z.to_nat i) (Some reduce_func)
                (output_file_name i) fs) as Hw.
  destruct (ReduceContainer _ _ _ _) as [r fs1]. simpl in Hw.
  specialize (IH (i + 1) fs1).
  destruct (spawn_reducers _ _ _ _) as [rs fs2]. simpl in IH |- *. congruence.
Qed.

(** No reducer throws exactly when every bucket is non-empty and every
    artifact can be opened. *)
Lemma spawn_reducers_all_return bs trips i fs :
  first_thrown (spawn_reducers bs trips i fs).1 = None
  ↔ ∀ n : nat, (n < trips)%nat →
      bs !!! Z.to_nat (i + Z.of_nat n) ≠ []
      ∧ writable fs (output_file_name (i + Z.of_nat n)) = true.
Proof.
  revert i fs. induction trips as [|trips IH]; intros i fs.
  { split; [intros _ n Hn; lia|done]. }
  cbn [spawn_reducers].
  pose proof (ReduceContainer_returns (bs !!! Z.to_nat i) reduce_func
                (output_file_name i) fs) as Hret.
  pose proof (ReduceContainer_writable (bs !!! Z.to_nat i) (Some reduce_func)
                (output_file_name i) fs) as Hw.
  destruct (ReduceContainer _ _ _ _) as [r fs1]. simpl in Hret, Hw.
  specialize (IH (i + 1) fs1).
  destruct (spawn_reducers _ _ _ _) as [rs fs2]. simpl in IH |- *.
  rewrite Hw in IH. split.
  - destruct r as [[]|e]; [|done]. intros Hrs n Hn.
    destruct n as [|n].
    + rewrite Z.add_0_r. destruct (proj1 Hret eq_refl) as (? & _ & ?). done.
    + replace (i + Z.of_nat (S n)) with (i + 1 + Z.of_nat n) by lia.
      apply (proj1 IH Hrs). lia.
  - intros Hall.
    destruct (Hall 0%nat ltac:(lia)) as [Hb Hwr]. rewrite Z.add_0_r in Hb, Hwr.
    destruct r as [[]|e].
    + apply IH. intros n Hn. specialize (Hall (S n) ltac:(lia)).
      by replace (i + 1 + Z.of_nat n) with (i + Z.of_nat (S n)) by lia.
    + assert (Throw e = Ok ()) by
        (apply Hret; split_and!; [done|apply output_file_name_nonempty|done]).
      done.
Qed.

Lemma spawn_reducers_names bs trips i fs :
  (spawn_reducers bs trips i fs).1.*1
  = output_file_name <$> seqZ i (Z.of_nat trips).
Proof.
  revert i fs. induction trips as [|trips IH]; intros i fs; [done|].
  cbn [spawn_reducers]. destruct (ReduceContainer _ _ _ _) as [r fs1].
  specialize (IH (i + 1) fs1).
  destruct (spawn_reducers _ _ _ _) as [rs fs2]. cbn [fst] in IH |- *.
  rewrite (seqZ_cons i) by lia. rewrite !fmap_cons. cbn [fst]. rewrite IH.
  do 3 f_equal; lia.
Qed.

Lemma written_by_all rs : first_thrown rs = None → written_by rs = rs.*1.
Proof.
  induction rs as [|[name [[]|e]] rs IH]; intros H; simplify_eq/=; [done|].
  f_equal. by apply IH.
Qed.

End MoreReducers.

(** * More on the whole pipeline *)


Lemma Shuffle_throws mo r :
  mo = [] ∨ r ≤ 0 → Shuffle mo r = Throw (invalid_argument "Invalid argument").
Proof.
  intros H. unfold Shuffle. case_bool_decide; [done|].
  destruct (Z.leb_spec r 0); [done|]. destruct H; [done|lia].
Qed.


(** The [try] block once the first three stages have returned. *)
Lemma pipeline_stages fs path mnum rnum positions mo bs :
  SplitFileIntoSections fs path mnum = Ok positions →
  join_mappers
    (spawn_mappers fs path positions (Z.to_nat mnum) 0
       (replicate (Z.to_nat mnum) []))
  = Some (Ok mo) →
  Shuffle mo rnum = Ok bs →
  pipeline fs path mnum rnum
  = mkTry (match first_thrown (spawn_reducers bs (Z.to_nat rnum) 0 fs).1 with
           | Some e => Failed Reducing e
           | None => Done
           end)
      (spawn_reducers bs (Z.to_nat rnum) 0 fs).2 (Z.to_nat mnum) (Z.to_nat rnum)
      (written_by (spawn_reducers bs (Z.to_nat rnum) 0 fs).1).
Proof.
  intros Hs Hm Hsh. unfold pipeline. rewrite Hs, Hm, Hsh.
  destruct (spawn_reducers _ _ _ _) as [rs fs']. simpl.
  by destruct (first_thrown rs).
Qed.

(** A [try] block that reached its end went through all four stages. *)
Lemma pipeline_Done fs path mnum rnum :
  final (pipeline fs path mnum rnum) = Done →
  ∃ positions mo bs,
    SplitFileIntoSections fs path mnum = Ok positions
    ∧ join_mappers
        (spawn_mappers fs path positions (Z.to_nat mnum) 0
           (replicate (Z.to_nat mnum) []))
      = Some (Ok mo)
    ∧ Shuffle mo rnum = Ok bs
    ∧ first_thrown (spawn_reducers bs (Z.to_nat rnum) 0 fs).1 = None.
Proof.
  intros Hdone.
  destruct (SplitFileIntoSections fs path mnum) as [positions|e] eqn:Hs;
    [|by unfold pipeline in Hdone; rewrite Hs in Hdone].
  destruct (join_mappers
              (spawn_mappers fs path positions (Z.to_nat mnum) 0
                 (replicate (Z.to_nat mnum) []))) as [[mo|e]|] eqn:Hm;
    [|by unfold pipeline in Hdone; rewrite Hs, Hm in Hdone..].
  destruct (Shuffle mo rnum) as [bs|e] eqn:Hsh;
    [|by unfold pipeline in Hdone; rewrite Hs, Hm, Hsh in Hdone].
  rewrite (pipeline_stages _ _ _ _ _ _ _ Hs Hm Hsh) in Hdone. simpl in Hdone.
  exists positions, mo, bs. split_and!; [done..|].
  by destruct (first_thrown _).
Qed.




(** The input file is not protected: named like an artifact, it is
    opened for writing by the reducer of that number and overwritten. *)
Example input_named_like_artifact :
  files (fs_with "output_0.txt" abac) !! "output_0.txt"%string = Some (bytes abac)
  ∧ final (pipeline (fs_with "output_0.txt" abac) "output_0.txt" 1 1) = Done
  ∧ files (disk (pipeline (fs_with "output_0.txt" abac) "output_0.txt" 1 1))
      !! "output_0.txt"%string
    = Some (bytes ("a" +:+ endl +:+ "a" +:+ endl +:+ "b" +:+ endl +:+ "c" +:+ endl)).
Proof. repeat split; reflexivity. Qed.

(** X10.  Whatever its arguments and however it ends, the [try] block of
    [main] leaves every path alone that is not one of [output_0.txt], ...,
    [output_<rnum-1>.txt]: under such a path the disk holds afterwards the
    content it held before, or as little as before.  The path of the
    input file is such a path unless the input is itself named like an
    artifact. *)
Theorem pipeline_keeps_other_files fs path mnum rnum name :
  (∀ j, 0 ≤ j < rnum → name ≠ output_file_name j) →
  files (disk (pipeline fs path mnum rnum)) !! name = files fs !! name.
Proof.
  intros Hname. unfold pipeline.
  destruct (SplitFileIntoSections fs path mnum) as [positions|e]; [|done].
  destruct (join_mappers _) as [[mo|e]|]; [|done..].
  destruct (Shuffle mo rnum) as [bs|e]; [|done].
  pose proof (spawn_reducers_other bs (Z.to_nat rnum) 0 fs name) as Hother.
  destruct (spawn_reducers _ _ _ _) as [rs fs']. simpl in Hother.
  assert (files fs' !! name = files fs !! name) as Heq.
  { apply Hother. intros n Hn. apply Hname. lia. }
  by destruct (first_thrown rs).
Qed.

Lemma pipeline_keeps_other_files_witness :
  files (disk (pipeline (fs_with "in" abac) "in" 2 2)) !! "in"%string
  = files (fs_with "in" abac) !! "in"%string.
Proof.
  apply (pipeline_keeps_other_files (fs_with "in" abac) "in" 2 2 "in").
  intros j Hj. assert (j = 0 ∨ j = 1) as [-> | ->] by lia; discriminate.
Defined.





(** X13.  An artifact can be read back: after [ReduceContainer] has
    returned, the file it was given holds the reduced items, one per line,
    and, when no item contains a newline, [MapSection] over the whole of
    that file with the identity map function returns the reduced items. *)
Theorem ReduceContainer_read_back b f name fs fs' :
  ReduceContainer b (Some f) name fs = (Ok (), fs') →
  Forall no_newline (f b) →
  files fs' !! name = Some (write_lines (f b))
  ∧ MapSection fs' name 0 (Z.of_nat (length (write_lines (f b))))
      (Some map_func) []
    = Some (Ok (f b)).
Proof.
  intros Hred Hnl. unfold ReduceContainer in Hred.
  destruct (bool_decide (b = [])); [done|].
  destruct (String.eqb_spec name EmptyString) as [|Hname]; [done|].
  simpl in Hred. destruct (writable fs name); [|done].
  injection Hred as <-.
  assert (files (mkFS (<[name:=write_lines (f b)]> (files fs)) (writable fs))
            !! name = Some (write_lines (f b))) as Hfile
    by apply lookup_insert_eq.
  split; [done|].
  rewrite (MapSection_from _ _ _ _ _ _ _ Hfile Hname) by lia.
  change (Z.to_nat 0) with 0%nat. rewrite drop_0, flat_map_map_func.
  by rewrite text_lines_write_lines.
Qed.

Lemma ReduceContainer_read_back_witness :
  files (ReduceContainer ["b"; "a"]%string (Some reduce_func) "out"
           (fs_with "in" abac)).2 !! "out"%string
  = Some (write_lines (reduce_func ["b"; "a"]%string))
  ∧ MapSection
      (ReduceContainer ["b"; "a"]%string (Some reduce_func) "out"
         (fs_with "in" abac)).2
      "out" 0
      (Z.of_nat (length (write_lines (reduce_func ["b"; "a"]%string))))
      (Some map_func) []
    = Some (Ok (reduce_func ["b"; "a"]%string)).
Proof.
  apply (ReduceContainer_read_back ["b"; "a"]%string reduce_func "out"
           (fs_with "in" abac)).
  - reflexivity.
  - exact (text_lines_no_newline (bytes ("b" +:+ endl +:+ "a" +:+ endl))).
Defined.

Lemma SplitFileIntoSections_invalid fs path n :
  path = EmptyString ∨ n ≤ 0 →
  SplitFileIntoSections fs path n = Throw (invalid_argument "Invalid argument").
Proof.
  intros H. unfold SplitFileIntoSections.
  destruct (String.eqb_spec path EmptyString); [done|].
  destruct (Z.leb_spec n 0); [done|]. destruct H; [done|lia].
Qed.

(** X14.  A mapper count that [atoi] reads as zero or less (a text that
    is no number, or a number that wraps to such a value, too) makes
    sectioning throw before any thread is started;
    a reducer count of zero or less, on a non-empty file that can be
    opened, makes shuffling throw after the mappers have run.  Either way
    [main] prints [Invalid argument] to standard error and returns 0, no
    reducer is started and nothing is written. *)
Theorem main_invalid_counts prog path m r fs :
  atoi m ≤ 0
  ∨ (atoi r ≤ 0 ∧ path ≠ EmptyString
     ∧ ∃ bytes, files fs !! path = Some bytes ∧ bytes ≠ []) →
  ∃ t,
    main [prog; path; m; r] fs
    = mkProcess (Exited 0) EmptyString (Printed ("Invalid argument" +:+ endl))
        (Some t)
    ∧ final t = Failed (if decide (atoi m ≤ 0) then Sectioning else Shuffling)
                  (invalid_argument "Invalid argument")
    ∧ disk t = fs ∧ reducers_spawned t = 0%nat ∧ written t = [].
Proof.
  intros H. exists (pipeline fs path (atoi m) (atoi r)).
  assert (pipeline fs path (atoi m) (atoi r)
          = mkTry (Failed (if decide (atoi m ≤ 0) then Sectioning else Shuffling)
                     (invalid_argument "Invalid argument"))
              fs (if decide (atoi m ≤ 0) then 0 else Z.to_nat (atoi m)) 0 [])
    as Hp.
  { case_decide as Hm.
    - unfold pipeline. by rewrite SplitFileIntoSections_invalid by auto.
    - destruct H as [|(Hr & Hpath & bytes & Hfile & Hne)]; [done|].
      destruct (SplitFileIntoSections_any fs path (atoi m) bytes)
        as (positions & Hsplit & _); [done|done|done|lia|].
      destruct (mappers_return fs path positions (Z.to_nat (atoi m)) 0
                  (replicate (Z.to_nat (atoi m)) [])) as [mo Hmap]; [done..|].
      unfold pipeline. by rewrite Hsplit, Hmap, Shuffle_throws by auto. }
  unfold main. cbv zeta. simpl bool_decide.
  change ([prog; path; m; r] !!! 1%nat) with path.
  change ([prog; path; m; r] !!! 2%nat) with m.
  change ([prog; path; m; r] !!! 3%nat) with r.
  rewrite Hp. simpl. by case_decide.
Qed.

Lemma main_invalid_counts_witness :
  ∃ t,
    main ["prog"; "in"; "2147483648"; "2"]%string (fs_with "in" abac)
    = mkProcess (Exited 0) EmptyString (Printed ("Invalid argument" +:+ endl))
        (Some t)
    ∧ final t = Failed (if decide (atoi "2147483648" ≤ 0) then Sectioning
                        else Shuffling)
                  (invalid_argument "Invalid argument")
    ∧ disk t = fs_with "in" abac ∧ reducers_spawned t = 0%nat ∧ written t = [].
Proof.
  apply (main_invalid_counts "prog" "in" "2147483648" "2" (fs_with "in" abac)).
  left. vm_compute. discriminate.
Defined.

(** X15.  When the [try] block of [main] has run to its end, whatever the
    input, the artifacts written are exactly [output_0.txt], ...,
    [output_<rnum-1>.txt], and each of them holds at least one line, its
    lines in ascending order and every line followed by a newline. *)
Theorem artifacts_written fs path mnum rnum :
  final (pipeline fs path mnum rnum) = Done →
  written (pipeline fs path mnum rnum) = output_file_name <$> seqZ 0 rnum
  ∧ ∀ j, 0 ≤ j < rnum →
      ∃ lines,
        files (disk (pipeline fs path mnum rnum)) !! output_file_name j
        = Some (write_lines lines)
        ∧ lines ≠ [] ∧ StronglySorted key_le lines.
Proof.
  intros Hdone.
  destruct (pipeline_Done _ _ _ _ Hdone)
    as (positions & mo & bs & Hs & Hm & Hsh & Hrs).
  rewrite (pipeline_stages _ _ _ _ _ _ _ Hs Hm Hsh). simpl.
  destruct (Shuffle_inv _ _ _ Hsh) as (_ & Hr & _).
  destruct (Shuffle_buckets _ _ _ Hsh) as [Hlen _].
  split.
  - rewrite written_by_all, spawn_reducers_names by done.
    by rewrite Z2Nat.id by lia.
  - intros j Hj.
    destruct (lookup_lt_is_Some_2 bs (Z.to_nat j)) as [b Hb]; [lia|].
    exists b. split_and!.
    + pose proof (spawn_reducers_files bs (Z.to_nat rnum) 0 fs (Z.to_nat j)
                    Hrs ltac:(lia)) as Hf.
      rewrite Z.add_0_l, Z2Nat.id in Hf by lia.
      by rewrite (list_lookup_total_correct _ _ _ Hb) in Hf.
    + destruct (proj1 (spawn_reducers_all_return bs (Z.to_nat rnum) 0 fs) Hrs
                  (Z.to_nat j) ltac:(lia)) as [Hne _].
      rewrite Z.add_0_l, Z2Nat.id in Hne by lia.
      by rewrite (list_lookup_total_correct _ _ _ Hb) in Hne.
    + by apply (bucket_sorted mo rnum bs (Z.to_nat j)).
Qed.

Lemma artifacts_written_witness :
  written (pipeline (fs_with "in" abac) "in" 2 2)
  = output_file_name <$> seqZ 0 2
  ∧ ∀ j, 0 ≤ j < 2 →
      ∃ lines,
        files (disk (pipeline (fs_with "in" abac) "in" 2 2)) !! output_file_name j
        = Some (write_lines lines)
        ∧ lines ≠ [] ∧ StronglySorted key_le lines.
Proof.
  apply (artifacts_written (fs_with "in" abac) "in" 2 2). reflexivity.
Defined.

(** The lines read back from the artifacts are the buckets. *)
Lemma artifacts_lines bs rnum fs :
  length bs = Z.to_nat rnum →
  first_thrown (spawn_reducers bs (Z.to_nat rnum) 0 fs).1 = None →
  Forall no_newline (concat bs) →
  (λ j, text_lines
          (files (spawn_reducers bs (Z.to_nat rnum) 0 fs).2 !!! output_file_name j))
    <$> seqZ 0 rnum
  = bs.
Proof.
  intros Hbs Hrs Hnl.
  apply list_eq. intros n. rewrite list_lookup_fmap.
  destruct (decide (n < Z.to_nat rnum)%nat) as [Hn|Hn].
  - rewrite lookup_seqZ_lt by lia. simpl.
    destruct (lookup_lt_is_Some_2 bs n) as [b Hb]; [lia|].
    rewrite Hb. f_equal.
    pose proof (spawn_reducers_files bs (Z.to_nat rnum) 0 fs n Hrs Hn) as Hf.
    rewrite Z.add_0_l in Hf.
    rewrite (lookup_total_correct _ _ _ Hf), Nat2Z.id.
    rewrite (list_lookup_total_correct _ _ _ Hb).
    apply text_lines_write_lines.
    apply Forall_forall. intros x Hx.
    rewrite Forall_forall in Hnl. apply Hnl.
    apply list_elem_of_In, in_concat. exists b.
    split; apply list_elem_of_In; [by eapply list_elem_of_lookup_2|done].
  - rewrite lookup_seqZ_ge by lia. simpl.
    symmetry. apply lookup_ge_None. lia.
Qed.

(** X16.  With one mapper no line is lost, whatever the file: on any
    non-empty file, with or without a newline at its end, sectioning
    returns the one section from 0 to the file size, the mapper returns
    all lines of the file, and when the [try] block runs to its end the
    lines of the artifacts, taken together, are the lines of the file. *)
Theorem single_mapper_reads_all fs path bytes rnum :
  files fs !! path = Some bytes → bytes ≠ [] → path ≠ EmptyString →
  SplitFileIntoSections fs path 1 = Ok [0; Z.of_nat (length bytes)]
  ∧ join_mappers
      (spawn_mappers fs path [0; Z.of_nat (length bytes)] 1 0 [[]])
    = Some (Ok [text_lines bytes])
  ∧ (final (pipeline fs path 1 rnum) = Done →
     concat ((λ j, text_lines
                     (files (disk (pipeline fs path 1 rnum))
                        !!! output_file_name j))
               <$> seqZ 0 rnum)
     ≡ₚ text_lines bytes).
Proof.
  intros Hfile Hne Hpath.
  assert (SplitFileIntoSections fs path 1 = Ok [0; Z.of_nat (length bytes)])
    as Hsplit.
  { destruct (SplitFileIntoSections_any fs path 1 bytes)
      as (positions & Hsplit & Hlen & H0 & Hn & _); [done|done|done|lia|].
    rewrite Hsplit. f_equal.
    destruct positions as [|p0 [|p1 [|??]]]; simplify_eq/=. done. }
  assert (join_mappers
            (spawn_mappers fs path [0; Z.of_nat (length bytes)] 1 0 [[]])
          = Some (Ok [text_lines bytes])) as Hmap.
  { cbn [spawn_mappers join_mappers].
    change ([0; Z.of_nat (length bytes)] !!! 0%nat) with 0.
    change ([0; Z.of_nat (length bytes)] !!! 1%nat) with (Z.of_nat (length bytes)).
    change ([[]] !!! 0%nat) with (@nil string).
    rewrite (MapSection_from _ _ _ _ _ _ _ Hfile Hpath) by lia.
    change (Z.to_nat 0) with 0%nat. by rewrite drop_0, flat_map_map_func. }
  split; [done|]. split; [done|]. intros Hdone.
  destruct (pipeline_Done _ _ _ _ Hdone)
    as (positions & mo & bs & Hs & Hm & Hsh & Hrs).
  rewrite Hsplit in Hs. injection Hs as <-.
  change (replicate (Z.to_nat 1) []) with [@nil string] in Hm.
  change (Z.to_nat 1) with 1%nat in Hm.
  rewrite Hmap in Hm. injection Hm as <-.
  rewrite (pipeline_stages _ _ _ _ _ _ _ Hsplit Hmap Hsh). simpl.
  pose proof (Shuffle_concat _ _ _ Hsh) as Hperm.
  simpl in Hperm. rewrite app_nil_r in Hperm.
  destruct (Shuffle_buckets _ _ _ Hsh) as [Hlen _].
  rewrite artifacts_lines; [done..|].
  rewrite Hperm. apply text_lines_no_newline.
Qed.

Lemma single_mapper_reads_all_witness :
  SplitFileIntoSections (fs_with "in" "a") "in" 1
  = Ok [0; Z.of_nat (length (bytes "a"))]
  ∧ join_mappers
      (spawn_mappers (fs_with "in" "a") "in" [0; Z.of_nat (length (bytes "a"))]
         1 0 [[]])
    = Some (Ok [text_lines (bytes "a")])
  ∧ concat ((λ j, text_lines
                    (files (disk (pipeline (fs_with "in" "a") "in" 1 1))
                       !!! output_file_name j))
              <$> seqZ 0 1)
    ≡ₚ text_lines (bytes "a").
Proof.
  destruct (single_mapper_reads_all (fs_with "in" "a") "in" (bytes "a") 1)
    as (Hsplit & Hmap & Hlines).
  - reflexivity.
  - discriminate.
  - discriminate.
  - split; [exact Hsplit|]. split; [exact Hmap|]. apply Hlines. reflexivity.
Defined.

(** * The mapping phase on any file *)

Section Slices.

Implicit Types (cs a b line : list ascii) (s : ifstream) (out : list string).

(** A text cut behind a newline: the lines of the whole are the lines of
    the two parts. *)
Lemma split_lines_cut a b :
  newline_delimited a → split_lines (a ++ b) = split_lines a ++ split_lines b.
Proof.
  induction a as [|c a IH]; intros Ha; [done|].
  apply newline_delimited_tail in Ha as [Ha Hc]. cbn [app split_lines].
  rewrite IH by done.
  destruct (Ascii.eqb_spec c newline) as [->|Hne]; [done|].
  destruct (split_lines a) as [|l ls] eqn:Hsplit; [|done].
  apply split_lines_nil in Hsplit. tauto.
Qed.

Lemma text_lines_cut a b :
  newline_delimited a → text_lines (a ++ b) = text_lines a ++ text_lines b.
Proof. intros Ha. unfold text_lines. by rewrite split_lines_cut, fmap_app. Qed.

Lemma newline_delimited_slice cs (p e : nat) :
  (p ≤ e)%nat → p = e ∨ cs !! (e - 1)%nat = Some newline →
  newline_delimited (take (e - p) (drop p cs)).
Proof.
  intros Hpe [->|Hnew]; [left; by rewrite Nat.sub_diag|].
  destruct (decide (p = e)) as [->|Hne]; [left; by rewrite Nat.sub_diag|].
  right. replace (e - p)%nat with (S (e - p - 1)) by lia.
  rewrite (take_S_r _ _ newline).
  - by rewrite last_snoc.
  - rewrite lookup_drop. by replace (p + (e - p - 1))%nat with (e - 1)%nat by lia.
Qed.

(** The loop of [MapSection] from a line start up to an offset behind a
    newline maps the lines between the two. *)
Lemma map_loop_slice f (e n : nat) : ∀ s out fuel,
  good s = true → 0 ≤ gpos s → (Z.to_nat (gpos s) ≤ e)%nat →
  Z.to_nat (gpos s) = e ∨ buf s !! (e - 1)%nat = Some newline →
  (e - Z.to_nat (gpos s) ≤ n)%nat → (n + 1 ≤ fuel)%nat →
  map_loop fuel f (Z.of_nat e) s out
  = Some (out ++ flat_map f
                   (text_lines (take (e - Z.to_nat (gpos s))
                                  (drop (Z.to_nat (gpos s)) (buf s))))).
Proof.
  induction n as [|n IH]; intros s out fuel Hgood Hpos Hle Hend Hn Hfuel;
    (destruct fuel as [|fuel]; [lia|]); cbn [map_loop];
    rewrite (tellg_good s Hgood).
  - destruct (Z.ltb_spec (gpos s) (Z.of_nat e)); [lia|].
    replace (e - Z.to_nat (gpos s))%nat with 0%nat by lia.
    by rewrite take_0, app_nil_r.
  - destruct (Z.ltb_spec (gpos s) (Z.of_nat e)) as [Hlt|Hge].
    2:{ replace (e - Z.to_nat (gpos s))%nat with 0%nat by lia.
        by rewrite take_0, app_nil_r. }
    destruct Hend as [|Hnew]; [lia|].
    assert (Hin : newline ∈ drop (Z.to_nat (gpos s)) (buf s))
      by (apply (newline_after_drop _ _ (e - 1)); [lia|done]).
    unfold getline. rewrite Hgood.
    destruct (extract_line_spec (drop (Z.to_nat (gpos s)) (buf s)))
      as (Hnl & Hsome & _).
    pose proof (extract_line_found _ Hin) as Hfound.
    destruct (extract_line (drop (Z.to_nat (gpos s)) (buf s))) as [line found].
    simpl in Hnl, Hsome, Hfound. subst found. specialize (Hsome eq_refl).
    cbn [negb failbit].
    assert (Hlen : (Z.to_nat (gpos s) + length line ≤ e - 1)%nat).
    { destruct (decide (Z.to_nat (gpos s) + length line ≤ e - 1)%nat); [done|].
      destruct Hnl. apply list_elem_of_lookup.
      exists (e - 1 - Z.to_nat (gpos s))%nat.
      rewrite <- (lookup_app_l _ (newline :: drop (S (length line))
                                   (drop (Z.to_nat (gpos s)) (buf s)))) by lia.
      rewrite <- Hsome, lookup_drop. rewrite <- Hnew. f_equal. lia. }
    rewrite IH; simpl; try done; try lia.
    2:{ by right. }
    f_equal. rewrite <- (assoc_L (++)). f_equal.
    assert (Hrest : drop (Z.to_nat (gpos s + Z.of_nat (length line) + 1)) (buf s)
                    = drop (S (length line)) (drop (Z.to_nat (gpos s)) (buf s)))
      by (rewrite drop_drop; f_equal; lia).
    rewrite Hrest.
    remember (drop (S (length line)) (drop (Z.to_nat (gpos s)) (buf s))) as rest.
    rewrite Hsome.
    rewrite take_app_ge by lia.
    replace (e - Z.to_nat (gpos s) - length line)%nat
      with (S (e - Z.to_nat (gpos s + Z.of_nat (length line) + 1))) by lia.
    rewrite firstn_cons. unfold text_lines.
    rewrite split_lines_app by done. by rewrite fmap_cons.
Qed.

End Slices.

Lemma MapSection_slice fs path bytes (p e : nat) f out :
  files fs !! path = Some bytes → path ≠ EmptyString →
  (p ≤ e)%nat → p = e ∨ bytes !! (e - 1)%nat = Some newline →
  MapSection fs path (Z.of_nat p) (Z.of_nat e) (Some f) out
  = Some (Ok (out ++ flat_map f (text_lines (take (e - p) (drop p bytes))))).
Proof.
  intros Hfile Hpath Hpe Hend. unfold MapSection, open_ifstream.
  destruct (String.eqb_spec path EmptyString) as [|_]; [done|].
  rewrite Hfile.
  assert (Hseek : seekg (Z.of_nat p) (mkIfstream bytes 0 false false)
                  = mkIfstream bytes (Z.of_nat p) false false).
  { unfold seekg. simpl. destruct (Z.ltb_spec (Z.of_nat p) 0); [lia|done]. }
  rewrite Hseek.
  rewrite (map_loop_slice f e (e - p)); simpl; rewrite ?Nat2Z.id; try done; try lia.
  unfold map_fuel. simpl. destruct Hend as [->|Hnew]; [lia|].
  apply lookup_lt_Some in Hnew. lia.
Qed.

Lemma MapSection_skips fs path bytes start_pos end_pos f out :
  files fs !! path = Some bytes → path ≠ EmptyString →
  start_pos < 0 ∨ end_pos ≤ start_pos →
  MapSection fs path start_pos end_pos (Some f) out = Some (Ok out).
Proof.
  intros Hfile Hpath Hrange. unfold MapSection, open_ifstream.
  destruct (String.eqb_spec path EmptyString) as [|_]; [done|].
  rewrite Hfile. unfold map_fuel. rewrite seekg_buf. simpl.
  replace (length bytes + 2)%nat with (S (length bytes + 1)) by lia.
  destruct (Z.ltb_spec start_pos 0) as [Hneg|Hpos].
  - rewrite map_loop_not_good; [done|].
    unfold seekg, good. simpl. by rewrite (proj2 (Z.ltb_lt _ _) Hneg).
  - assert (Hseek : seekg start_pos (mkIfstream bytes 0 false false)
                    = mkIfstream bytes start_pos false false).
    { unfold seekg. simpl. by rewrite (proj2 (Z.ltb_ge _ _) Hpos). }
    rewrite Hseek. cbn [map_loop]. unfold tellg, good. simpl.
    destruct (Z.ltb_spec start_pos end_pos); [lia|done].
Qed.

Section AnyMapping.

Variable bytes : list ascii.
Variable n : Z.
Hypothesis bytes_some : bytes ≠ [].
Hypothesis n_pos : 0 < n.

Lemma target_nonneg j : 0 ≤ target bytes n j.
Proof.
  unfold target.
  pose proof (Z.quot_pos (Z.of_nat (length bytes)) n ltac:(lia) n_pos). nia.
Qed.

Lemma target_mono j j' : (j ≤ j')%nat → target bytes n j ≤ target bytes n j'.
Proof.
  unfold target. intros Hj.
  pose proof (Z.quot_pos (Z.of_nat (length bytes)) n ltac:(lia) n_pos). nia.
Qed.

Lemma target_lt_size j :
  Z.of_nat j < n → target bytes n j < Z.of_nat (length bytes).
Proof.
  unfold target. intros Hj.
  assert (0 < Z.of_nat (length bytes))
    by (destruct bytes; [done|simpl; lia]).
  pose proof (Z.quot_pos (Z.of_nat (length bytes)) n ltac:(lia) n_pos).
  pose proof (Z.mul_quot_le (Z.of_nat (length bytes)) n ltac:(lia) ltac:(lia)).
  nia.
Qed.

Lemma found_dec j : found bytes n j ∨ ¬ found bytes n j.
Proof.
  unfold found.
  destruct (decide (newline ∈ drop (Z.to_nat (target bytes n j)) bytes)); auto.
Qed.

Lemma found_earlier j j' : (j ≤ j')%nat → found bytes n j' → found bytes n j.
Proof.
  unfold found. intros Hj Hfound.
  destruct (decide (newline ∈ drop (Z.to_nat (target bytes n j)) bytes)) as [|Hnot];
    [done|].
  destruct (no_newline_later bytes (target bytes n j) (target bytes n j')); try done.
  split; [apply target_nonneg|by apply target_mono].
Qed.

Lemma section_start_found j :
  (0 < j)%nat → Z.of_nat j < n → found bytes n j →
  Z.of_nat (section_start bytes n j) = after_newline bytes (target bytes n j)
  ∧ target bytes n j < Z.of_nat (section_start bytes n j)
  ∧ bytes !! (section_start bytes n j - 1)%nat = Some newline
  ∧ (section_start bytes n j ≤ length bytes)%nat
  ∧ ∀ e' : nat, target bytes n j ≤ Z.of_nat e' →
      (S e' < section_start bytes n j)%nat → bytes !! e' ≠ Some newline.
Proof.
  intros Hj Hjn Hfound. unfold section_start.
  rewrite decide_False by lia. rewrite decide_False by lia.
  destruct (after_newline_spec bytes (target bytes n j) (target_nonneg j) Hfound)
    as (e & -> & Hge & Hnew & Hfirst).
  replace (Z.to_nat (Z.of_nat e + 1)) with (S e) by lia.
  replace (S e - 1)%nat with e by lia.
  split_and!; [lia|lia|done| |].
  - apply lookup_lt_Some in Hnew. lia.
  - intros e' He' Hlt. apply Hfirst; [done|lia].
Qed.

Lemma section_start_le j :
  j = 0%nat ∨ n ≤ Z.of_nat j ∨ found bytes n j →
  (section_start bytes n j ≤ length bytes)%nat.
Proof.
  intros Hj. destruct (decide (j = 0%nat)) as [->|Hne].
  { unfold section_start. simpl. lia. }
  destruct (decide (n ≤ Z.of_nat j)) as [Hge|Hlt].
  { unfold section_start. rewrite decide_False, decide_True by done. lia. }
  destruct Hj as [|[|Hfound]]; [done..|].
  by destruct (section_start_found j ltac:(lia) ltac:(lia) Hfound) as (_&_&_&?&_).
Qed.

(** The start of a section is empty or lies behind a newline. *)
Lemma section_start_newline j :
  Z.of_nat j < n → j = 0%nat ∨ found bytes n j →
  0%nat = section_start bytes n j
  ∨ bytes !! (section_start bytes n j - 1)%nat = Some newline.
Proof.
  intros Hjn Hj. destruct (decide (j = 0%nat)) as [->|Hne]; [by left|].
  destruct Hj as [|Hfound]; [done|]. right.
  by destruct (section_start_found j ltac:(lia) ltac:(lia) Hfound) as (_&_&?&_).
Qed.

Lemma section_start_mono j :
  j = 0%nat ∨ found bytes n j →
  n ≤ Z.of_nat (S j) ∨ found bytes n (S j) →
  (section_start bytes n j ≤ section_start bytes n (S j))%nat.
Proof.
  intros Hj HSj. destruct (decide (j = 0%nat)) as [->|Hne].
  { unfold section_start at 1. simpl. lia. }
  destruct Hj as [|Hfound]; [done|].
  destruct (decide (n ≤ Z.of_nat (S j))) as [Hge|Hlt].
  { unfold section_start at 2. rewrite decide_False, decide_True by done.
    apply section_start_le. auto. }
  destruct HSj as [|HfoundS]; [done|].
  destruct (section_start_found j ltac:(lia) ltac:(lia) Hfound) as (H1 & _).
  destruct (section_start_found (S j) ltac:(lia) ltac:(lia) HfoundS) as (H2 & _).
  pose proof (after_newline_mono bytes (target bytes n j) (target bytes n (S j))
                (conj (target_nonneg j) (target_mono j (S j) ltac:(lia)))
                HfoundS).
  lia.
Qed.

(** A boundary followed by a target with no newline left lies before that
    target. *)
Lemma section_start_before j :
  Z.of_nat (S j) < n → j = 0%nat ∨ found bytes n j → ¬ found bytes n (S j) →
  Z.of_nat (section_start bytes n j) ≤ target bytes n (S j).
Proof.
  intros Hjn Hj Hnot. destruct (decide (j = 0%nat)) as [->|Hne].
  { unfold section_start. simpl. apply target_nonneg. }
  destruct Hj as [|Hfound]; [done|].
  destruct (section_start_found j ltac:(lia) ltac:(lia) Hfound)
    as (_ & Hlt & Hnew & _).
  destruct (decide (Z.of_nat (section_start bytes n j) ≤ target bytes n (S j)));
    [done|].
  destruct Hnot. unfold found.
  apply (newline_after_drop _ _ (section_start bytes n j - 1)); [|done].
  split; [apply target_nonneg|lia].
Qed.

Variable fs : FileSystem.
Variable path : string.
Variable positions : list Z.
Hypothesis file_bytes : files fs !! path = Some bytes.
Hypothesis path_some : path ≠ EmptyString.
Hypothesis positions_first : positions !! 0%nat = Some 0.
Hypothesis positions_last :
  positions !! Z.to_nat n = Some (Z.of_nat (length bytes)).
Hypothesis positions_inner :
  ∀ j : nat, 0 < Z.of_nat j < n →
    positions !! j = Some (boundary_of bytes (target bytes n j)).

Lemma position_offset j :
  Z.of_nat j ≤ n → j = 0%nat ∨ n ≤ Z.of_nat j ∨ found bytes n j →
  positions !!! j = Z.of_nat (section_start bytes n j).
Proof using positions_first positions_last positions_inner n_pos bytes_some.
  intros Hjn Hj. apply list_lookup_total_correct.
  destruct (decide (j = 0%nat)) as [->|Hne]; [done|].
  destruct (decide (n ≤ Z.of_nat j)) as [Hge|Hlt].
  { replace j with (Z.to_nat n) by lia. rewrite positions_last.
    unfold section_start. rewrite decide_False by lia.
    rewrite decide_True by lia. done. }
  destruct Hj as [|[|Hfound]]; [done..|].
  rewrite positions_inner by lia. unfold boundary_of.
  rewrite decide_True by done.
  by destruct (section_start_found j ltac:(lia) ltac:(lia) Hfound) as (-> & _).
Qed.

Lemma position_lost j :
  0 < Z.of_nat j < n → ¬ found bytes n j → positions !!! j = -1.
Proof using positions_inner.
  intros Hj Hnot. apply list_lookup_total_correct.
  rewrite positions_inner by done. unfold boundary_of.
  by rewrite decide_False.
Qed.

(** Behind a boundary of -1 no mapper reads anything. *)
Lemma mappers_lost (trips : nat) : ∀ i : nat,
  (0 < i)%nat → (i + trips ≤ Z.to_nat n)%nat → ¬ found bytes n i →
  join_mappers
    (spawn_mappers fs path positions trips i (replicate (Z.to_nat n) []))
  = Some (Ok (replicate trips [])).
Proof using file_bytes path_some positions_inner n_pos bytes_some.
  induction trips as [|trips IH]; intros i Hi Hin Hnot; [done|].
  cbn [spawn_mappers join_mappers].
  rewrite (position_lost i) by (done || lia).
  rewrite (lookup_total_replicate_2 (A:=list string)) by lia.
  rewrite (MapSection_skips _ _ _ _ _ _ _ file_bytes path_some) by lia.
  rewrite IH; [done|lia|lia|].
  intros Hfound. apply Hnot. by apply (found_earlier i (S i)); [lia|].
Qed.

(** The mappers from section [i] on, when section [i] starts at an offset
    of the file: they return the lines up to some boundary [k], the last
    one before a boundary of -1 if there is one. *)
Lemma mappers_any (trips : nat) : ∀ i : nat,
  (i + trips ≤ Z.to_nat n)%nat → i = 0%nat ∨ found bytes n i →
  ∃ outs (k : nat),
    join_mappers
      (spawn_mappers fs path positions trips i (replicate (Z.to_nat n) []))
    = Some (Ok outs)
    ∧ length outs = trips
    ∧ (i ≤ k ≤ i + trips)%nat
    ∧ (∀ j : nat, (i ≤ j ≤ k)%nat → Z.of_nat j < n → j = 0%nat ∨ found bytes n j)
    ∧ (k = (i + trips)%nat ∨ (Z.of_nat (S k) < n ∧ ¬ found bytes n (S k)))
    ∧ (section_start bytes n i ≤ section_start bytes n k)%nat
    ∧ concat outs
      = text_lines (take (section_start bytes n k - section_start bytes n i)
                      (drop (section_start bytes n i) bytes)).
Proof using file_bytes path_some positions_first positions_last positions_inner
  n_pos bytes_some.
  induction trips as [|trips IH]; intros i Hin Hi.
  { exists [], i. rewrite Nat.sub_diag. split_and!; try done; try lia.
    intros j Hj _. by replace j with i by lia. }
  cbn [spawn_mappers join_mappers].
  rewrite (position_offset i) by (lia || tauto).
  rewrite (lookup_total_replicate_2 (A:=list string)) by lia.
  destruct (decide (n ≤ Z.of_nat (S i))) as [Hlast|Hinner].
  - (* the last section *)
    assert (trips = 0%nat) as -> by lia.
    rewrite (position_offset (S i)) by (lia || tauto).
    assert (section_start bytes n (S i) = length bytes) as HS.
    { unfold section_start. rewrite decide_False, decide_True by done. done. }
    rewrite HS.
    rewrite (MapSection_from _ _ _ _ _ _ _ file_bytes path_some) by lia.
    rewrite Nat2Z.id, flat_map_map_func. cbn [spawn_mappers join_mappers].
    pose proof (section_start_le i ltac:(tauto)) as Hle.
    eexists _, (S i). split; [done|]. rewrite HS.
    split_and!; [done|lia|lia| |left; lia|done|].
    + intros j Hj Hjn. by replace j with i by lia.
    + simpl. rewrite app_nil_r. by rewrite take_ge by (rewrite length_drop; lia).
  - destruct (found_dec (S i)) as [Hfound|Hnot].
    + (* a section between two offsets of the file *)
      rewrite (position_offset (S i)) by (lia || tauto).
      pose proof (section_start_mono i Hi ltac:(tauto)) as Hmono.
      pose proof (section_start_newline (S i) ltac:(lia) ltac:(tauto)) as Hnew.
      rewrite (MapSection_slice _ _ _ _ _ _ _ file_bytes path_some Hmono)
        by (destruct Hnew as [Heq|]; [left; lia|by right]).
      rewrite flat_map_map_func.
      destruct (IH (S i) ltac:(lia) ltac:(tauto))
        as (outs & k & -> & Hlen & Hk & Hvalid & Hend & Hle & Hcat).
      eexists _, k. split; [done|].
      split_and!; [simpl; lia|lia|lia| | |lia|].
      * intros j Hj Hjn. destruct (decide (j = i)) as [->|]; [done|].
        apply Hvalid; [lia|done].
      * destruct Hend as [->|]; [left; lia|by right].
      * rewrite concat_cons, Hcat. simpl.
        rewrite <- text_lines_cut.
        2:{ apply newline_delimited_slice; [done|].
            destruct Hnew as [Heq|]; [left; lia|by right]. }
        f_equal.
        replace (drop (section_start bytes n (S i)) bytes)
          with (drop (section_start bytes n (S i) - section_start bytes n i)
                  (drop (section_start bytes n i) bytes))
          by (rewrite drop_drop; f_equal; lia).
        rewrite take_take_drop. f_equal. lia.
    + (* the section before a boundary of -1 *)
      rewrite (position_lost (S i)) by (done || lia).
      rewrite (MapSection_skips _ _ _ _ _ _ _ file_bytes path_some) by lia.
      rewrite (mappers_lost trips (S i)) by (done || lia).
      eexists _, i. split; [done|].
      split_and!; [simpl; by rewrite length_replicate|lia|lia| | |lia|].
      * intros j Hj _. by replace j with i by lia.
      * right. split; [lia|done].
      * rewrite Nat.sub_diag, take_0. simpl. by rewrite concat_replicate_nil.
Qed.

End AnyMapping.

(** The mapping phase of [main] on any file: the mappers return the lines
    of the file up to some line, and all of them exactly when there is one
    mapper or a newline at or after the last target offset. *)
Lemma mapping_any fs path mnum bytes positions :
  files fs !! path = Some bytes →
  SplitFileIntoSections fs path mnum = Ok positions →
  ∃ mo lost,
    join_mappers
      (spawn_mappers fs path positions (Z.to_nat mnum) 0
         (replicate (Z.to_nat mnum) []))
    = Some (Ok mo)
    ∧ length mo = Z.to_nat mnum
    ∧ text_lines bytes = concat mo ++ lost
    ∧ (lost = [] ↔ mnum = 1 ∨ found bytes mnum (Z.to_nat (mnum - 1))).
Proof.
  intros Hfile Hsplit.
  destruct (SplitFileIntoSections_inv _ _ _ _ Hsplit)
    as (Hpath & Hn & bytes' & Hfile' & Hne).
  assert (bytes' = bytes) as -> by congruence.
  destruct (SplitFileIntoSections_any fs path mnum bytes Hfile Hne Hpath Hn)
    as (positions' & Hsplit' & _ & H0 & Hlast & Hinner).
  assert (positions' = positions) as -> by congruence.
  destruct (mappers_any bytes mnum Hne Hn fs path positions Hfile Hpath H0 Hlast
              Hinner (Z.to_nat mnum) 0 ltac:(lia) ltac:(by left))
    as (mo & k & Hmap & Hlen & Hk & Hvalid & Hend & _ & Hcat).
  change (section_start bytes mnum 0) with 0%nat in Hcat.
  rewrite Nat.sub_0_r, drop_0 in Hcat.
  exists mo, (text_lines (drop (section_start bytes mnum k) bytes)).
  split; [done|]. split; [done|].
  destruct (decide (Z.of_nat k < mnum)) as [Hlt|Hge].
  - (* a boundary of -1 follows boundary [k] *)
    destruct Hend as [|[HSk Hnot]]; [lia|].
    pose proof (Hvalid k ltac:(lia) Hlt) as Hkv.
    split.
    + rewrite Hcat, <- text_lines_cut, take_drop; [done|].
      pose proof (newline_delimited_slice bytes 0 (section_start bytes mnum k)
                    ltac:(lia)
                    (section_start_newline bytes mnum Hn k Hlt Hkv)) as Hnd.
      by rewrite Nat.sub_0_r, drop_0 in Hnd.
    + split.
      * intros Hnil. exfalso.
        pose proof (section_start_before bytes mnum Hn k HSk Hkv Hnot).
        pose proof (target_lt_size bytes mnum Hne Hn (S k) HSk).
        unfold text_lines in Hnil. apply fmap_nil_inv, split_lines_nil in Hnil.
        apply (f_equal length) in Hnil. rewrite length_drop in Hnil.
        simpl in Hnil. lia.
      * intros [->|Hfound]; [lia|]. destruct Hnot.
        apply (found_earlier bytes mnum Hn (S k) (Z.to_nat (mnum - 1)));
          [lia|done].
  - (* every boundary is an offset of the file *)
    assert (k = Z.to_nat mnum) as -> by lia.
    assert (section_start bytes mnum (Z.to_nat mnum) = length bytes) as Hss.
    { unfold section_start. rewrite decide_False by lia.
      by rewrite decide_True by lia. }
    rewrite Hss in Hcat |- *. rewrite firstn_all in Hcat.
    rewrite drop_all. split; [by rewrite Hcat, app_nil_r|].
    split; [|done]. intros _.
    destruct (Hvalid (Z.to_nat (mnum - 1)) ltac:(lia) ltac:(lia)) as [H1|Hf];
      [left; lia|by right].
Qed.

(** X17.  What the mappers do to a file of any shape.  The lines they
    return, in section order, are always a prefix of the lines of the
    file: no line is invented, repeated or moved, lines are lost only from
    the end.  None is lost exactly when there is one mapper or a newline
    occurs at or after the last target offset [(size / mnum) * (mnum - 1)];
    in particular a newline as the last byte of the file saves every
    line. *)
Theorem mappers_lose_only_a_tail fs path mnum bytes positions :
  files fs !! path = Some bytes →
  SplitFileIntoSections fs path mnum = Ok positions →
  ∃ mo,
    join_mappers
      (spawn_mappers fs path positions (Z.to_nat mnum) 0
         (replicate (Z.to_nat mnum) []))
    = Some (Ok mo)
    ∧ concat mo `prefix_of` text_lines bytes
    ∧ (concat mo = text_lines bytes
       ↔ mnum = 1
         ∨ newline ∈ drop (Z.to_nat (Z.of_nat (length bytes) ÷ mnum * (mnum - 1)))
                      bytes).
Proof.
  intros Hfile Hsplit.
  destruct (mapping_any _ _ _ _ _ Hfile Hsplit)
    as (mo & lost & Hmap & _ & Hlines & Hlost).
  destruct (SplitFileIntoSections_inv _ _ _ _ Hsplit) as (_ & Hn & _).
  unfold found, target in Hlost. rewrite Z2Nat.id in Hlost by lia.
  exists mo. split; [done|]. split; [by exists lost|].
  rewrite <- Hlost, Hlines. split.
  - intros Heq. apply (app_inv_head (concat mo)). by rewrite app_nil_r.
  - intros ->. by rewrite app_nil_r.
Qed.

Lemma mappers_lose_only_a_tail_witness :
  ∃ mo,
    join_mappers
      (spawn_mappers (fs_with "in" open_ended) "in" [0; 4; -1; 10] (Z.to_nat 3) 0
         (replicate (Z.to_nat 3) []))
    = Some (Ok mo)
    ∧ concat mo `prefix_of` text_lines (bytes open_ended)
    ∧ (concat mo = text_lines (bytes open_ended)
       ↔ 3 = 1
         ∨ newline
           ∈ drop (Z.to_nat (Z.of_nat (length (bytes open_ended)) ÷ 3 * (3 - 1)))
               (bytes open_ended)).
Proof.
  apply (mappers_lose_only_a_tail (fs_with "in" open_ended) "in" 3
           (bytes open_ended) [0; 4; -1; 10]).
  - reflexivity.
  - reflexivity.
Defined.

(** X18.  The round trip on a file of any shape: when the [try] block of
    [main] runs to its end, the lines of the artifacts, taken together and
    with their multiplicities, are a prefix of the lines of the input
    file, and they are all of its lines exactly when there is one mapper
    or a newline occurs at or after the last target offset. *)
Theorem round_trip_any_file fs path mnum rnum bytes :
  files fs !! path = Some bytes →
  final (pipeline fs path mnum rnum) = Done →
  ∃ kept,
    kept `prefix_of` text_lines bytes
    ∧ concat ((λ j, text_lines
                      (files (disk (pipeline fs path mnum rnum))
                         !!! output_file_name j))
                <$> seqZ 0 rnum)
      ≡ₚ kept
    ∧ (kept = text_lines bytes
       ↔ mnum = 1
         ∨ newline ∈ drop (Z.to_nat (Z.of_nat (length bytes) ÷ mnum * (mnum - 1)))
                      bytes).
Proof.
  intros Hfile Hdone.
  destruct (pipeline_Done _ _ _ _ Hdone)
    as (positions & mo & bs & Hs & Hm & Hsh & Hrs).
  destruct (mapping_any _ _ _ _ _ Hfile Hs)
    as (mo' & lost & Hmap & _ & Hlines & Hlost).
  rewrite Hm in Hmap. injection Hmap as <-.
  destruct (SplitFileIntoSections_inv _ _ _ _ Hs) as (_ & Hn & _).
  unfold found, target in Hlost. rewrite Z2Nat.id in Hlost by lia.
  exists (concat mo). split; [by exists lost|]. split.
  - rewrite (pipeline_stages _ _ _ _ _ _ _ Hs Hm Hsh). simpl.
    pose proof (Shuffle_concat _ _ _ Hsh) as Hperm.
    destruct (Shuffle_buckets _ _ _ Hsh) as [Hlen _].
    rewrite artifacts_lines; [done..|].
    rewrite Hperm.
    pose proof (text_lines_no_newline bytes) as Hnl.
    rewrite Hlines in Hnl. by apply Forall_app in Hnl as [? _].
  - rewrite <- Hlost, Hlines. split.
    + intros Heq. apply (app_inv_head (concat mo)). by rewrite app_nil_r.
    + intros ->. by rewrite app_nil_r.
Qed.

Lemma round_trip_any_file_witness :
  ∃ kept,
    kept `prefix_of` text_lines (bytes open_ended)
    ∧ concat ((λ j, text_lines
                      (files (disk (pipeline (fs_with "in" open_ended) "in" 3 1))
                         !!! output_file_name j))
                <$> seqZ 0 1)
      ≡ₚ kept
    ∧ (kept = text_lines (bytes open_ended)
       ↔ 3 = 1
         ∨ newline
           ∈ drop (Z.to_nat (Z.of_nat (length (bytes open_ended)) ÷ 3 * (3 - 1)))
               (bytes open_ended)).
Proof.
  apply (round_trip_any_file (fs_with "in" open_ended) "in" 3 1
           (bytes open_ended)).
  - reflexivity.
  - reflexivity.
Defined.

(** * Mapper threads under any fair schedule *)

(** What a worker sees of a schedule depends on the number of its own
    steps only. *)
Lemma view_count fs path positions (i : nat) (schedule : list nat) : ∀ x,
  view fs path positions i schedule x
  = view fs path positions i
      (replicate (length (filter (λ j, j = i) schedule)) i) x.
Proof.
  induction schedule as [|j schedule IH]; intros x; [done|].
  rewrite filter_cons. cbn [view fold_left]. destruct (decide (j = i)) as [->|Hne].
  - cbn [length replicate view fold_left]. rewrite decide_True by done.
    apply IH.
  - apply IH.
Qed.

(** X19.  The mapper threads need no synchronisation.  Under every
    schedule that gives each of the [mnum] mappers at least as many steps
    as the file has bytes, plus three, all mappers have returned, none has
    thrown, and the slots of [map_results] hold what the mappers would
    have produced one after the other, so that shuffling sees the same
    input whatever the interleaving. *)
Theorem fair_schedule_as_sequential fs path mnum rnum bytes positions schedule :
  files fs !! path = Some bytes →
  SplitFileIntoSections fs path mnum = Ok positions →
  (∀ i : nat, (i < Z.to_nat mnum)%nat →
     (length bytes + 3 ≤ length (filter (λ j, j = i) schedule))%nat) →
  ∃ mo,
    join_mappers
      (spawn_mappers fs path positions (Z.to_nat mnum) 0
         (replicate (Z.to_nat mnum) []))
    = Some (Ok mo)
    ∧ map_results (run_mappers fs path positions mnum schedule) = mo
    ∧ run_stages fs path mnum rnum schedule
      = Some (Shuffled positions (Shuffle mo rnum)).
Proof.
  intros Hfile Hsplit Hfair.
  assert (Hfin : forallb finished
                   (threads (run_mappers fs path positions mnum schedule)) = true).
  { apply forallb_forall. intros w [i Hw]%list_elem_of_In%list_elem_of_lookup.
    unfold run_mappers in Hw.
    pose proof (lookup_lt_Some _ _ _ Hw) as Hi.
    rewrite (proj1 (run_length _ _ _ _ _)) in Hi. simpl in Hi.
    rewrite length_replicate in Hi.
    destruct (run_view fs path positions schedule
                (mkPool (replicate (Z.to_nat mnum) Spawned)
                   (replicate (Z.to_nat mnum) [])) i Spawned [])
      as [Hw' _]; [by apply lookup_replicate_2..|].
    rewrite Hw' in Hw. injection Hw as <-.
    rewrite view_count. apply spawned_steps. rewrite Hfile. simpl.
    by apply Hfair. }
  destruct (SplitFileIntoSections_inv _ _ _ _ Hsplit) as (Hpath & _ & _).
  destruct (mappers_return fs path positions (Z.to_nat mnum) 0
              (replicate (Z.to_nat mnum) []) Hpath) as [mo Hmo]; [by eexists|].
  exists mo. split; [done|].
  destruct (run_mappers_finished _ _ _ _ _ Hfin) as [Hthreads Hslots].
  pose proof Hmo as Hjoin. rewrite spawn_mappers_fmap in Hjoin by lia.
  pose proof (join_mappers_threads
                ((λ j, MapSection fs path (positions !!! j) (positions !!! S j)
                         (Some map_func) []) <$> seq 0 (Z.to_nat mnum))) as Hjt.
  rewrite Hjoin in Hjt. rewrite <- !list_fmap_compose in Hjt.
  destruct Hjt as [Hnone Hmo'].
  unfold compose in Hnone, Hmo'.
  assert (map_results (run_mappers fs path positions mnum schedule) = mo) as Hres
    by congruence.
  split; [done|].
  unfold run_stages. rewrite Hsplit, Hfin, Hthreads, Hnone. by rewrite Hres.
Qed.

Lemma fair_schedule_as_sequential_witness :
  ∃ mo,
    join_mappers
      (spawn_mappers (fs_with "in" "ab") "in" [0; -1; 2] (Z.to_nat 2) 0
         (replicate (Z.to_nat 2) []))
    = Some (Ok mo)
    ∧ map_results
        (run_mappers (fs_with "in" "ab") "in" [0; -1; 2] 2
           [0; 1; 0; 1; 1; 0; 0; 1; 1; 0]%nat)
      = mo
    ∧ run_stages (fs_with "in" "ab") "in" 2 1 [0; 1; 0; 1; 1; 0; 0; 1; 1; 0]%nat
      = Some (Shuffled [0; -1; 2] (Shuffle mo 1)).
Proof.
  apply (fair_schedule_as_sequential (fs_with "in" "ab") "in" 2 1 (bytes "ab")).
  - reflexivity.
  - reflexivity.
  - intros i Hi. assert (i = 0 ∨ i = 1)%nat as [-> | ->] by lia; vm_compute; lia.
Defined.
